(** * Rate-monotonic scheduling simulator (vss-xxy.py): model and properties

    A shallow embedding of the discrete-time scheduler of [vss-xxy.py].

    - Python integers are unbounded: they are [Z].  Task names are strings.
    - A [Task] object is mutated in place and shared between the list
      [tasks] and the list [active_jobs]; the model keeps one store of task
      records (the field [tasks] of the state) and lets [active_jobs] hold
      references (positions in the store), so that a task appended twice is
      one object seen twice.
    - [job_release_times] is a dict keyed by [task_id]: a [gmap string Z].
    - [truncnorm.rvs] is the only source of randomness.  The sequence of the
      floats it returns is a parameter ([nat -> Q], the n-th call returns the
      n-th value; a finite float is a rational); the state counts the calls.
      What the library does when handed an empty interval ([bcet > wcet]) is
      not part of this source and is not modelled.
    - The lines written by [print] are kept as an event trace.
    - The [while] loop runs on fuel; [while_loop_exit] and
      [scheduling_result] show that the fuel given by
      [rate_monotonic_scheduling] never runs out. *)

From Stdlib Require Import ZArith QArith Qround Lia List.
From stdpp Require Import gmap strings list fin_maps sorting.

Open Scope Z_scope.

(** ** generate_execution_time *)

(** Python's [round(x)] on a float: nearest integer, ties to the even one. *)
Definition py_round (x : Q) : Z :=
  let f := Qfloor x in
  match Qcompare (x - inject_Z f) (1 # 2) with
  | Lt => f
  | Gt => f + 1
  | Eq => if Z.even f then f else f + 1
  end.

(** [draw] stands for the value of
    [truncnorm.rvs(a, b, loc=mean, scale=std_dev)]; it is not looked at when
    [bcet == wcet]. *)
Definition generate_execution_time (bcet wcet : Z) (draw : Q) : Z :=
  if bcet =? wcet then Z.max 1 bcet
  else Z.max 1 (py_round draw).

(** The random source, and the sampler threaded through the number of draws
    made so far: the degenerate branch returns before reaching
    [truncnorm.rvs] and so consumes nothing. *)
Definition RandomSource := nat -> Q.

Definition sample (rvs : RandomSource) (n : nat) (bcet wcet : Z) : Z * nat :=
  if bcet =? wcet then (generate_execution_time bcet wcet 0%Q, n)
  else (generate_execution_time bcet wcet (rvs n), S n).

(** ** class Task *)

Record Task : Type := mkTask {
  task_id : string;
  period : Z;
  deadline : Z;
  priority : Z;
  bcet : Z;
  wcet : Z;
  execution_time : Z;
  release_time : Z;
  remaining_time : Z;
  completion_time : option Z;   (* None is Python's None *)
  response_time : option Z;
  wcrt : Z
}.

Module TaskOps.

(** [Task.__init__]; the second component is the new draw count. *)
Definition init (rvs : RandomSource) (n : nat)
    (task_id : string) (bcet wcet period deadline priority : Z) : Task * nat :=
  let '(c, n') := sample rvs n bcet wcet in
  (mkTask task_id period deadline priority bcet wcet c 0 c None None 0, n').

Definition release_new_job (rvs : RandomSource) (n : nat)
    (self : Task) (current_time : Z) : Task * nat :=
  let '(c, n') := sample rvs n (bcet self) (wcet self) in
  (mkTask (task_id self) (period self) (deadline self) (priority self)
          (bcet self) (wcet self) c current_time c None None (wcrt self), n').

Definition is_ready (self : Task) (current_time : Z) : bool :=
  (release_time self <=? current_time) && (0 <? remaining_time self).

(** [execute]: the updated object and the returned flag. *)
Definition execute (self : Task) (time_units : Z) : Task * bool :=
  let r := Z.max 0 (remaining_time self - time_units) in
  (mkTask (task_id self) (period self) (deadline self) (priority self)
          (bcet self) (wcet self) (execution_time self) (release_time self)
          r (completion_time self) (response_time self) (wcrt self),
   r =? 0).

Definition calculate_response_time (self : Task) (current_time : Z) : Task :=
  let resp := current_time - release_time self in
  mkTask (task_id self) (period self) (deadline self) (priority self)
         (bcet self) (wcet self) (execution_time self) (release_time self)
         (remaining_time self) (Some current_time) (Some resp)
         (Z.max (wcrt self) resp).

End TaskOps.

(** ** load_tasks_from_csv *)

(** One line of the CSV file, by column name. *)
Record Row : Type := mkRow {
  col_Task : string;
  col_BCET : Z;
  col_WCET : Z;
  col_Period : Z;
  col_Deadline : Z;
  col_Priority : Z
}.

(** The loop over [df.iterrows()]: one [Task] per row, appended in order. *)
Fixpoint build_tasks (rvs : RandomSource) (n : nat) (rows : list Row)
    : list Task * nat :=
  match rows with
  | [] => ([], n)
  | row :: rest =>
      let '(task, n1) :=
        TaskOps.init rvs n (col_Task row) (col_BCET row) (col_WCET row)
                     (col_Period row) (col_Deadline row) (col_Priority row) in
      let '(tasks, n2) := build_tasks rvs n1 rest in
      (task :: tasks, n2)
  end.

(** A call either returns or raises.  [ConfigurationError] is the error
    kind of the specification; neither [load_tasks_from_csv] nor
    [Task.__init__] has a [raise] or a test on its arguments, so the model
    of the construction always returns. *)
Inductive Exception : Type := ConfigurationError.

Inductive Outcome (A : Type) : Type :=
| Returned (a : A)
| Raised (e : Exception).
Arguments Returned {A} a.
Arguments Raised {A} e.

Definition load_tasks_from_csv (rvs : RandomSource) (n : nat)
    (rows : list Row) : Outcome (list Task * nat) :=
  Returned (build_tasks rvs n rows).

(** ** The scheduler *)

(** The label logged when the processor is idle (line 139). *)
Definition Idle : string := "Idle".

(** The lines printed while scheduling (lines 120, 129, 135 and 151). *)
Inductive Event : Type :=
| Released (t : Z) (id : string) (c : Z)
| Ran (t : Z) (id : string) (remaining : Z)
| Completed (t : Z) (id : string) (response : option Z)
| Wcrt (id : string) (w : Z).

(** The variables of [rate_monotonic_scheduling], the task objects they
    refer to, the number of draws made and the printed lines. *)
Record State : Type := mkState {
  current_time : Z;
  tasks : list Task;
  active_jobs : list nat;
  job_release_times : gmap string Z;
  schedule_log : list (Z * string);
  draws : nat;
  output : list Event
}.

(** [sorted(active_jobs, key=...)]: Python's sort is stable; with a key, the
    stable sorted list is unique, here built by insertion. *)
Fixpoint insert_by (key : nat -> Z) (x : nat) (l : list nat) : list nat :=
  match l with
  | [] => [x]
  | y :: l' => if key x <=? key y then x :: y :: l' else y :: insert_by key x l'
  end.

Definition sorted (key : nat -> Z) (l : list nat) : list nat :=
  foldr (insert_by key) [] l.

(** [list.remove(x)]: drops the first occurrence. *)
Fixpoint list_remove_first (x : nat) (l : list nat) : list nat :=
  match l with
  | [] => []
  | y :: l' => if decide (x = y) then l' else y :: list_remove_first x l'
  end.

(** [min] of a non-empty list. *)
Definition list_min (x : Z) (l : list Z) : Z := foldr Z.min x l.

(** The key function [lambda t: t.priority], on references. *)
Definition priority_of (ts : list Task) (i : nat) : Z :=
  match ts !! i with
  | Some t => priority t
  | None => 0
  end.

(** The values of the dict, in the map's own order (Python's is insertion
    order; [AdvanceTime] only filters them and takes the minimum). *)
Definition dict_values (m : gmap string Z) : list Z := (map_to_list m).*2.

Definition AdvanceTime (current_time : Z) (tasks : list Task)
    (job_release_times : gmap string Z) (active_jobs : list nat) : Z :=
  match active_jobs with
  | _ :: _ => 1
  | [] =>
      let future_release_times :=
        filter (fun t => current_time < t) (dict_values job_release_times) in
      match future_release_times with
      | x :: l => list_min x l - current_time
      | [] => 1
      end
  end.

(** [{task.task_id: 0 for task in tasks}] *)
Definition initial_release_times (ts : list Task) : gmap string Z :=
  foldr (fun task m => <[task_id task := 0]> m) ∅ ts.

(** Step 1, the body of [for task in tasks] for the task at position [i]
    (lines 116-120).  The two [None] branches are an index out of the store
    and a missing key; [wf_release_one] and [wf_state] below show that
    neither is reached. *)
Definition release_one (rvs : RandomSource) (s : State) (i : nat) : State :=
  match tasks s !! i with
  | None => s
  | Some task =>
      match job_release_times s !! task_id task with
      | None => s
      | Some r =>
          if decide (current_time s = r) then
            let '(task', n') :=
              TaskOps.release_new_job rvs (draws s) task (current_time s) in
            mkState (current_time s)
                    (<[i := task']> (tasks s))
                    (active_jobs s ++ [i])
                    (<[task_id task := r + period task]> (job_release_times s))
                    (schedule_log s)
                    n'
                    (output s ++ [Released (current_time s) (task_id task)
                                           (execution_time task')])
          else s
      end
  end.

Definition release_jobs (rvs : RandomSource) (s : State) : State :=
  fold_left (release_one rvs) (seq 0 (length (tasks s))) s.

(** Steps 2 and 3 (lines 123-139). *)
Definition dispatch (s : State) : State :=
  let jobs := sorted (priority_of (tasks s)) (active_jobs s) in
  match jobs with
  | [] =>
      mkState (current_time s) (tasks s) jobs (job_release_times s)
              (schedule_log s ++ [(current_time s, Idle)])
              (draws s) (output s)
  | current_job :: _ =>
      match tasks s !! current_job with
      | None => s
      | Some job =>
          let '(job1, finished) := TaskOps.execute job 1 in
          let log1 := schedule_log s ++ [(current_time s, task_id job1)] in
          let out1 := output s ++ [Ran (current_time s) (task_id job1)
                                       (remaining_time job1)] in
          if finished then
            let job2 :=
              TaskOps.calculate_response_time job1 (current_time s + 1) in
            mkState (current_time s)
                    (<[current_job := job2]> (tasks s))
                    (list_remove_first current_job jobs)
                    (job_release_times s) log1 (draws s)
                    (out1 ++ [Completed (current_time s + 1) (task_id job2)
                                        (response_time job2)])
          else
            mkState (current_time s)
                    (<[current_job := job1]> (tasks s))
                    jobs (job_release_times s) log1 (draws s) out1
      end
  end.

(** Step 4 (line 146). *)
Definition advance (s : State) : State :=
  mkState (current_time s
           + AdvanceTime (current_time s) (tasks s)
                         (job_release_times s) (active_jobs s))
          (tasks s) (active_jobs s) (job_release_times s)
          (schedule_log s) (draws s) (output s).

(** One pass through the body of the [while]. *)
Definition loop_body (rvs : RandomSource) (s : State) : State :=
  advance (dispatch (release_jobs rvs s)).

(** [while current_time < simulation_time]; [None] when [fuel] passes did
    not reach the exit test. *)
Fixpoint while_loop (rvs : RandomSource) (fuel : nat) (simulation_time : Z)
    (s : State) : option State :=
  if decide (current_time s < simulation_time) then
    match fuel with
    | O => None
    | S fuel' => while_loop rvs fuel' simulation_time (loop_body rvs s)
    end
  else Some s.

Definition initial_state (n : nat) (ts : list Task) : State :=
  mkState 0 ts [] (initial_release_times ts) [] n [].

(** Step 5: the printed WCRT lines. *)
Definition report (s : State) : State :=
  mkState (current_time s) (tasks s) (active_jobs s) (job_release_times s)
          (schedule_log s) (draws s)
          (output s ++ map (fun t => Wcrt (task_id t) (wcrt t)) (tasks s)).

(** [rate_monotonic_scheduling(tasks, simulation_time)].  The clock gains
    at least one per pass, so [simulation_time] passes are enough
    ([scheduling_result]).  The result is the final state: the returned
    list is [schedule_log], and the caller's task objects are [tasks]. *)
Definition rate_monotonic_scheduling (rvs : RandomSource) (n : nat)
    (ts : list Task) (simulation_time : Z) : option State :=
  match while_loop rvs (Z.to_nat simulation_time) simulation_time
                   (initial_state n ts) with
  | Some s => Some (report s)
  | None => None
  end.

(** The mapping task_id -> wcrt read off the tasks after the run. *)
Definition wcrt_map (s : State) : list (string * Z) :=
  map (fun t => (task_id t, wcrt t)) (tasks s).

(** The state after [k] passes, and the clock values at the successive
    loop tests of a run. *)
Fixpoint iterate (rvs : RandomSource) (k : nat) (s : State) : State :=
  match k with
  | O => s
  | S k' => iterate rvs k' (loop_body rvs s)
  end.

Fixpoint clock_trace (rvs : RandomSource) (fuel : nat) (simulation_time : Z)
    (s : State) : list Z :=
  current_time s ::
  if decide (current_time s < simulation_time) then
    match fuel with
    | O => []
    | S fuel' => clock_trace rvs fuel' simulation_time (loop_body rvs s)
    end
  else [].

(** * Vocabulary of the properties *)

(** ** States and runs *)

(** The fields of a task that no method assigns after construction. *)
Definition static (t : Task) : string * Z * Z * Z * Z * Z :=
  (task_id t, period t, deadline t, priority t, bcet t, wcet t).

(** The atomic moves of the scheduler: one turn of the release loop, the
    dispatch with its completion, the time advance.  Every state a run goes
    through is reached from the initial state by such moves
    ([iterate_moves], [release_prefix_moves]). *)
Inductive move (rvs : RandomSource) : State -> State -> Prop :=
| move_release s i : move rvs s (release_one rvs s i)
| move_dispatch s : move rvs s (dispatch s)
| move_advance s : move rvs s (advance s).

(** The state inside the release loop, after its first [j] turns. *)
Definition release_prefix (rvs : RandomSource) (s : State) (j : nat) : State :=
  fold_left (release_one rvs) (seq 0 j) s.

(** The release instants that lie after [t]. *)
Definition future_release (m : gmap string Z) (t v : Z) : Prop :=
  t < v /\ exists k, m !! k = Some v.

(** ** Invariants *)

Definition remaining_nonneg (s : State) : Prop :=
  Forall (fun t => 0 <= remaining_time t) (tasks s).

(** Every reference in [active_jobs] points into the store, and every
    task's [task_id] is a key of [job_release_times]. *)
Definition refs_valid (s : State) : Prop :=
  Forall (fun i => (i < length (tasks s))%nat) (active_jobs s).

Definition keys_present (s : State) : Prop :=
  forall i t, tasks s !! i = Some t -> is_Some (job_release_times s !! task_id t).

Definition wf_state (s : State) : Prop := refs_valid s /\ keys_present s.

(** [j] is the first element of [l] whose key is the smallest. *)
Definition first_min (key : nat -> Z) (l : list nat) (j : nat) : Prop :=
  exists pre post, l = pre ++ j :: post /\
    (forall x, x ∈ pre -> key j < key x) /\
    (forall x, x ∈ post -> key j <= key x).

(** What every move keeps: well-formedness, the static fields of the task
    objects, and that the keys of the dict are task ids. *)
Definition base_inv (ts : list Task) (s : State) : Prop :=
  wf_state s /\
  static <$> tasks s = static <$> ts /\
  forall k v, job_release_times s !! k = Some v -> k ∈ task_id <$> ts.

(** No release instant lies in the past. *)
Definition releases_from (t : Z) (s : State) : Prop :=
  forall k v, job_release_times s !! k = Some v -> t <= v.

(** Some job is active, or some release is due now. *)
Definition work_pending (t : Z) (s : State) : Prop :=
  active_jobs s <> [] \/ exists k, job_release_times s !! k = Some t.

(** The tasks at the first [j] positions are no longer due at [t]. *)
Definition handled (t : Z) (j : nat) (s : State) : Prop :=
  forall i task, (i < j)%nat -> tasks s !! i = Some task ->
    job_release_times s !! task_id task <> Some t.

(** The invariant at the loop test. *)
Definition head_inv (ts : list Task) (s : State) : Prop :=
  base_inv ts s /\
  releases_from (current_time s) s /\
  work_pending (current_time s) s /\
  forall e, e ∈ schedule_log s -> e.2 <> Idle.

(** No task carries a release instant that lies ahead of the clock. *)
Definition released_in_past (s : State) : Prop :=
  Forall (fun t => release_time t <= current_time s) (tasks s).

(** Position by position, the wcrt of [s'] is at least that of [s]. *)
Definition wcrt_grows (s s' : State) : Prop :=
  Forall2 (fun t t' => wcrt t <= wcrt t') (tasks s) (tasks s').

(** [twin W a b]: [b] is the state of a second run, started on the task
    objects the first run left behind, at the point where the first run was
    in state [a].  The scheduler's variables agree; the objects agree on
    their static fields; an active job has the same release instant and the
    same remaining time in both; and the second run's wcrt values are
    already the final values [W] of the first run. *)
Definition twin (W : list Z) (a b : State) : Prop :=
  current_time a = current_time b /\
  active_jobs a = active_jobs b /\
  job_release_times a = job_release_times b /\
  schedule_log a = schedule_log b /\
  draws a = draws b /\
  output a = output b /\
  static <$> tasks a = static <$> tasks b /\
  (forall i ta tb, i ∈ active_jobs a ->
     tasks a !! i = Some ta -> tasks b !! i = Some tb ->
     remaining_time ta = remaining_time tb /\
     release_time ta = release_time tb) /\
  wcrt <$> tasks b = W.

(** The wcrt values of [a] do not exceed [W]. *)
Definition below (W : list Z) (a : State) : Prop :=
  Forall2 (fun t w => wcrt t <= w) (tasks a) W.

(** ** Jobs *)

(** The response times of the completed jobs of task [id], read off the
    printed lines in the specification's sense of a job: a job starts at a
    [Released] line of the task and completes at the first [Completed] line
    of the task that follows, provided the task was not released again in
    between; a finished job cannot complete a second time.  [pending] tells
    whether a job of the task is waiting for its completion. *)
Fixpoint job_responses (id : string) (pending : bool) (out : list Event)
    : list Z :=
  match out with
  | [] => []
  | Released _ id' _ :: out' =>
      job_responses id (if decide (id' = id) then true else pending) out'
  | Completed _ id' (Some r) :: out' =>
      if decide (id' = id) then
        if pending then r :: job_responses id false out'
        else job_responses id false out'
      else job_responses id pending out'
  | _ :: out' => job_responses id pending out'
  end.

(** ** Task-set construction *)

(** The task sets the specification wants refused, in its words: some
    [bcet > wcet], some [period <= 0], a repeated [task_id] or a repeated
    [priority]. *)
Definition rejected_by_spec (rows : list Row) : Prop :=
  (exists r, r ∈ rows /\ col_WCET r < col_BCET r) \/
  (exists r, r ∈ rows /\ col_Period r <= 0) \/
  ~ NoDup (col_Task <$> rows) \/
  ~ NoDup (col_Priority <$> rows).

(** What [Task.__init__] leaves in the object built from a row. *)
Definition built_from (r : Row) (t : Task) : Prop :=
  static t = (col_Task r, col_Period r, col_Deadline r, col_Priority r,
              col_BCET r, col_WCET r) /\
  1 <= execution_time t /\
  remaining_time t = execution_time t /\
  release_time t = 0 /\
  completion_time t = None /\ response_time t = None /\ wcrt t = 0.

(** ** Concrete task sets *)

(** The task set of the two-task scenario: A (period 4, one tick of work,
    priority 1) and B (period 6, two ticks, priority 2); the deadlines play
    no part in the scheduler. *)
Definition scenario_rows (dA dB : Z) : list Row :=
  [mkRow "A" 1 1 4 dA 1; mkRow "B" 2 2 6 dB 2].

Definition scenario_tasks (rvs : RandomSource) (dA dB : Z) : list Task :=
  (build_tasks rvs 0 (scenario_rows dA dB)).1.

(** The one-task scenario: period 10, one tick of work, any name, deadline
    and priority. *)
Definition single_task (rvs : RandomSource) (n : nat) (id : string)
    (d p : Z) : Task :=
  (TaskOps.init rvs n id 1 1 10 d p).1.

(** Two rows with the same name and the same priority, the second with
    period 0. *)
Definition unchecked_rows : list Row :=
  [mkRow "A" 1 1 4 4 1; mkRow "A" 1 1 0 6 1].

(** A (period 6, two ticks, priority 1) and B (period 3, two ticks,
    priority 2): B's first job is still active when B is released again
    at 3. *)
Definition overrun_rows : list Row :=
  [mkRow "A" 2 2 6 6 1; mkRow "B" 2 2 3 3 2].

(** A and B again, with A's execution time drawn in [1, 3]. *)
Definition jitter_rows : list Row :=
  [mkRow "A" 1 3 4 4 1; mkRow "B" 2 2 6 6 2].

(** A single task of period 0. *)
Definition zero_period_rows : list Row := [mkRow "A" 1 1 0 0 1].

(** A random source for task sets that never draw. *)
Definition no_draws : RandomSource := fun _ => 0%Q.

(** * The rest of the program *)

(** The exceptions the remaining functions can raise on their own:
    [reduce] on an empty list, [//] by zero, a dict lookup that misses; and
    whatever the construction of the task set raises. *)
Inductive PyError : Type :=
| TypeError
| ZeroDivisionError
| KeyError
| Uncaught (e : Exception).

Inductive Result (A : Type) : Type :=
| Ok (a : A)
| Err (e : PyError).
Arguments Ok {A} a.
Arguments Err {A} e.

(** ** lcm, lcm_of_list *)

(** [abs(a * b) // math.gcd(a, b)]: [math.gcd] is never negative, and
    [//] by 0 raises. *)
Definition lcm (a b : Z) : Result Z :=
  if Z.gcd a b =? 0 then Err ZeroDivisionError
  else Ok (Z.abs (a * b) / Z.gcd a b).

(** [reduce(lcm, numbers)] once the first element has been taken as the
    accumulator. *)
Fixpoint reduce_lcm (acc : Z) (numbers : list Z) : Result Z :=
  match numbers with
  | [] => Ok acc
  | y :: rest =>
      match lcm acc y with
      | Ok acc' => reduce_lcm acc' rest
      | Err e => Err e
      end
  end.

Definition lcm_of_list (numbers : list Z) : Result Z :=
  match numbers with
  | [] => Err TypeError
  | x :: rest => reduce_lcm x rest
  end.

(** ** plot_gantt_chart *)

(** What is handed to matplotlib: the [barh] calls, in order (row, width,
    left end, and the index given to the colour map), and the arguments of
    [yticks]. *)
Record Bar : Type := mkBar {
  bar_y : nat;
  bar_width : Z;
  bar_left : Z;
  bar_color : nat
}.

Record Chart : Type := mkChart {
  chart_bars : list Bar;
  chart_tick_positions : list nat;
  chart_tick_labels : list string
}.

(** [set([entry[1] for entry in schedule_log])] *)
Definition unique_tasks (log : list (Z * string)) : gset string :=
  list_to_set (log.*2).

(** [sorted] of a set of strings.  Python orders strings by code point,
    which is the order of their UTF-8 bytes, the order of [String.le]. *)
Definition sorted_strings (labels : gset string) : list string :=
  merge_sort String.le (elements labels).

(** The loop [for i, task in enumerate(...)]: [y_pos[task] = i] (the colour
    of the task is taken at the same index [i]). *)
Fixpoint assign_rows (i : nat) (names : list string) (y_pos : gmap string nat)
    : gmap string nat :=
  match names with
  | [] => y_pos
  | task :: rest => assign_rows (S i) rest (<[task := i]> y_pos)
  end.

(** The loop over the log: one [barh] per entry that is not idle. *)
Fixpoint draw_bars (y_pos : gmap string nat) (log : list (Z * string))
    : Result (list Bar) :=
  match log with
  | [] => Ok []
  | (start_time, task) :: rest =>
      if decide (task = Idle) then draw_bars y_pos rest
      else
        match y_pos !! task with
        | None => Err KeyError
        | Some y =>
            match draw_bars y_pos rest with
            | Ok drawn => Ok (mkBar y 1 start_time y :: drawn)
            | Err e => Err e
            end
        end
  end.

Definition plot_gantt_chart (schedule_log : list (Z * string)) : Result Chart :=
  let y_pos := assign_rows 0 (sorted_strings (unique_tasks schedule_log)) ∅ in
  match draw_bars y_pos schedule_log with
  | Ok drawn =>
      Ok (mkChart drawn (seq 0 (size y_pos)) (sorted_strings (dom y_pos)))
  | Err e => Err e
  end.

(** ** The main program *)

(** From the rows of the CSV file to the chart.  The outer [None] is the
    scheduler's fuel, which never runs out. *)
Definition main (rvs : RandomSource) (rows : list Row)
    : option (Result (State * Chart)) :=
  match load_tasks_from_csv rvs 0 rows with
  | Raised e => Some (Err (Uncaught e))
  | Returned (tasks, n) =>
      match lcm_of_list (period <$> tasks) with
      | Err e => Some (Err e)
      | Ok simulation_time =>
          match rate_monotonic_scheduling rvs n tasks simulation_time with
          | None => None
          | Some s =>
              match plot_gantt_chart (schedule_log s) with
              | Ok chart => Some (Ok (s, chart))
              | Err e => Some (Err e)
              end
          end
      end
  end.

(** ** Vocabulary of the further properties *)

(** The period by which the release instant of key [k] moves: that of the
    first task named [k]. *)
Fixpoint key_period (ts : list Task) (k : string) : option Z :=
  match ts with
  | [] => None
  | t :: ts' => if decide (task_id t = k) then Some (period t)
                else key_period ts' k
  end.

(** Every release instant is a multiple of its key's period and at most one
    period ahead of [t]. *)
Definition on_grid (ts : list Task) (t : Z) (s : State) : Prop :=
  forall k v, job_release_times s !! k = Some v ->
    exists p, key_period ts k = Some p /\ (p | v) /\ v <= t + p.

(** The fields of a task object fit together at time [t]. *)
Definition coherent (t : Z) (task : Task) : Prop :=
  1 <= execution_time task /\
  0 <= remaining_time task <= execution_time task /\
  0 <= release_time task <= t /\
  0 <= wcrt task <= t /\
  match completion_time task, response_time task with
  | None, None => True
  | Some c, Some r =>
      r = c - release_time task /\ release_time task < c <= t /\
      remaining_time task = 0 /\ r <= wcrt task
  | _, _ => False
  end.

(** What a printed line may say in a run over positive periods. *)
Definition event_ok (ts : list Task) (e : Event) : Prop :=
  match e with
  | Released t id c => exists p, key_period ts id = Some p /\ (p | t) /\ 0 <= t
  | _ => True
  end.

(** What a printed line may say in a run over freshly built tasks. *)
Definition line_ok (e : Event) : Prop :=
  match e with
  | Released t _ c => 0 <= t /\ 1 <= c
  | Ran t _ remaining => 0 <= t /\ 0 <= remaining
  | Completed t _ response => exists r, response = Some r /\ 1 <= r <= t
  | Wcrt _ w => 0 <= w
  end.

(** The number of zeros in a list. *)
Definition zeros (l : list Z) : nat := length (filter (fun x => x = 0) l).

(** [n] unit ticks of execution. *)
Fixpoint run_ticks (n : nat) (self : Task) : Task :=
  match n with
  | O => self
  | S n' => run_ticks n' (TaskOps.execute self 1).1
  end.

(** The invariant at the loop test, and as it stands between the dispatch
    and the time advance (the completion instant is one tick ahead). *)
Definition records_ok (slack : Z) (s : State) : Prop :=
  0 <= current_time s /\
  Forall (coherent (current_time s + slack)) (tasks s) /\
  Forall line_ok (output s).

(** Every task has [bcet = wcet]. *)
Definition all_degenerate (s : State) : Prop :=
  Forall (fun t => bcet t = wcet t) (tasks s).

(** The invariant of a run over the task set [ts], at the loop test. *)
Definition grid_head (ts : list Task) (s : State) : Prop :=
  0 <= current_time s /\
  static <$> tasks s = static <$> ts /\
  on_grid ts (current_time s) s /\
  releases_from (current_time s) s /\
  Forall (event_ok ts) (output s).

(** The bar drawn for a log entry under a given row assignment. *)
Definition bar_of (y_pos : gmap string nat) (e : Z * string) (b : Bar) : Prop :=
  y_pos !! e.2 = Some (bar_y b) /\ bar_color b = bar_y b /\
  bar_width b = 1 /\ bar_left b = e.1.

(** ** Reading the printed lines, task by task *)

(** The largest of [w] and the response times in the completion lines of
    task [id]. *)
Fixpoint worst_response (id : string) (w : Z) (out : list Event) : Z :=
  match out with
  | [] => w
  | Completed _ id' (Some r) :: out' =>
      worst_response id (if decide (id' = id) then Z.max w r else w) out'
  | _ :: out' => worst_response id w out'
  end.

(** The instant of the last release line of task [id]; [r0] when there is
    none. *)
Fixpoint last_release (id : string) (r0 : Z) (out : list Event) : Z :=
  match out with
  | [] => r0
  | Released t id' _ :: out' =>
      last_release id (if decide (id' = id) then t else r0) out'
  | _ :: out' => last_release id r0 out'
  end.

(** Every completion line of task [id] carries the time elapsed since the
    latest release line of the task before it ([r0] stands for the release
    instant the task object had before the first line). *)
Fixpoint responses_ok (id : string) (r0 : Z) (out : list Event) : Prop :=
  match out with
  | [] => True
  | Released t id' _ :: out' =>
      responses_ok id (if decide (id' = id) then t else r0) out'
  | Completed t id' r :: out' =>
      (id' = id -> r = Some (t - r0)) /\ responses_ok id r0 out'
  | _ :: out' => responses_ok id r0 out'
  end.

Definition is_release_of (id : string) (e : Event) : bool :=
  match e with
  | Released _ id' _ => bool_decide (id' = id)
  | _ => false
  end.

Definition is_completion_of (id : string) (e : Event) : bool :=
  match e with
  | Completed _ id' _ => bool_decide (id' = id)
  | _ => false
  end.

Fixpoint count_lines (f : Event -> bool) (out : list Event) : nat :=
  match out with
  | [] => 0
  | e :: out' => (if f e then 1 else 0) + count_lines f out'
  end.

(** How many times the list of active jobs refers to the task at
    position [i]. *)
Definition count_refs (i : nat) (l : list nat) : nat :=
  length (filter (fun j => j = i) l).

(** What the lines printed so far say about the task at position [i], whose
    object was [t0] at the start of the run and is [t] now. *)
Definition trace_at (t0 t : Task) (i : nat) (out : list Event)
    (active : list nat) : Prop :=
  wcrt t = worst_response (task_id t0) (wcrt t0) out /\
  release_time t = last_release (task_id t0) (release_time t0) out /\
  responses_ok (task_id t0) (release_time t0) out /\
  count_lines (is_release_of (task_id t0)) out
    = (count_lines (is_completion_of (task_id t0)) out + count_refs i active)%nat.

Definition trace_inv (ts : list Task) (s : State) : Prop :=
  static <$> tasks s = static <$> ts /\
  forall i t0 t, ts !! i = Some t0 -> tasks s !! i = Some t ->
    trace_at t0 t i (output s) (active_jobs s).

(** ** Deadlines *)

(** The task with its deadline replaced by [d], and the state whose tasks
    all have their deadline replaced by 0. *)
Definition set_deadline (d : Z) (t : Task) : Task :=
  mkTask (task_id t) (period t) d (priority t) (bcet t) (wcet t)
         (execution_time t) (release_time t) (remaining_time t)
         (completion_time t) (response_time t) (wcrt t).

Definition forget_deadlines (s : State) : State :=
  mkState (current_time s) (set_deadline 0 <$> tasks s) (active_jobs s)
          (job_release_times s) (schedule_log s) (draws s) (output s).

(** ** The run lines and the completion lines *)

(** The (instant, task) pairs of the run lines, in order. *)
Definition ran_entries (out : list Event) : list (Z * string) :=
  omap (fun e => match e with Ran t id _ => Some (t, id) | _ => None end) out.

(** Reading the lines from the first on: [expect] is the completion line
    (instant and task) that has to come next, if any.  A run line with
    remaining time 0 asks for the completion of its task one tick later; a
    completion line comes only when asked for. *)
Fixpoint completions_follow (expect : option (Z * string)) (out : list Event)
    : Prop :=
  match out with
  | [] => expect = None
  | e :: out' =>
      match expect with
      | Some (t, id) =>
          (exists r, e = Completed t id (Some r)) /\
          completions_follow None out'
      | None =>
          match e with
          | Ran t id remaining =>
              completions_follow
                (if decide (remaining = 0) then Some (t + 1, id) else None) out'
          | Completed _ _ _ => False
          | _ => completions_follow None out'
          end
      end
  end.

(** The invariant of the run lines: they are the log without its idle
    entries. *)
Definition ran_inv (ts : list Task) (s : State) : Prop :=
  static <$> tasks s = static <$> ts /\
  ran_entries (output s) = filter (fun e => e.2 <> Idle) (schedule_log s).

(** ** Periodic release *)

(** The instants of the release lines of task [id], in order. *)
Definition release_instants (id : string) (out : list Event) : list Z :=
  omap (fun e => match e with
                 | Released t id' _ => if decide (id' = id) then Some t else None
                 | _ => None
                 end) out.

(** The first [m] multiples of [p]: 0, p, ..., (m - 1) p. *)
Definition multiples (p : Z) (m : nat) : list Z :=
  (fun i => Z.of_nat i * p) <$> seq 0 m.

(** Each task has been released at the multiples of its period that lie
    before its next release instant, and at no other instant. *)
Definition periodic_inv (ts : list Task) (s : State) : Prop :=
  static <$> tasks s = static <$> ts /\
  forall i t0, ts !! i = Some t0 ->
    exists m : nat,
      job_release_times s !! task_id t0 = Some (Z.of_nat m * period t0) /\
      release_instants (task_id t0) (output s) = multiples (period t0) m.

(** A release line stamped before [T]. *)
Definition released_before (T : Z) (e : Event) : Prop :=
  match e with
  | Released t _ _ => t < T
  | _ => True
  end.

(** * Properties *)

(** ** The execution-time sampler *)

Section Sampler.

(** [round(2.5) == 2], [round(3.5) == 4], [round(-0.5) == 0],
    [round(-1.5) == -2], [round(2.6) == 3]. *)
Example py_round_ties :
  py_round (5 # 2) = 2 /\ py_round (7 # 2) = 4 /\ py_round (-1 # 2) = 0 /\
  py_round (-3 # 2) = -2 /\ py_round (26 # 10) = 3.
Proof. repeat split; reflexivity. Qed.

Lemma py_round_above_floor (x : Q) :
  py_round x = Qfloor x + 1 -> (inject_Z (Qfloor x) < x)%Q.
Proof.
  unfold py_round.
  destruct (Qcompare (x - inject_Z (Qfloor x)) (1 # 2)) eqn:E; intros H.
  - apply Qeq_alt in E.
    destruct (Z.even (Qfloor x)); [lia |].
    apply Qlt_minus_iff. rewrite E. reflexivity.
  - lia.
  - apply Qgt_alt in E. apply Qlt_minus_iff.
    eapply Qlt_trans; [| exact E]. reflexivity.
Qed.

Lemma py_round_floor_or_next (x : Q) :
  py_round x = Qfloor x \/ py_round x = Qfloor x + 1.
Proof.
  unfold py_round.
  destruct (Qcompare _ _); [destruct (Z.even _) | |]; auto.
Qed.

(** Rounding stays between two integers that enclose the argument. *)
Lemma py_round_bounds (lo hi : Z) (x : Q) :
  (inject_Z lo <= x)%Q -> (x <= inject_Z hi)%Q -> lo <= py_round x <= hi.
Proof.
  intros Hlo Hhi.
  assert (Hf1 : lo <= Qfloor x).
  { rewrite <- (Qfloor_Z lo). by apply Qfloor_resp_le. }
  assert (Hf2 : Qfloor x <= hi).
  { rewrite <- (Qfloor_Z hi). by apply Qfloor_resp_le. }
  destruct (py_round_floor_or_next x) as [-> | E]; [lia |].
  pose proof (py_round_above_floor x E) as Hlt.
  rewrite E. split; [lia |].
  assert (Hz : (inject_Z (Qfloor x) < inject_Z hi)%Q)
    by (eapply Qlt_le_trans; eauto).
  rewrite <- Zlt_Qlt in Hz. lia.
Qed.

Lemma generate_execution_time_positive (b w : Z) (d : Q) :
  1 <= generate_execution_time b w d.
Proof. unfold generate_execution_time. destruct (b =? w); lia. Qed.

Lemma sample_positive (rvs : RandomSource) (n : nat) (b w : Z) :
  1 <= (sample rvs n b w).1.
Proof.
  unfold sample. destruct (b =? w) eqn:E; simpl.
  - unfold generate_execution_time. rewrite E. lia.
  - apply generate_execution_time_positive.
Qed.

(** The draw a call of the sampler looks at. *)
Lemma sample_value (rvs : RandomSource) (n : nat) (b w : Z) :
  (sample rvs n b w).1 = generate_execution_time b w (rvs n).
Proof.
  unfold sample, generate_execution_time. by destruct (b =? w).
Qed.

Lemma sample_degenerate (rvs : RandomSource) (n : nat) (b : Z) :
  sample rvs n b b = (Z.max 1 b, n).
Proof.
  unfold sample, generate_execution_time. by rewrite Z.eqb_refl.
Qed.

End Sampler.

(** C5, as the code has it.  For integers [0 <= bcet <= wcet]: when
    [bcet = wcet] the sampler returns [max 1 bcet] whatever the random
    source holds and draws nothing; otherwise, for a draw in [bcet, wcet],
    it returns an integer in [max 1 bcet, wcet]; in both cases the value,
    which is the released job's [execution_time], lies in
    [max 1 bcet, max 1 wcet] (the upper end is [wcet] as soon as
    [wcet >= 1]; for [bcet = wcet = 0] the value is 1). *)
Theorem generate_execution_time_range (b w : Z) (d : Q) :
  0 <= b <= w ->
  (b = w ->
     generate_execution_time b w d = Z.max 1 b /\
     (forall d', generate_execution_time b w d' = generate_execution_time b w d) /\
     (forall rvs n, sample rvs n b w = (Z.max 1 b, n))) /\
  (b <> w -> (inject_Z b <= d)%Q -> (d <= inject_Z w)%Q ->
     Z.max 1 b <= generate_execution_time b w d <= w) /\
  (b = w \/ ((inject_Z b <= d)%Q /\ (d <= inject_Z w)%Q) ->
     Z.max 1 b <= generate_execution_time b w d <= Z.max 1 w) /\
  (forall rvs n self t,
     bcet self = b -> wcet self = w -> rvs n = d ->
     execution_time (TaskOps.release_new_job rvs n self t).1
       = generate_execution_time b w d).
Proof.
  intros Hbw. repeat split.
  - unfold generate_execution_time. by rewrite (proj2 (Z.eqb_eq b w) H).
  - unfold generate_execution_time. by rewrite (proj2 (Z.eqb_eq b w) H).
  - subst w. intros. apply sample_degenerate.
  - unfold generate_execution_time.
    rewrite (proj2 (Z.eqb_neq b w) H).
    pose proof (py_round_bounds b w d H0 H1). lia.
  - unfold generate_execution_time.
    rewrite (proj2 (Z.eqb_neq b w) H).
    pose proof (py_round_bounds b w d H0 H1). lia.
  - unfold generate_execution_time. destruct (b =? w) eqn:E; [lia |].
    destruct H as [-> | [H0 H1]]; [by rewrite Z.eqb_refl in E |].
    pose proof (py_round_bounds b w d H0 H1). lia.
  - unfold generate_execution_time. destruct (b =? w) eqn:E.
    + apply Z.eqb_eq in E. lia.
    + destruct H as [-> | [H0 H1]]; [by rewrite Z.eqb_refl in E |].
      pose proof (py_round_bounds b w d H0 H1). lia.
  - intros rvs n self t Hb Hw Hd. unfold TaskOps.release_new_job.
    pose proof (sample_value rvs n (bcet self) (wcet self)) as Hs.
    destruct (sample rvs n (bcet self) (wcet self)) as [c n'].
    simpl in *. by rewrite Hs, Hb, Hw, Hd.
Qed.

Lemma generate_execution_time_range_witness :
  Z.max 1 2 <= generate_execution_time 2 5 (7 # 2) <= 5.
Proof.
  assert (H : 0 <= 2 <= 5) by lia.
  destruct (generate_execution_time_range 2 5 (7 # 2) H) as (_ & Hr & _).
  apply Hr; [lia | by vm_compute | by vm_compute].
Defined.

(** C5 as stated fails for [bcet = wcet = 0]: the value is 1, above
    [wcet]. *)
Lemma generate_execution_time_zero_envelope :
  0 <= 0 <= 0 /\
  ~ (Z.max 1 0 <= generate_execution_time 0 0 0%Q <= 0).
Proof. split; [lia |]. vm_compute. intros [_ H]. by apply H. Qed.

(** ** Frame facts about the four steps *)

Ltac unfold_release :=
  unfold release_one, TaskOps.release_new_job;
  repeat match goal with
  | |- context [match ?x !! ?i with _ => _ end] =>
      let E := fresh "E" in destruct (x !! i) eqn:E; simpl; try done
  | |- context [decide ?P] => destruct (decide P); simpl; try done
  | |- context [sample ?r ?n ?b ?w] =>
      let E := fresh "Es" in destruct (sample r n b w) eqn:E; simpl; try done
  end.

Ltac unfold_dispatch :=
  unfold dispatch, TaskOps.execute, TaskOps.calculate_response_time;
  repeat match goal with
  | |- context [match sorted ?k ?l with _ => _ end] =>
      let E := fresh "Ej" in destruct (sorted k l) eqn:E; simpl; try done
  | |- context [match ?x !! ?i with _ => _ end] =>
      let E := fresh "E" in destruct (x !! i) eqn:E; simpl; try done
  | |- context [if ?b =? ?c then _ else _] =>
      let E := fresh "Ef" in destruct (b =? c) eqn:E; simpl; try done
  end.

Section Frame.

Variable rvs : RandomSource.

(** A property kept by every single release is kept by the release loop. *)
Lemma release_jobs_ind (P : State -> Prop) (s : State) :
  (forall s' i, P s' -> P (release_one rvs s' i)) ->
  P s -> P (release_jobs rvs s).
Proof.
  intros Hstep. unfold release_jobs.
  generalize (seq 0 (length (tasks s))) as l.
  intros l. revert s. induction l as [| i l IH]; simpl; auto.
Qed.

Lemma release_one_time s i : current_time (release_one rvs s i) = current_time s.
Proof. unfold_release. Qed.

Lemma release_one_log s i : schedule_log (release_one rvs s i) = schedule_log s.
Proof. unfold_release. Qed.

Lemma release_one_length s i :
  length (tasks (release_one rvs s i)) = length (tasks s).
Proof. unfold_release. by rewrite length_insert. Qed.

Lemma static_insert (ts : list Task) (i : nat) (t t' : Task) :
  ts !! i = Some t -> static t' = static t ->
  static <$> <[i := t']> ts = static <$> ts.
Proof.
  intros Hi Hs. rewrite list_fmap_insert, Hs.
  apply list_insert_id. by rewrite list_lookup_fmap, Hi.
Qed.

Lemma release_one_static s i :
  static <$> tasks (release_one rvs s i) = static <$> tasks s.
Proof. unfold_release. by eapply static_insert. Qed.

Lemma release_jobs_time s : current_time (release_jobs rvs s) = current_time s.
Proof.
  apply (release_jobs_ind (fun s' => current_time s' = current_time s)); auto.
  intros s' i. by rewrite release_one_time.
Qed.

Lemma release_jobs_log s : schedule_log (release_jobs rvs s) = schedule_log s.
Proof.
  apply (release_jobs_ind (fun s' => schedule_log s' = schedule_log s)); auto.
  intros s' i. by rewrite release_one_log.
Qed.

Lemma release_jobs_static s :
  static <$> tasks (release_jobs rvs s) = static <$> tasks s.
Proof.
  apply (release_jobs_ind (fun s' => static <$> tasks s' = static <$> tasks s));
    auto.
  intros s' i. by rewrite release_one_static.
Qed.

Lemma dispatch_time s : current_time (dispatch s) = current_time s.
Proof. unfold_dispatch. Qed.

Lemma dispatch_release_times s :
  job_release_times (dispatch s) = job_release_times s.
Proof. unfold_dispatch. Qed.

Lemma dispatch_draws s : draws (dispatch s) = draws s.
Proof. unfold_dispatch. Qed.

Lemma dispatch_static s : static <$> tasks (dispatch s) = static <$> tasks s.
Proof. unfold_dispatch; by eapply static_insert. Qed.

Lemma static_length (ts ts' : list Task) :
  static <$> ts' = static <$> ts -> length ts' = length ts.
Proof. intros H. by rewrite <- (length_fmap static ts'), H, length_fmap. Qed.

Lemma static_lookup (ts ts' : list Task) (i : nat) (t' : Task) :
  static <$> ts' = static <$> ts -> ts' !! i = Some t' ->
  exists t, ts !! i = Some t /\ static t = static t'.
Proof.
  intros H Hi.
  assert (Hl : (static <$> ts) !! i = Some (static t'))
    by (by rewrite <- H, list_lookup_fmap, Hi).
  rewrite list_lookup_fmap in Hl.
  destruct (ts !! i) as [t |]; simpl in Hl; [| done].
  exists t. split; [done | congruence].
Qed.

Lemma loop_body_static s :
  static <$> tasks (loop_body rvs s) = static <$> tasks s.
Proof.
  unfold loop_body, advance. simpl.
  by rewrite dispatch_static, release_jobs_static.
Qed.

End Frame.

(** ** The time advance and termination *)

Section Advance.

Lemma list_min_le_head (x : Z) (l : list Z) : list_min x l <= x.
Proof. unfold list_min. induction l as [| y l IH]; simpl; lia. Qed.

Lemma list_min_lower (x : Z) (l : list Z) (y : Z) :
  y ∈ x :: l -> list_min x l <= y.
Proof.
  intros Hy. apply elem_of_cons in Hy as [-> | Hy].
  - apply list_min_le_head.
  - unfold list_min.
    induction l as [| z l IH]; [by apply elem_of_nil in Hy |].
    apply elem_of_cons in Hy as [-> | Hy]; simpl; [lia |].
    specialize (IH Hy). lia.
Qed.

Lemma list_min_elem (x : Z) (l : list Z) : list_min x l ∈ x :: l.
Proof.
  unfold list_min.
  induction l as [| y l IH]; simpl; [apply elem_of_cons; auto |].
  destruct (Z.min_spec y (foldr Z.min x l)) as [[_ ->] | [_ ->]].
  - apply elem_of_cons. right. apply elem_of_cons. auto.
  - apply elem_of_cons in IH as [E | IH].
    + apply elem_of_cons. left. exact E.
    + apply elem_of_cons. right. apply elem_of_cons. auto.
Qed.

Lemma elem_of_dict_values (m : gmap string Z) (v : Z) :
  v ∈ dict_values m <-> exists k, m !! k = Some v.
Proof.
  unfold dict_values. rewrite list_elem_of_fmap. split.
  - intros [[k v'] [-> H]]. exists k. by apply elem_of_map_to_list.
  - intros [k H]. exists (k, v). split; [done |].
    by apply elem_of_map_to_list.
Qed.

Lemma elem_of_future (m : gmap string Z) (t v : Z) :
  v ∈ filter (fun r => t < r) (dict_values m) <-> future_release m t v.
Proof.
  rewrite list_elem_of_filter, elem_of_dict_values. reflexivity.
Qed.

Lemma AdvanceTime_active t ts m i l : AdvanceTime t ts m (i :: l) = 1.
Proof. reflexivity. Qed.

Lemma AdvanceTime_no_future t ts m :
  (forall v, ~ future_release m t v) -> AdvanceTime t ts m [] = 1.
Proof.
  intros H. unfold AdvanceTime.
  destruct (filter _ _) as [| x l] eqn:E; [done |].
  exfalso. apply (H x). apply elem_of_future. rewrite E.
  apply elem_of_cons; auto.
Qed.

Lemma AdvanceTime_future t ts m v :
  future_release m t v ->
  exists r, AdvanceTime t ts m [] = r - t /\ future_release m t r /\
            forall v', future_release m t v' -> r <= v'.
Proof.
  intros Hv. unfold AdvanceTime.
  destruct (filter _ _) as [| x l] eqn:E.
  - apply elem_of_future in Hv. rewrite E in Hv. by apply elem_of_nil in Hv.
  - exists (list_min x l). split; [done |]. split.
    + apply elem_of_future. rewrite E. apply list_min_elem.
    + intros v' Hv'. apply list_min_lower. rewrite <- E.
      by apply elem_of_future.
Qed.

Lemma AdvanceTime_positive t ts m a : 1 <= AdvanceTime t ts m a.
Proof.
  destruct a as [| i l]; [| by rewrite AdvanceTime_active].
  destruct (filter (fun r => t < r) (dict_values m)) as [| x l] eqn:E.
  - unfold AdvanceTime. by rewrite E.
  - assert (Hx : future_release m t x).
    { apply elem_of_future. rewrite E. apply elem_of_cons; auto. }
    destruct (AdvanceTime_future t ts m x Hx) as (r & -> & [Hr _] & _). lia.
Qed.

Variable rvs : RandomSource.

Lemma loop_body_time s :
  current_time (loop_body rvs s)
  = current_time s
    + AdvanceTime (current_time s) (tasks (dispatch (release_jobs rvs s)))
                  (job_release_times (dispatch (release_jobs rvs s)))
                  (active_jobs (dispatch (release_jobs rvs s))).
Proof.
  unfold loop_body, advance. simpl.
  by rewrite dispatch_time, release_jobs_time.
Qed.

Lemma loop_body_progress s : current_time s + 1 <= current_time (loop_body rvs s).
Proof.
  rewrite loop_body_time.
  pose proof (AdvanceTime_positive (current_time s)
    (tasks (dispatch (release_jobs rvs s)))
    (job_release_times (dispatch (release_jobs rvs s)))
    (active_jobs (dispatch (release_jobs rvs s)))). lia.
Qed.

Lemma iterate_succ k s : iterate rvs (S k) s = loop_body rvs (iterate rvs k s).
Proof. revert s. induction k as [| k IH]; intros s; [done |]. apply (IH (loop_body rvs s)). Qed.

Lemma iterate_time_mono k s : current_time s + Z.of_nat k <= current_time (iterate rvs k s).
Proof.
  induction k as [| k IH]; [simpl; lia |].
  rewrite iterate_succ.
  pose proof (loop_body_progress (iterate rvs k s)). lia.
Qed.

(** With as much fuel as the clock is short of the horizon, the loop
    reaches its exit test; it leaves after [k] passes, the first count at
    which the clock is no longer below [simulation_time]. *)
Lemma while_loop_exit fuel T s :
  T - current_time s <= Z.of_nat fuel ->
  exists k, (k <= fuel)%nat /\
    while_loop rvs fuel T s = Some (iterate rvs k s) /\
    T <= current_time (iterate rvs k s) /\
    forall j, (j < k)%nat -> current_time (iterate rvs j s) < T.
Proof.
  revert s. induction fuel as [| fuel IH]; intros s Hf.
  - exists 0%nat. simpl. destruct (decide _); [lia |].
    repeat split; [lia | lia | intros; lia].
  - simpl. destruct (decide (current_time s < T)) as [Hlt | Hge].
    + pose proof (loop_body_progress s).
      destruct (IH (loop_body rvs s)) as (k & Hk & Hw & Hend & Hbefore); [lia |].
      exists (S k). simpl. repeat split; [lia | done | done |].
      intros [| j] Hj; simpl; [done |]. apply Hbefore. lia.
    + exists 0%nat. simpl. repeat split; [lia | lia | intros; lia].
Qed.

(** The run returns the state after some number of passes, the first at
    which the clock has reached the horizon. *)
Lemma scheduling_result n ts T :
  exists k,
    rate_monotonic_scheduling rvs n ts T
      = Some (report (iterate rvs k (initial_state n ts))) /\
    T <= current_time (iterate rvs k (initial_state n ts)) /\
    forall j, (j < k)%nat -> current_time (iterate rvs j (initial_state n ts)) < T.
Proof.
  destruct (while_loop_exit (Z.to_nat T) T (initial_state n ts))
    as (k & _ & Hw & Hend & Hbefore).
  { simpl. lia. }
  exists k. unfold rate_monotonic_scheduling. rewrite Hw. auto.
Qed.

End Advance.

(** C9.  For every task set and horizon the loop terminates: the run
    returns the state reached after [k] passes, where [k] is the first count
    at which [current_time >= simulation_time] (every earlier test found the
    clock below the horizon, and nothing else ends the loop).  Each pass adds
    [AdvanceTime ...] to the clock, which is at least 1: it is 1 when
    [active_jobs] is non-empty, it is [min(future releases) - current_time],
    a positive number, when [active_jobs] is empty and some release lies in
    the future, and 1 otherwise. *)
Theorem scheduler_terminates (rvs : RandomSource) (n : nat) (ts : list Task)
    (simulation_time : Z) :
  (exists k s,
      while_loop rvs (Z.to_nat simulation_time) simulation_time
                 (initial_state n ts) = Some s /\
      rate_monotonic_scheduling rvs n ts simulation_time = Some (report s) /\
      s = iterate rvs k (initial_state n ts) /\
      simulation_time <= current_time s /\
      forall j, (j < k)%nat ->
        current_time (iterate rvs j (initial_state n ts)) < simulation_time) /\
  (forall s,
      let s' := dispatch (release_jobs rvs s) in
      let step := AdvanceTime (current_time s) (tasks s')
                              (job_release_times s') (active_jobs s') in
      current_time (loop_body rvs s) = current_time s + step /\ 1 <= step) /\
  (forall t tasks' m a,
      (a <> [] -> AdvanceTime t tasks' m a = 1) /\
      (a = [] -> forall v, future_release m t v ->
         exists r, AdvanceTime t tasks' m a = r - t /\ 0 < r - t /\
                   future_release m t r /\
                   forall v', future_release m t v' -> r <= v') /\
      (a = [] -> (forall v, ~ future_release m t v) ->
         AdvanceTime t tasks' m a = 1)).
Proof.
  split; [| split].
  - destruct (while_loop_exit rvs (Z.to_nat simulation_time) simulation_time
                (initial_state n ts)) as (k & _ & Hw & Hend & Hbefore).
    { simpl. lia. }
    exists k, (iterate rvs k (initial_state n ts)).
    unfold rate_monotonic_scheduling. rewrite Hw. auto.
  - intros s. simpl. split; [apply loop_body_time | apply AdvanceTime_positive].
  - intros t tasks' m a. repeat split.
    + destruct a; [done | intros _; apply AdvanceTime_active].
    + intros -> v Hv.
      destruct (AdvanceTime_future t tasks' m v Hv) as (r & Hr & Hfut & Hmin).
      exists r. destruct Hfut as [Hlt Hk].
      repeat split; [done | lia | done | done | done].
    + intros ->. apply AdvanceTime_no_future.
Qed.

(** ** States of a run *)

Section Moves.

Variable rvs : RandomSource.

Lemma release_prefix_succ s j :
  release_prefix rvs s (S j) = release_one rvs (release_prefix rvs s j) j.
Proof.
  unfold release_prefix. by rewrite seq_S, fold_left_app.
Qed.

Lemma release_prefix_time s j :
  current_time (release_prefix rvs s j) = current_time s.
Proof.
  induction j as [| j IH]; [done |].
  by rewrite release_prefix_succ, release_one_time.
Qed.

Lemma release_prefix_moves s j : rtc (move rvs) s (release_prefix rvs s j).
Proof.
  induction j as [| j IH]; [apply rtc_refl |].
  rewrite release_prefix_succ. eapply rtc_r; [exact IH | constructor].
Qed.

Lemma release_jobs_moves s : rtc (move rvs) s (release_jobs rvs s).
Proof. apply release_prefix_moves. Qed.

Lemma loop_body_moves s : rtc (move rvs) s (loop_body rvs s).
Proof.
  unfold loop_body.
  eapply rtc_r; [| apply move_advance].
  eapply rtc_r; [| apply move_dispatch].
  apply release_jobs_moves.
Qed.

Lemma iterate_moves k s : rtc (move rvs) s (iterate rvs k s).
Proof.
  induction k as [| k IH]; [apply rtc_refl |].
  rewrite iterate_succ. eapply rtc_trans; [exact IH |].
  apply loop_body_moves.
Qed.

(** A property kept by the three moves holds all along a run. *)
Lemma moves_invariant (P : State -> Prop) :
  (forall s i, P s -> P (release_one rvs s i)) ->
  (forall s, P s -> P (dispatch s)) ->
  (forall s, P s -> P (advance s)) ->
  forall s s', rtc (move rvs) s s' -> P s -> P s'.
Proof.
  intros Hr Hd Ha s s' Hrun. induction Hrun as [| s1 s2 s3 Hm _ IH]; [done |].
  intros HP. apply IH. destruct Hm; auto.
Qed.

End Moves.

(** ** remaining_time *)

Section Remaining.

Variable rvs : RandomSource.

Lemma execute_remaining (self : Task) (units : Z) :
  remaining_time (TaskOps.execute self units).1
  = Z.max 0 (remaining_time self - units).
Proof. reflexivity. Qed.

Lemma execute_finished (self : Task) (units : Z) :
  (TaskOps.execute self units).2 = true
  <-> remaining_time (TaskOps.execute self units).1 = 0.
Proof. simpl. apply Z.eqb_eq. Qed.

Lemma release_one_remaining s i :
  remaining_nonneg s -> remaining_nonneg (release_one rvs s i).
Proof.
  unfold remaining_nonneg. unfold_release. intros H.
  apply Forall_insert; [done |]. simpl.
  pose proof (sample_positive rvs (draws s) (bcet t) (wcet t)) as Hp.
  rewrite Es in Hp. simpl in Hp. lia.
Qed.

Lemma dispatch_remaining s : remaining_nonneg s -> remaining_nonneg (dispatch s).
Proof.
  unfold remaining_nonneg. unfold_dispatch; intros H;
    (apply Forall_insert; [done | simpl; lia]).
Qed.

Lemma build_tasks_remaining n rows :
  Forall (fun t => 0 <= remaining_time t) (build_tasks rvs n rows).1.
Proof.
  revert n. induction rows as [| row rows IH]; intros n; simpl; [constructor |].
  unfold TaskOps.init.
  pose proof (sample_positive rvs n (col_BCET row) (col_WCET row)) as Hp.
  destruct (sample rvs n (col_BCET row) (col_WCET row)) as [c n1].
  specialize (IH n1). destruct (build_tasks rvs n1 rows) as [ts n2].
  simpl in *. constructor; [simpl; lia | done].
Qed.

Lemma run_remaining s s' :
  rtc (move rvs) s s' -> remaining_nonneg s -> remaining_nonneg s'.
Proof.
  apply moves_invariant; auto using release_one_remaining, dispatch_remaining.
Qed.

End Remaining.

(** C6.  Start a run on the tasks built from any rows.  In every state the
    run goes through, every task has [remaining_time >= 0]: in any state
    reached by the scheduler's moves, hence at the loop test after any
    number of passes, inside the release loop, and after the dispatch of the
    next pass.  And [execute(units)] sets [remaining_time] to
    [max 0 (remaining_time - units)] and returns true exactly when the new
    value is 0 (for every [units], in particular [units >= 0]). *)
Theorem remaining_time_never_negative (rvs : RandomSource) (n : nat)
    (rows : list Row) :
  let s0 := initial_state (build_tasks rvs n rows).2 (build_tasks rvs n rows).1 in
  (forall s, rtc (move rvs) s0 s -> remaining_nonneg s) /\
  (forall k j,
      let s := iterate rvs k s0 in
      remaining_nonneg s /\
      remaining_nonneg (release_prefix rvs s j) /\
      remaining_nonneg (release_jobs rvs s) /\
      remaining_nonneg (dispatch (release_jobs rvs s)) /\
      remaining_nonneg (loop_body rvs s)) /\
  (forall self units,
      remaining_time (TaskOps.execute self units).1
        = Z.max 0 (remaining_time self - units) /\
      0 <= remaining_time (TaskOps.execute self units).1 /\
      ((TaskOps.execute self units).2 = true
        <-> remaining_time (TaskOps.execute self units).1 = 0)).
Proof.
  intros s0.
  assert (H0 : remaining_nonneg s0) by apply build_tasks_remaining.
  assert (Hall : forall s, rtc (move rvs) s0 s -> remaining_nonneg s).
  { intros s Hs. by eapply run_remaining. }
  split; [exact Hall |]. split.
  - intros k j s.
    assert (Hs : rtc (move rvs) s0 s) by apply iterate_moves.
    repeat split; apply Hall.
    + done.
    + eapply rtc_trans; [exact Hs | apply release_prefix_moves].
    + eapply rtc_trans; [exact Hs | apply release_jobs_moves].
    + eapply rtc_r; [| apply move_dispatch].
      eapply rtc_trans; [exact Hs | apply release_jobs_moves].
    + eapply rtc_trans; [exact Hs | apply loop_body_moves].
  - intros self units. split; [apply execute_remaining |]. split.
    + rewrite execute_remaining. lia.
    + apply execute_finished.
Qed.

(** ** The stable sort and the dispatch choice *)

Section Sorting.

Variable key : nat -> Z.

Lemma insert_by_perm (x : nat) (l : list nat) : insert_by key x l ≡ₚ x :: l.
Proof.
  induction l as [| y l IH]; simpl; [done |].
  destruct (key x <=? key y); [done |].
  rewrite IH. apply Permutation_swap.
Qed.

Lemma sorted_perm (l : list nat) : sorted key l ≡ₚ l.
Proof.
  induction l as [| x l IH]; simpl; [done |].
  unfold sorted in *. simpl. rewrite insert_by_perm. by f_equiv.
Qed.

Lemma sorted_nil_inv (l : list nat) : sorted key l = [] -> l = [].
Proof.
  intros H. apply Permutation_nil_r. rewrite <- H. symmetry. apply sorted_perm.
Qed.

Lemma insert_by_ordered (x : nat) (l : list nat) :
  StronglySorted (fun a b => key a <= key b) l ->
  StronglySorted (fun a b => key a <= key b) (insert_by key x l).
Proof.
  induction 1 as [| y l Hs IH Hy]; simpl.
  - repeat constructor.
  - destruct (key x <=? key y) eqn:E.
    + apply Z.leb_le in E. constructor; [by constructor |].
      constructor; [done |].
      eapply Forall_impl; [exact Hy |]. simpl. intros; lia.
    + apply Z.leb_gt in E. constructor; [done |].
      rewrite insert_by_perm. constructor; [lia | done].
Qed.

Lemma sorted_ordered (l : list nat) :
  StronglySorted (fun a b => key a <= key b) (sorted key l).
Proof.
  induction l as [| x l IH]; [constructor |].
  unfold sorted in *. simpl. by apply insert_by_ordered.
Qed.

(** Stability: elements with the same key keep their order. *)
Lemma insert_by_stable (v : Z) (x : nat) (l : list nat) :
  StronglySorted (fun a b => key a <= key b) l ->
  filter (fun i => key i = v) (insert_by key x l)
  = filter (fun i => key i = v) (x :: l).
Proof.
  induction 1 as [| y l Hs IH Hy]; simpl; [done |].
  destruct (key x <=? key y) eqn:E; [done |].
  apply Z.leb_gt in E.
  rewrite !filter_cons. rewrite filter_cons in IH.
  destruct (decide (key y = v)) as [Hyv | Hyv].
  - destruct (decide (key x = v)) as [Hxv | Hxv]; [lia |].
    rewrite IH. done.
  - rewrite IH. done.
Qed.

Lemma sorted_stable (v : Z) (l : list nat) :
  filter (fun i => key i = v) (sorted key l) = filter (fun i => key i = v) l.
Proof.
  induction l as [| x l IH]; [done |].
  unfold sorted in *. simpl. rewrite insert_by_stable by apply sorted_ordered.
  rewrite !filter_cons. by rewrite IH.
Qed.

Lemma first_min_least (l : list nat) (j : nat) :
  first_min key l j -> j ∈ l /\ forall x, x ∈ l -> key j <= key x.
Proof.
  intros (pre & post & -> & Hpre & Hpost). split.
  - apply elem_of_app. right. apply elem_of_cons. auto.
  - intros x Hx. apply elem_of_app in Hx as [Hx | Hx].
    + specialize (Hpre x Hx). lia.
    + apply elem_of_cons in Hx as [-> | Hx]; [lia | auto].
Qed.

Lemma sorted_head_first_min (l : list nat) (j : nat) (rest : list nat) :
  sorted key l = j :: rest -> first_min key l j.
Proof.
  revert j rest. induction l as [| x l IH]; intros j rest H; [done |].
  unfold sorted in *. simpl in H.
  destruct (foldr (insert_by key) [] l) as [| y sl] eqn:E; simpl in H.
  - apply sorted_nil_inv in E as ->. injection H as <- <-.
    exists [], []. split; [done |].
    split; intros z Hz; by apply elem_of_nil in Hz.
  - specialize (IH y sl eq_refl).
    destruct (key x <=? key y) eqn:Ek.
    + apply Z.leb_le in Ek. injection H as <- <-.
      exists [], l. split; [done |]. split.
      * intros z Hz. by apply elem_of_nil in Hz.
      * intros z Hz. destruct (first_min_least l y IH) as [_ Hmin].
        specialize (Hmin z Hz). lia.
    + apply Z.leb_gt in Ek. injection H as <- <-.
      destruct IH as (pre & post & -> & Hpre & Hpost).
      exists (x :: pre), post. split; [done |]. split; [| done].
      intros z Hz. apply elem_of_cons in Hz as [-> | Hz]; auto.
Qed.

(** The selection is a function of the list and the keys alone. *)
Lemma first_min_unique (l : list nat) (j j' : nat) :
  first_min key l j -> first_min key l j' -> j = j'.
Proof.
  intros (pre & post & -> & Hpre & Hpost) (pre' & post' & E & Hpre' & Hpost').
  revert pre' E Hpre'. induction pre as [| a pre IH]; intros pre' E Hpre'.
  - destruct pre' as [| b pre']; simpl in E; [congruence |].
    injection E as <- E.
    assert (Hj : j' ∈ pre' ++ j' :: post')
      by (apply elem_of_app; right; apply elem_of_cons; auto).
    rewrite <- E in Hj. specialize (Hpost j' Hj).
    specialize (Hpre' j (ltac:(apply elem_of_cons; auto))). lia.
  - destruct pre' as [| b pre']; simpl in E.
    + injection E as -> E.
      assert (Hj : j ∈ pre ++ j :: post)
        by (apply elem_of_app; right; apply elem_of_cons; auto).
      rewrite E in Hj. specialize (Hpost' j Hj).
      specialize (Hpre j' (ltac:(apply elem_of_cons; auto))). lia.
    + injection E as <- E. apply (IH (fun x Hx => Hpre x (ltac:(apply elem_of_cons; auto))) pre' E).
      intros x Hx. apply Hpre'. apply elem_of_cons. auto.
Qed.

End Sorting.

(** ** Well-formed states: the two dead branches of the model *)

Section WellFormed.

Variable rvs : RandomSource.

Lemma initial_release_times_lookup (ts : list Task) (k : string) :
  initial_release_times ts !! k
  = if decide (k ∈ task_id <$> ts) then Some 0 else None.
Proof.
  induction ts as [| t ts IH]; simpl.
  - by rewrite lookup_empty.
  - rewrite lookup_insert. destruct (decide (task_id t = k)) as [<- | Hne].
    + rewrite decide_True; [done | apply elem_of_cons; auto].
    + rewrite IH. destruct (decide (k ∈ task_id <$> ts)) as [Hin | Hnin].
      * rewrite decide_True; [done | apply elem_of_cons; auto].
      * rewrite decide_False; [done |].
        intros H. apply elem_of_cons in H as [-> | H]; done.
Qed.

Lemma wf_initial n ts : wf_state (initial_state n ts).
Proof.
  split; [constructor |].
  intros i t Hi. simpl in *. rewrite initial_release_times_lookup.
  rewrite decide_True; [eauto |].
  apply list_elem_of_fmap. exists t. split; [done |].
  apply list_elem_of_lookup. eauto.
Qed.

Lemma wf_release_one s i : wf_state s -> wf_state (release_one rvs s i).
Proof.
  intros H. unfold_release. destruct H as [Hr Hk].
  split; unfold refs_valid, keys_present in *; simpl.
  - setoid_rewrite length_insert. apply Forall_app. split; [done |].
    repeat constructor. by eapply lookup_lt_Some.
  - intros j t' Hj. apply list_lookup_insert_Some in Hj.
    destruct Hj as [(-> & <- & _) | [_ Hj]]; simpl.
    + rewrite lookup_insert_eq. eauto.
    + rewrite lookup_insert. destruct (decide _); eauto.
Qed.

Lemma wf_dispatch s : wf_state s -> wf_state (dispatch s).
Proof.
  intros H.
  pose proof (sorted_perm (priority_of (tasks s)) (active_jobs s)) as Hp.
  assert (Hs : Forall (fun i => (i < length (tasks s))%nat)
                      (sorted (priority_of (tasks s)) (active_jobs s)))
    by (rewrite Hp; apply H).
  unfold_dispatch; destruct H as [Hr Hk];
    split; unfold refs_valid, keys_present in *; simpl;
    try setoid_rewrite length_insert.
  - constructor.
  - done.
  - apply Forall_forall. intros x Hx.
    rewrite decide_True in Hx by done.
    apply (proj1 (Forall_forall _ _) Hs). apply elem_of_cons. by right.
  - intros j t' Hj. apply list_lookup_insert_Some in Hj.
    destruct Hj as [(-> & <- & _) | [_ Hj]]; simpl; eauto.
  - done.
  - intros j t' Hj. apply list_lookup_insert_Some in Hj.
    destruct Hj as [(-> & <- & _) | [_ Hj]]; simpl; eauto.
Qed.

Lemma wf_run s s' : rtc (move rvs) s s' -> wf_state s -> wf_state s'.
Proof.
  apply moves_invariant; auto using wf_release_one, wf_dispatch.
Qed.

Lemma wf_release_jobs s : wf_state s -> wf_state (release_jobs rvs s).
Proof. apply wf_run, release_jobs_moves. Qed.

Lemma wf_iterate k n ts : wf_state (iterate rvs k (initial_state n ts)).
Proof. eapply wf_run; [apply iterate_moves | apply wf_initial]. Qed.

(** The dispatch on a well-formed state with a job to run. *)
Lemma dispatch_runs s :
  wf_state s -> active_jobs s <> [] ->
  exists j rest job,
    sorted (priority_of (tasks s)) (active_jobs s) = j :: rest /\
    first_min (priority_of (tasks s)) (active_jobs s) j /\
    tasks s !! j = Some job /\
    schedule_log (dispatch s)
      = schedule_log s ++ [(current_time s, task_id job)] /\
    tasks (dispatch s)
      = <[j := if (TaskOps.execute job 1).2
               then TaskOps.calculate_response_time
                      (TaskOps.execute job 1).1 (current_time s + 1)
               else (TaskOps.execute job 1).1]> (tasks s) /\
    active_jobs (dispatch s)
      = if (TaskOps.execute job 1).2 then rest else j :: rest.
Proof.
  intros [Hr _] Hne.
  destruct (sorted (priority_of (tasks s)) (active_jobs s)) as [| j rest] eqn:Ej.
  { by apply sorted_nil_inv in Ej. }
  pose proof (sorted_head_first_min _ _ _ _ Ej) as Hfm.
  destruct (first_min_least _ _ _ Hfm) as [Hin _].
  assert (Hlt : (j < length (tasks s))%nat)
    by (by apply (proj1 (Forall_forall _ _) Hr)).
  destruct (lookup_lt_is_Some_2 _ _ Hlt) as [job Hjob].
  exists j, rest, job. repeat split; try done.
  - unfold dispatch. rewrite Ej, Hjob. simpl.
    by destruct (Z.max 0 (remaining_time job - 1) =? 0).
  - unfold dispatch. rewrite Ej, Hjob. simpl.
    by destruct (Z.max 0 (remaining_time job - 1) =? 0).
  - unfold dispatch. rewrite Ej, Hjob. simpl.
    destruct (Z.max 0 (remaining_time job - 1) =? 0); simpl; [| done].
    by rewrite decide_True.
Qed.

End WellFormed.

(** C2.  Take the state of any run at the dispatch step of any pass (after
    [k] full passes and the release step).  If [active_jobs] is not empty,
    the task [j] that is executed for one tick and logged as
    [(current_time, task_id)] is an active job whose priority is the
    smallest among the active jobs; among the active jobs of that smallest
    priority it is the one that comes first in [active_jobs] (the order in
    which jobs were appended, kept by the stable sort), and this determines
    [j] uniquely. *)
Theorem dispatch_selects_smallest_priority (rvs : RandomSource) (n : nat)
    (ts : list Task) (k : nat) :
  let s := release_jobs rvs (iterate rvs k (initial_state n ts)) in
  active_jobs s <> [] ->
  exists j job,
    j ∈ active_jobs s /\
    tasks s !! j = Some job /\
    (forall x job', x ∈ active_jobs s -> tasks s !! x = Some job' ->
       priority job <= priority job') /\
    first_min (priority_of (tasks s)) (active_jobs s) j /\
    (forall j', first_min (priority_of (tasks s)) (active_jobs s) j' -> j' = j) /\
    schedule_log (dispatch s)
      = schedule_log s ++ [(current_time s, task_id job)] /\
    tasks (dispatch s)
      = <[j := if (TaskOps.execute job 1).2
               then TaskOps.calculate_response_time
                      (TaskOps.execute job 1).1 (current_time s + 1)
               else (TaskOps.execute job 1).1]> (tasks s).
Proof.
  intros s Hne.
  assert (Hwf : wf_state s) by apply wf_release_jobs, wf_iterate.
  destruct (dispatch_runs s Hwf Hne) as (j & rest & job & _ & Hfm & Hjob & Hlog & Hts & _).
  destruct (first_min_least _ _ _ Hfm) as [Hin Hmin].
  exists j, job. repeat split; try done.
  - intros x job' Hx Hjob'. specialize (Hmin x Hx).
    unfold priority_of in Hmin. by rewrite Hjob, Hjob' in Hmin.
  - intros j' Hj'. by eapply first_min_unique.
Qed.

Lemma dispatch_selects_smallest_priority_witness :
  exists j job,
    j ∈ active_jobs (release_jobs no_draws
                       (initial_state 0 (scenario_tasks no_draws 4 6))) /\
    tasks (release_jobs no_draws
             (initial_state 0 (scenario_tasks no_draws 4 6))) !! j = Some job /\
    schedule_log (dispatch (release_jobs no_draws
                    (initial_state 0 (scenario_tasks no_draws 4 6))))
      = [(0, task_id job)].
Proof.
  assert (Hne : active_jobs (release_jobs no_draws
                  (iterate no_draws 0
                     (initial_state 0 (scenario_tasks no_draws 4 6)))) <> [])
    by (vm_compute; discriminate).
  destruct (dispatch_selects_smallest_priority no_draws 0
              (scenario_tasks no_draws 4 6) 0 Hne)
    as (j & job & Hin & Hjob & _ & _ & _ & Hlog & _).
  exists j, job. auto.
Defined.

(** ** Positive periods: no idle tick *)

Section IdleFree.

Variable rvs : RandomSource.
Variable ts : list Task.
Hypothesis ts_nonempty : ts <> [].
Hypothesis periods_positive : Forall (fun t => 0 < period t) ts.
Hypothesis ids_not_idle : Forall (fun t => task_id t <> Idle) ts.

Lemma base_inv_task s i t :
  base_inv ts s -> tasks s !! i = Some t ->
  0 < period t /\ task_id t <> Idle /\ task_id t ∈ task_id <$> ts.
Proof.
  intros (_ & Hst & _) Hi.
  destruct (static_lookup ts (tasks s) i t Hst Hi) as (t0 & Hi0 & Heq).
  assert (Hin : t0 ∈ ts) by (apply list_elem_of_lookup; eauto).
  unfold static in Heq.
  assert (Hid : task_id t0 = task_id t) by congruence.
  assert (Hp : period t0 = period t) by congruence.
  rewrite <- Hid, <- Hp. repeat split.
  - by apply (proj1 (Forall_forall _ _) periods_positive).
  - by apply (proj1 (Forall_forall _ _) ids_not_idle).
  - by apply list_elem_of_fmap_2.
Qed.

Lemma base_inv_initial n : base_inv ts (initial_state n ts).
Proof.
  split; [apply wf_initial |]. split; [done |].
  intros k v. simpl. rewrite initial_release_times_lookup.
  by destruct (decide (k ∈ task_id <$> ts)).
Qed.

Lemma release_one_keys s i k v :
  job_release_times (release_one rvs s i) !! k = Some v ->
  job_release_times s !! k = Some v \/
  exists t, tasks s !! i = Some t /\ task_id t = k.
Proof.
  unfold release_one.
  destruct (tasks s !! i) as [t |]; [| auto].
  destruct (job_release_times s !! task_id t) as [r |]; [| auto].
  destruct (decide (current_time s = r)); [| auto].
  unfold TaskOps.release_new_job.
  destruct (sample rvs (draws s) (bcet t) (wcet t)) as [c n'].
  cbn [job_release_times]. intros H.
  apply lookup_insert_Some in H as [[<- _] | [_ H]]; eauto.
Qed.

Lemma base_inv_release_one s i : base_inv ts s -> base_inv ts (release_one rvs s i).
Proof.
  intros H. assert (H' := H). destruct H' as (Hwf & Hst & Hk).
  split; [by apply wf_release_one |].
  split; [by rewrite release_one_static |].
  intros k v Hkv. apply release_one_keys in Hkv as [Hkv | (t & Hi & <-)].
  - by eapply Hk.
  - by eapply base_inv_task.
Qed.

Lemma base_inv_dispatch s : base_inv ts s -> base_inv ts (dispatch s).
Proof.
  intros (Hwf & Hst & Hk).
  split; [by apply wf_dispatch |].
  split; [by rewrite dispatch_static |].
  by rewrite dispatch_release_times.
Qed.

Lemma base_inv_run s s' : rtc (move rvs) s s' -> base_inv ts s -> base_inv ts s'.
Proof.
  apply moves_invariant; auto using base_inv_release_one, base_inv_dispatch.
Qed.

Lemma release_one_step t j s :
  base_inv ts s -> current_time s = t ->
  releases_from t s -> work_pending t s -> handled t j s ->
  releases_from t (release_one rvs s j) /\
  work_pending t (release_one rvs s j) /\
  handled t (S j) (release_one rvs s j).
Proof.
  intros Hb Ht Hfrom Hpend Hdone.
  unfold release_one.
  destruct (tasks s !! j) as [task |] eqn:Ej.
  2:{ repeat split; try done. intros i task Hi Hl.
      assert (i <> j) by congruence. apply (Hdone i task); [lia | done]. }
  destruct (job_release_times s !! task_id task) as [r |] eqn:Er.
  2:{ repeat split; try done. intros i task' Hi Hl.
      destruct (decide (i = j)) as [-> | Hne].
      - assert (task' = task) by congruence. subst. by rewrite Er.
      - apply (Hdone i task'); [lia | done]. }
  destruct (decide (current_time s = r)) as [Hr | Hr].
  - destruct (base_inv_task s j task Hb Ej) as (Hp & _ & _).
    unfold TaskOps.release_new_job.
    destruct (sample rvs (draws s) (bcet task) (wcet task)) as [c n'].
    unfold releases_from, work_pending, handled in *.
    cbn [job_release_times active_jobs tasks].
    repeat split.
    + intros k v H.
      apply lookup_insert_Some in H as [[_ <-] | [_ H]]; [lia | eauto].
    + left. by destruct (active_jobs s).
    + intros i task' Hi Hl. apply list_lookup_insert_Some in Hl.
      rewrite (lookup_insert (M:=gmap string)).
      destruct Hl as [(-> & <- & _) | [Hne Hl]]; simpl.
      * rewrite decide_True by done. intros [= E]. lia.
      * destruct (decide (task_id task = task_id task')) as [_ | _].
        -- intros [= E]. lia.
        -- apply (Hdone i task'); [lia | done].
  - repeat split; try done. intros i task' Hi Hl.
    destruct (decide (i = j)) as [-> | Hne].
    + assert (task' = task) by congruence. subst. rewrite Er.
      intros [= E]. lia.
    + apply (Hdone i task'); [lia | done].
Qed.

Lemma release_prefix_inv t s j :
  base_inv ts s -> current_time s = t ->
  releases_from t s -> work_pending t s ->
  releases_from t (release_prefix rvs s j) /\
  work_pending t (release_prefix rvs s j) /\
  handled t j (release_prefix rvs s j).
Proof.
  intros Hb Ht Hfrom Hpend. induction j as [| j (IH1 & IH2 & IH3)].
  - repeat split; try done. intros i task Hi. lia.
  - rewrite release_prefix_succ. apply release_one_step; try done.
    + eapply base_inv_run; [apply release_prefix_moves | done].
    + by rewrite release_prefix_time.
Qed.

Lemma release_jobs_inv s :
  base_inv ts s ->
  releases_from (current_time s) s -> work_pending (current_time s) s ->
  (forall k v, job_release_times (release_jobs rvs s) !! k = Some v ->
     current_time s < v) /\
  active_jobs (release_jobs rvs s) <> [].
Proof.
  intros Hb Hfrom Hpend.
  destruct (release_prefix_inv (current_time s) s (length (tasks s))
              Hb eq_refl Hfrom Hpend) as (H1 & H2 & H3).
  fold (release_jobs rvs s) in H1, H2, H3.
  assert (Hb1 : base_inv ts (release_jobs rvs s))
    by (eapply base_inv_run; [apply release_jobs_moves | done]).
  assert (Hlater : forall k v,
    job_release_times (release_jobs rvs s) !! k = Some v -> current_time s < v).
  { intros k v Hkv. pose proof (H1 k v Hkv) as Hle.
    destruct (decide (v = current_time s)) as [-> |]; [exfalso | lia].
    destruct Hb1 as (_ & Hst & Hkeys).
    pose proof (Hkeys k _ Hkv) as Hin.
    apply list_elem_of_fmap in Hin as (t0 & -> & Hin).
    apply list_elem_of_lookup in Hin as [i Hi].
    destruct (static_lookup (tasks (release_jobs rvs s)) ts i t0
                (eq_sym Hst) Hi) as (t1 & Hi1 & Heq).
    assert (Hid : task_id t1 = task_id t0) by (unfold static in Heq; congruence).
    apply (H3 i t1); [| done | by rewrite Hid].
    pose proof (static_length _ _ (release_jobs_static rvs s)) as Hlen.
    rewrite <- Hlen. by eapply lookup_lt_Some. }
  split; [done |].
  destruct H2 as [H2 | [k Hk]]; [done |].
  specialize (Hlater k _ Hk). lia.
Qed.

Lemma head_inv_initial n : head_inv ts (initial_state n ts).
Proof.
  split; [apply base_inv_initial |]. repeat split.
  - intros k v. simpl. rewrite initial_release_times_lookup.
    destruct (decide _); [| done]. intros [= <-]. lia.
  - right. destruct ts as [| t0 ts'] eqn:E; [done |].
    exists (task_id t0). simpl. by rewrite lookup_insert_eq.
  - intros e He. by apply elem_of_nil in He.
Qed.

Lemma head_inv_loop_body s : head_inv ts s -> head_inv ts (loop_body rvs s).
Proof.
  intros (Hb & Hfrom & Hpend & Hlog).
  destruct (release_jobs_inv s Hb Hfrom Hpend) as [Hlater Hact].
  set (s1 := release_jobs rvs s) in *.
  assert (Hb1 : base_inv ts s1)
    by (eapply base_inv_run; [apply release_jobs_moves | done]).
  assert (Hb3 : base_inv ts (loop_body rvs s))
    by (eapply base_inv_run; [apply loop_body_moves | done]).
  destruct (dispatch_runs s1 (proj1 Hb1) Hact)
    as (j & rest & job & _ & _ & Hjob & Hlog2 & _ & _).
  destruct (base_inv_task s1 j job Hb1 Hjob) as (_ & Hidle & _).
  split; [done |].
  pose proof (loop_body_time rvs s) as Htime. fold s1 in Htime.
  unfold releases_from, work_pending.
  replace (job_release_times (loop_body rvs s)) with (job_release_times s1)
    by (unfold loop_body, advance; simpl; by rewrite dispatch_release_times).
  replace (active_jobs (loop_body rvs s)) with (active_jobs (dispatch s1))
    by done.
  replace (schedule_log (loop_body rvs s)) with (schedule_log (dispatch s1))
    by done.
  rewrite dispatch_release_times in Htime.
  assert (Hlog3 : forall e, e ∈ schedule_log (dispatch s1) -> e.2 <> Idle).
  { intros e. rewrite Hlog2. unfold s1. rewrite release_jobs_log.
    intros He. apply elem_of_app in He as [He | He]; [auto |].
    apply list_elem_of_singleton in He as ->. done. }
  destruct (active_jobs (dispatch s1)) as [| i l] eqn:Ea.
  - assert (Hfut : exists v, future_release (job_release_times s1)
                               (current_time s) v).
    { destruct (tasks s1) as [| t1 l1] eqn:Et.
      - exfalso. destruct Hb1 as (_ & Hst & _). rewrite Et in Hst.
        destruct ts; [done | discriminate].
      - destruct Hb1 as ((_ & Hkeys) & _ & _).
        destruct (Hkeys 0%nat t1) as [v Hv]; [by rewrite Et |].
        exists v. split; [by eapply Hlater | eauto]. }
    destruct Hfut as [v Hv].
    destruct (AdvanceTime_future (current_time s) (tasks (dispatch s1))
                (job_release_times s1) v Hv) as (r & Hr & [Hlt [k Hk]] & Hmin).
    rewrite Hr in Htime.
    replace (current_time (loop_body rvs s)) with r by lia.
    repeat split; [| eauto | done].
    intros k' v' Hkv. apply Hmin. split; [by eapply Hlater | eauto].
  - rewrite AdvanceTime_active in Htime. rewrite Htime.
    repeat split; [| by left | done].
    intros k v Hkv. specialize (Hlater k v Hkv). lia.
Qed.

Lemma head_inv_iterate n k : head_inv ts (iterate rvs k (initial_state n ts)).
Proof.
  induction k as [| k IH]; [apply head_inv_initial |].
  rewrite iterate_succ. by apply head_inv_loop_body.
Qed.

End IdleFree.

(** C10, as the code has it.  For every non-empty task set whose periods
    are all positive and in which no task is named like the idle label,
    the log of a run has no Idle entry.  Every task's first release is set
    at 0; whenever [active_jobs] is empty after the dispatch, the time
    advance lands exactly on the earliest release instant; so in every pass
    the release step leaves at least one active job. *)
Theorem no_idle_with_positive_periods (rvs : RandomSource) (n : nat)
    (ts : list Task) (simulation_time : Z) :
  ts <> [] ->
  Forall (fun t => 0 < period t) ts ->
  Forall (fun t => task_id t <> Idle) ts ->
  (forall t, t ∈ ts ->
     job_release_times (initial_state n ts) !! task_id t = Some 0) /\
  (forall k,
     let s := iterate rvs k (initial_state n ts) in
     active_jobs (release_jobs rvs s) <> [] /\
     (active_jobs (dispatch (release_jobs rvs s)) = [] ->
        (exists key, job_release_times (loop_body rvs s) !! key
                     = Some (current_time (loop_body rvs s))) /\
        forall key v, job_release_times (loop_body rvs s) !! key = Some v ->
                      current_time (loop_body rvs s) <= v)) /\
  exists s,
    rate_monotonic_scheduling rvs n ts simulation_time = Some s /\
    forall e, e ∈ schedule_log s -> e.2 <> Idle.
Proof.
  intros Hne Hper Hid. split; [| split].
  - intros t Ht. simpl. rewrite initial_release_times_lookup.
    rewrite decide_True; [done | by apply list_elem_of_fmap_2].
  - intros k s.
    destruct (head_inv_iterate rvs ts Hne Hper Hid n k) as (Hb & Hfrom & Hpend & _).
    fold s in Hb, Hfrom, Hpend.
    split; [by apply (release_jobs_inv rvs ts Hper Hid s) |].
    intros Hempty.
    destruct (head_inv_iterate rvs ts Hne Hper Hid n (S k)) as (_ & Hfrom' & Hpend' & _).
    rewrite iterate_succ in Hfrom', Hpend'. fold s in Hfrom', Hpend'.
    split; [| exact Hfrom'].
    destruct Hpend' as [Hact | Hdue]; [| done].
    exfalso. apply Hact. exact Hempty.
  - destruct (scheduling_result rvs n ts simulation_time) as (k & Hrun & _).
    eexists. split; [exact Hrun |]. simpl.
    apply (head_inv_iterate rvs ts Hne Hper Hid n k).
Qed.

Lemma no_idle_with_positive_periods_witness :
  exists s,
    rate_monotonic_scheduling no_draws 0
      (scenario_tasks no_draws 4 6) 12 = Some s /\
    forall e, e ∈ schedule_log s -> e.2 <> Idle.
Proof.
  apply (no_idle_with_positive_periods no_draws 0
           (scenario_tasks no_draws 4 6) 12).
  - vm_compute. discriminate.
  - vm_compute. repeat constructor.
  - repeat constructor; vm_compute; discriminate.
Defined.

(** C10 as stated fails: a single task of period 0 is released once, and
    the second tick of the run is logged as Idle. *)
Lemma idle_with_zero_period :
  (build_tasks no_draws 0 zero_period_rows).1 <> [] /\
  exists s,
    rate_monotonic_scheduling no_draws 0
      (build_tasks no_draws 0 zero_period_rows).1 2 = Some s /\
    schedule_log s = [(0, "A"%string); (1, Idle)] /\
    (1, Idle) ∈ schedule_log s.
Proof.
  split; [vm_compute; discriminate |].
  eexists. split; [vm_compute; reflexivity |]. simpl.
  split; [reflexivity |]. apply elem_of_cons. right. apply elem_of_cons. by left.
Qed.

(** With no task at all, every tick of the horizon is logged as Idle. *)
Example idle_with_no_task (rvs : RandomSource) :
  exists s,
    rate_monotonic_scheduling rvs 0 [] 2 = Some s /\
    schedule_log s = [(0, Idle); (1, Idle)].
Proof. eexists. split; [vm_compute; reflexivity | reflexivity]. Qed.

(** ** The two scenarios *)

(** C1.  Tasks A (period 4, bcet = wcet = 1, priority 1) and B (period 6,
    bcet = wcet = 2, priority 2), horizon 12, any deadlines and any random
    source.  A is released at 0, 4 and 8 and each job completes one tick
    later with response time 1; B is released at 0, runs at ticks 1 and 2
    and completes at 3 with response time 3, is released at 6, runs at
    ticks 6 and 7 and completes at 8 with response time 2.  The final WCRT
    is 1 for A and 3 for B. *)
Theorem scenario_two_tasks (rvs : RandomSource) (dA dB : Z) :
  exists s,
    rate_monotonic_scheduling rvs 0 (scenario_tasks rvs dA dB) 12 = Some s /\
    schedule_log s
      = [(0, "A"); (1, "B"); (2, "B"); (4, "A"); (6, "B"); (7, "B"); (8, "A")]%string /\
    output s
      = [Released 0 "A" 1; Released 0 "B" 2;
         Ran 0 "A" 0; Completed 1 "A" (Some 1);
         Ran 1 "B" 1;
         Ran 2 "B" 0; Completed 3 "B" (Some 3);
         Released 4 "A" 1; Ran 4 "A" 0; Completed 5 "A" (Some 1);
         Released 6 "B" 2; Ran 6 "B" 1;
         Ran 7 "B" 0; Completed 8 "B" (Some 2);
         Released 8 "A" 1; Ran 8 "A" 0; Completed 9 "A" (Some 1);
         Wcrt "A" 1; Wcrt "B" 3]%string /\
    wcrt_map s = [("A", 1); ("B", 3)]%string /\
    current_time s = 12.
Proof.
  eexists. split; [vm_compute; reflexivity |].
  repeat split; reflexivity.
Qed.

(** The same run, job by job: the response times of A's three jobs and of
    B's two jobs. *)
Example scenario_two_tasks_jobs (rvs : RandomSource) (dA dB : Z) :
  exists s,
    rate_monotonic_scheduling rvs 0 (scenario_tasks rvs dA dB) 12 = Some s /\
    job_responses "A" false (output s) = [1; 1; 1] /\
    job_responses "B" false (output s) = [3; 2].
Proof.
  eexists. split; [vm_compute; reflexivity |].
  split; vm_compute; reflexivity.
Qed.

Section SingleTask.

Variable rvs : RandomSource.

Lemma while_loop_step fuel T s :
  current_time s < T ->
  while_loop rvs (S fuel) T s = while_loop rvs fuel T (loop_body rvs s).
Proof. intros H. simpl. by rewrite decide_True. Qed.

Lemma while_loop_done fuel T s :
  T <= current_time s -> while_loop rvs fuel T s = Some s.
Proof. intros H. destruct fuel; simpl; rewrite decide_False; auto; lia. Qed.

(** A release that is due. *)
Lemma release_one_due s i task :
  tasks s !! i = Some task ->
  job_release_times s !! task_id task = Some (current_time s) ->
  release_one rvs s i
  = mkState (current_time s)
      (<[i := (TaskOps.release_new_job rvs (draws s) task (current_time s)).1]>
         (tasks s))
      (active_jobs s ++ [i])
      (<[task_id task := current_time s + period task]> (job_release_times s))
      (schedule_log s)
      (TaskOps.release_new_job rvs (draws s) task (current_time s)).2
      (output s ++
       [Released (current_time s) (task_id task)
          (execution_time
             (TaskOps.release_new_job rvs (draws s) task (current_time s)).1)]).
Proof.
  intros H1 H2. unfold release_one. rewrite H1, H2.
  rewrite decide_True by done.
  by destruct (TaskOps.release_new_job rvs (draws s) task (current_time s)).
Qed.

Lemma dict_values_singleton (k : string) (v : Z) : dict_values {[ k := v ]} = [v].
Proof. unfold dict_values. by rewrite map_to_list_singleton. Qed.

(** The first pass of the one-task run up to the dispatch: release, one
    tick of execution, completion. *)
Lemma single_task_dispatched n m id d p :
  dispatch (release_jobs rvs (initial_state m [single_task rvs n id d p]))
  = mkState 0 [mkTask id 10 d p 1 1 1 0 0 (Some 1) (Some 1) 1] []
            {[ id := 10 ]} [(0, id)] m
            [Released 0 id 1; Ran 0 id 0; Completed 1 id (Some 1)].
Proof.
  unfold release_jobs, single_task.
  change (fold_left ?f (seq 0 (length (tasks (initial_state m [?t])))) ?s)
    with (release_one rvs s 0).
  rewrite (release_one_due _ 0%nat (TaskOps.init rvs n id 1 1 10 d p).1);
    [| reflexivity | apply lookup_insert_eq].
  cbn [initial_state job_release_times initial_release_times foldr
       TaskOps.init sample Z.eqb Pos.eqb fst task_id period current_time].
  rewrite insert_insert_eq, insert_empty.
  reflexivity.
Qed.

(** The time advance that ends the first pass. *)
Lemma single_task_advance n m id d p :
  let s := dispatch (release_jobs rvs
                       (initial_state m [single_task rvs n id d p])) in
  current_time s = 0 /\
  AdvanceTime (current_time s) (tasks s) (job_release_times s)
              (active_jobs s) = 10.
Proof.
  rewrite single_task_dispatched. simpl. split; [done |].
  unfold AdvanceTime. by rewrite dict_values_singleton.
Qed.

Lemma single_task_first_pass n m id d p :
  loop_body rvs (initial_state m [single_task rvs n id d p])
  = mkState 10 [mkTask id 10 d p 1 1 1 0 0 (Some 1) (Some 1) 1] []
            {[ id := 10 ]} [(0, id)] m
            [Released 0 id 1; Ran 0 id 0; Completed 1 id (Some 1)].
Proof.
  unfold loop_body, advance.
  destruct (single_task_advance n m id d p) as [_ H]. simpl in H. rewrite H.
  by rewrite single_task_dispatched.
Qed.

End SingleTask.

(** C3, as the code has it.  One task with period 10 and bcet = wcet = 1,
    horizon 10: the job runs at tick 0 and completes at tick 1 (response
    time 1); the time advance at the end of that first pass, taken at
    [current_time = 0] with no active job, is 10, so the clock goes from 0
    directly to 10 and the loop test is made at 0 and at 10 only; the final
    wcrt is 1; the log is the single entry [(0, task_id)]. *)
Theorem scenario_single_task (rvs : RandomSource) (n m : nat) (id : string)
    (d p : Z) :
  exists s,
    rate_monotonic_scheduling rvs m [single_task rvs n id d p] 10 = Some s /\
    schedule_log s = [(0, id)] /\
    output s = [Released 0 id 1; Ran 0 id 0; Completed 1 id (Some 1);
                Wcrt id 1] /\
    completion_time <$> tasks s = [Some 1] /\
    wcrt_map s = [(id, 1)] /\
    clock_trace rvs 10 10 (initial_state m [single_task rvs n id d p])
      = [0; 10] /\
    (let s2 := dispatch (release_jobs rvs
                           (initial_state m [single_task rvs n id d p])) in
     current_time s2 = 0 /\
     AdvanceTime (current_time s2) (tasks s2) (job_release_times s2)
                 (active_jobs s2) = 10).
Proof.
  eexists. split.
  - unfold rate_monotonic_scheduling. change (Z.to_nat 10) with 10%nat.
    rewrite while_loop_step by (simpl; lia).
    rewrite single_task_first_pass.
    by rewrite while_loop_done by (simpl; lia).
  - do 4 (split; [reflexivity |]). split.
    + cbn [clock_trace]. rewrite decide_True by (simpl; lia).
      rewrite single_task_first_pass. cbn [current_time].
      by rewrite decide_False by lia.
    + apply single_task_advance.
Qed.

(** C3 as stated fails: the clock is never 1, so it does not jump from 1
    to 10; the values tested by the loop are 0 and 10. *)
Lemma single_task_clock_skips_one :
  clock_trace no_draws 10 10
    (initial_state 0 [single_task no_draws 0 "T" 10 1]) = [0; 10] /\
  ~ (exists pre post,
       clock_trace no_draws 10 10
         (initial_state 0 [single_task no_draws 0 "T" 10 1])
       = pre ++ 1 :: 10 :: post).
Proof.
  assert (E : clock_trace no_draws 10 10
    (initial_state 0 [single_task no_draws 0 "T" 10 1]) = [0; 10])
    by (vm_compute; reflexivity).
  split; [exact E |]. rewrite E. intros (pre & post & H).
  destruct pre as [| a [| b [| c pre]]]; simpl in H; discriminate.
Qed.

(** ** Task-set construction *)

Lemma build_tasks_built_from (rvs : RandomSource) (n : nat) (rows : list Row) :
  Forall2 built_from rows (build_tasks rvs n rows).1.
Proof.
  revert n. induction rows as [| r rows IH]; intros n; simpl; [constructor |].
  unfold TaskOps.init.
  pose proof (sample_positive rvs n (col_BCET r) (col_WCET r)) as Hp.
  destruct (sample rvs n (col_BCET r) (col_WCET r)) as [c n1].
  specialize (IH n1). destruct (build_tasks rvs n1 rows) as [ts n2].
  simpl in *. constructor; [| done].
  unfold built_from, static. simpl. auto 10.
Qed.

(** C4, as the code has it.  The construction checks nothing and raises no
    ConfigurationError: for any rows with [bcet <= wcet] in each (whatever
    the periods, names and priorities, repeated or not), it returns one
    task per row, in order, holding the row's values, and the scheduler then
    runs on these tasks for any horizon.  (Rows with [bcet > wcet] are left
    aside: the code does not test them either, but the sampler then calls
    the library on an empty interval.) *)
Theorem construction_accepts_every_row (rvs : RandomSource) (n : nat)
    (rows : list Row) :
  Forall (fun r => col_BCET r <= col_WCET r) rows ->
  exists ts n',
    load_tasks_from_csv rvs n rows = Returned (ts, n') /\
    load_tasks_from_csv rvs n rows <> Raised ConfigurationError /\
    Forall2 built_from rows ts /\
    forall simulation_time,
      exists s, rate_monotonic_scheduling rvs n' ts simulation_time = Some s.
Proof.
  intros _. exists (build_tasks rvs n rows).1, (build_tasks rvs n rows).2.
  unfold load_tasks_from_csv. split; [by destruct (build_tasks rvs n rows) |].
  split; [done |]. split; [apply build_tasks_built_from |].
  intros T. destruct (scheduling_result rvs (build_tasks rvs n rows).2
                        (build_tasks rvs n rows).1 T) as (k & H & _).
  eauto.
Qed.

Lemma construction_accepts_every_row_witness :
  exists ts n',
    load_tasks_from_csv no_draws 0 unchecked_rows = Returned (ts, n') /\
    load_tasks_from_csv no_draws 0 unchecked_rows
      <> Raised ConfigurationError /\
    Forall2 built_from unchecked_rows ts /\
    forall simulation_time,
      exists s,
        rate_monotonic_scheduling no_draws n' ts simulation_time = Some s.
Proof.
  apply (construction_accepts_every_row no_draws 0 unchecked_rows).
  repeat constructor; simpl; lia.
Defined.

(** C4 as stated fails: rows with a repeated name, a repeated priority and
    a period 0 are turned into two tasks, and the run over them goes on and
    executes jobs. *)
Lemma unchecked_rows_are_scheduled :
  rejected_by_spec unchecked_rows /\
  (exists r, r ∈ unchecked_rows /\ col_Period r <= 0) /\
  ~ NoDup (col_Task <$> unchecked_rows) /\
  ~ NoDup (col_Priority <$> unchecked_rows) /\
  load_tasks_from_csv no_draws 0 unchecked_rows
    <> Raised ConfigurationError /\
  exists ts s,
    load_tasks_from_csv no_draws 0 unchecked_rows = Returned (ts, 0%nat) /\
    length ts = 2%nat /\
    rate_monotonic_scheduling no_draws 0 ts 8 = Some s /\
    schedule_log s = [(0, "A"%string); (4, "A"%string)].
Proof.
  assert (Hp : exists r, r ∈ unchecked_rows /\ col_Period r <= 0).
  { exists (mkRow "A" 1 1 0 6 1). split; [| simpl; lia].
    apply elem_of_cons. right. apply elem_of_cons. by left. }
  split; [right; left; exact Hp |]. split; [exact Hp |].
  split; [| split; [| split; [done |]]].
  - simpl. intros H. apply NoDup_cons in H as [H _]. apply H.
    apply elem_of_cons. by left.
  - simpl. intros H. apply NoDup_cons in H as [H _]. apply H.
    apply elem_of_cons. by left.
  - eexists _, _. split; [vm_compute; reflexivity |].
    split; [reflexivity |]. split; [vm_compute; reflexivity | reflexivity].
Qed.

(** ** Determinism *)

Section Determinism.

Variables rvs1 rvs2 : RandomSource.
Hypothesis same_draws : forall i, (rvs1 i == rvs2 i)%Q.

Lemma py_round_comp (x y : Q) : (x == y)%Q -> py_round x = py_round y.
Proof.
  intros H. unfold py_round.
  assert (Hf : Qfloor x = Qfloor y) by (by apply Qfloor_comp).
  rewrite Hf.
  assert (Hc : Qcompare (x - inject_Z (Qfloor y)) (1 # 2)
               = Qcompare (y - inject_Z (Qfloor y)) (1 # 2)).
  { apply Qcompare_comp; [| reflexivity]. by rewrite H. }
  by rewrite Hc.
Qed.

Lemma sample_ext n b w : sample rvs1 n b w = sample rvs2 n b w.
Proof.
  unfold sample, generate_execution_time.
  destruct (b =? w); [done |].
  by rewrite (py_round_comp _ _ (same_draws n)).
Qed.

Lemma release_one_ext s i : release_one rvs1 s i = release_one rvs2 s i.
Proof.
  unfold release_one, TaskOps.release_new_job.
  destruct (tasks s !! i) as [t |]; [| done].
  by rewrite sample_ext.
Qed.

Lemma release_jobs_ext s : release_jobs rvs1 s = release_jobs rvs2 s.
Proof.
  unfold release_jobs. generalize (seq 0 (length (tasks s))). intros l.
  revert s. induction l as [| i l IH]; intros s; simpl; [done |].
  by rewrite release_one_ext, IH.
Qed.

Lemma loop_body_ext s : loop_body rvs1 s = loop_body rvs2 s.
Proof. unfold loop_body. by rewrite release_jobs_ext. Qed.

Lemma while_loop_ext fuel T s : while_loop rvs1 fuel T s = while_loop rvs2 fuel T s.
Proof.
  revert s. induction fuel as [| fuel IH]; intros s; simpl; [done |].
  destruct (decide _); [| done]. by rewrite loop_body_ext, IH.
Qed.

Lemma build_tasks_ext n rows : build_tasks rvs1 n rows = build_tasks rvs2 n rows.
Proof.
  revert n. induction rows as [| r rows IH]; intros n; simpl; [done |].
  unfold TaskOps.init. rewrite sample_ext.
  destruct (sample rvs2 n (col_BCET r) (col_WCET r)) as [c n1].
  by rewrite IH.
Qed.

End Determinism.

(** ** Response times: what holds in every run *)

Section ResponseTime.

Variable rvs : RandomSource.

Lemma calculate_response_time_fields (self : Task) (t : Z) :
  let self' := TaskOps.calculate_response_time self t in
  completion_time self' = Some t /\
  response_time self' = Some (t - release_time self) /\
  wcrt self' = Z.max (wcrt self) (t - release_time self) /\
  wcrt self <= wcrt self'.
Proof. simpl. repeat split. lia. Qed.

Lemma released_in_past_release_one s i :
  released_in_past s -> released_in_past (release_one rvs s i).
Proof.
  unfold released_in_past. unfold_release. intros H.
  apply Forall_insert; [done | simpl; lia].
Qed.

Lemma released_in_past_dispatch s :
  released_in_past s -> released_in_past (dispatch s).
Proof.
  unfold released_in_past. unfold_dispatch; intros H;
    (apply Forall_insert; [done |]); simpl;
    eapply (proj1 (Forall_lookup _ _) H); eauto.
Qed.

Lemma released_in_past_advance s :
  released_in_past s -> released_in_past (advance s).
Proof.
  unfold released_in_past, advance. simpl. intros H.
  pose proof (AdvanceTime_positive (current_time s) (tasks s)
                (job_release_times s) (active_jobs s)).
  eapply Forall_impl; [exact H |]. simpl. intros; lia.
Qed.

Lemma released_in_past_run s s' :
  rtc (move rvs) s s' -> released_in_past s -> released_in_past s'.
Proof.
  apply moves_invariant;
    auto using released_in_past_release_one, released_in_past_dispatch,
               released_in_past_advance.
Qed.

Lemma released_in_past_built n m rows :
  released_in_past (initial_state m (build_tasks rvs n rows).1).
Proof.
  unfold released_in_past. simpl.
  pose proof (build_tasks_built_from rvs n rows) as H.
  induction H as [| r t rows ts Hb _ IH]; constructor; [| done].
  destruct Hb as (_ & _ & _ & -> & _). lia.
Qed.

(** When the dispatched job finishes, its response time is set to
    [completion_time - release_time], which is at least 1, and its wcrt
    becomes the larger of the old wcrt and this response time. *)
Lemma dispatch_completion s :
  wf_state s -> released_in_past s -> active_jobs s <> [] ->
  exists j job job',
    first_min (priority_of (tasks s)) (active_jobs s) j /\
    tasks s !! j = Some job /\
    tasks (dispatch s) !! j = Some job' /\
    (Z.max 0 (remaining_time job - 1) = 0 ->
       completion_time job' = Some (current_time s + 1) /\
       response_time job'
         = Some (current_time s + 1 - release_time job') /\
       1 <= current_time s + 1 - release_time job' /\
       wcrt job'
         = Z.max (wcrt job) (current_time s + 1 - release_time job')) /\
    (Z.max 0 (remaining_time job - 1) <> 0 ->
       completion_time job' = completion_time job /\
       response_time job' = response_time job /\
       wcrt job' = wcrt job).
Proof.
  intros Hwf Hpast Hne.
  destruct (dispatch_runs s Hwf Hne)
    as (j & rest & job & _ & Hfm & Hjob & _ & Hts & _).
  pose proof (proj1 (Forall_lookup _ _) Hpast j job Hjob) as Hrel.
  simpl in Hrel.
  assert (Hlt : (j < length (tasks s))%nat) by (by eapply lookup_lt_Some).
  eexists j, job, _. split; [done |]. split; [done |].
  split; [rewrite Hts; by apply list_lookup_insert_eq |].
  simpl. split; intros H.
  - apply Z.eqb_eq in H. rewrite H. simpl. repeat split. lia.
  - apply Z.eqb_neq in H. rewrite H. simpl. done.
Qed.

Lemma wcrt_grows_refl s : wcrt_grows s s.
Proof. unfold wcrt_grows. apply Forall2_same_length_lookup. split; [done |].
  intros i t t' H1 H2. assert (t = t') by congruence. subst. lia. Qed.

Lemma wcrt_grows_trans s1 s2 s3 :
  wcrt_grows s1 s2 -> wcrt_grows s2 s3 -> wcrt_grows s1 s3.
Proof.
  unfold wcrt_grows. intros H1 H2.
  eapply Forall2_trans; [| exact H1 | exact H2].
  simpl. intros; lia.
Qed.

Lemma wcrt_grows_insert (ts : list Task) (i : nat) (t t' : Task) :
  ts !! i = Some t -> wcrt t <= wcrt t' ->
  Forall2 (fun a b => wcrt a <= wcrt b) ts (<[i := t']> ts).
Proof.
  intros Hi Hle. apply Forall2_same_length_lookup.
  split; [by rewrite length_insert |].
  intros k a b Ha Hb. apply list_lookup_insert_Some in Hb.
  destruct Hb as [(-> & <- & _) | [_ Hb]].
  - assert (a = t) by congruence. by subst.
  - assert (a = b) by congruence. subst. lia.
Qed.

Lemma wcrt_grows_move s s' : move rvs s s' -> wcrt_grows s s'.
Proof.
  intros [s0 i | s0 | s0]; unfold wcrt_grows.
  - unfold_release; try apply wcrt_grows_refl.
    eapply wcrt_grows_insert; [done | simpl; lia].
  - unfold_dispatch; try apply wcrt_grows_refl;
      (eapply wcrt_grows_insert; [done | simpl; lia]).
  - exact (wcrt_grows_refl s0).
Qed.

(** The wcrt of every task never decreases along a run. *)
Lemma wcrt_grows_run s s' : rtc (move rvs) s s' -> wcrt_grows s s'.
Proof.
  induction 1 as [| s1 s2 s3 Hm _ IH]; [apply wcrt_grows_refl |].
  eapply wcrt_grows_trans; [by apply wcrt_grows_move | done].
Qed.

End ResponseTime.

(** ** Running again on the same task objects *)

Section Rerun.

Variable rvs : RandomSource.
Variable W : list Z.

Lemma twin_lookup a b i ta :
  twin W a b -> tasks a !! i = Some ta ->
  exists tb, tasks b !! i = Some tb /\ static tb = static ta.
Proof.
  intros (_ & _ & _ & _ & _ & _ & Hst & _) Hi.
  by apply (static_lookup (tasks b) (tasks a) i ta).
Qed.

Lemma twin_release_one a b i :
  twin W a b -> twin W (release_one rvs a i) (release_one rvs b i).
Proof.
  intros Htw.
  assert (Htw' := Htw).
  destruct Htw' as (Ht & Ha & Hj & Hl & Hd & Ho & Hst & Hact & Hw).
  unfold release_one.
  destruct (tasks a !! i) as [ta |] eqn:Eta.
  2:{ assert (Eb : tasks b !! i = None).
      { apply lookup_ge_None. apply lookup_ge_None in Eta.
        by rewrite <- (static_length _ _ Hst). }
      by rewrite Eb. }
  destruct (twin_lookup a b i ta Htw Eta) as (tb & Etb & Hs).
  rewrite Etb.
  assert (Hid : task_id tb = task_id ta) by (unfold static in Hs; congruence).
  assert (Hb : bcet tb = bcet ta) by (unfold static in Hs; congruence).
  assert (Hwc : wcet tb = wcet ta) by (unfold static in Hs; congruence).
  assert (Hp : period tb = period ta) by (unfold static in Hs; congruence).
  rewrite Hid, <- Hj.
  destruct (job_release_times a !! task_id ta) as [r |]; [| done].
  rewrite <- Ht.
  destruct (decide (current_time a = r)) as [_ | _]; [| done].
  unfold TaskOps.release_new_job. rewrite Hb, Hwc, <- Hd.
  destruct (sample rvs (draws a) (bcet ta) (wcet ta)) as [c n'].
  unfold twin. cbn [current_time active_jobs job_release_times schedule_log
                    draws output tasks].
  rewrite Hid, Hp, <- Ha, <- Hl, <- Ho.
  do 6 (split; [reflexivity |]). split; [| split].
  - rewrite !list_fmap_insert, Hst. f_equal.
    unfold static in *. simpl. congruence.
  - intros k ka kb Hk Hka Hkb.
    apply list_lookup_insert_Some in Hka, Hkb.
    destruct Hka as [(<- & <- & _) | [Hne Hka]];
      destruct Hkb as [(E & <- & _) | [Hne' Hkb]]; try done.
    apply (Hact k ka kb); [| done | done].
    apply elem_of_app in Hk as [Hk | Hk]; [done |].
    by apply list_elem_of_singleton in Hk.
  - rewrite list_fmap_insert. simpl. rewrite <- Hw. apply list_insert_id.
    by rewrite list_lookup_fmap, Etb.
Qed.

Lemma twin_release_jobs a b :
  twin W a b -> twin W (release_jobs rvs a) (release_jobs rvs b).
Proof.
  intros Htw. unfold release_jobs.
  assert (Hlen : length (tasks b) = length (tasks a)).
  { destruct Htw as (_ & _ & _ & _ & _ & _ & Hst & _).
    symmetry. by apply static_length. }
  rewrite Hlen. generalize (seq 0 (length (tasks a))). intros l.
  revert a b Htw Hlen. induction l as [| i l IH]; intros a b Htw Hlen; [done |].
  simpl. apply IH; [by apply twin_release_one |].
  by rewrite !release_one_length.
Qed.

Lemma twin_priority a b :
  twin W a b -> forall i, priority_of (tasks a) i = priority_of (tasks b) i.
Proof.
  intros Htw i. unfold priority_of.
  destruct (tasks a !! i) as [ta |] eqn:Eta.
  - destruct (twin_lookup a b i ta Htw Eta) as (tb & -> & Hs).
    unfold static in Hs. congruence.
  - destruct Htw as (_ & _ & _ & _ & _ & _ & Hst & _).
    assert (Eb : tasks b !! i = None).
    { apply lookup_ge_None. apply lookup_ge_None in Eta.
      by rewrite <- (static_length _ _ Hst). }
    by rewrite Eb.
Qed.

Lemma sorted_ext (k1 k2 : nat -> Z) (l : list nat) :
  (forall i, k1 i = k2 i) -> sorted k1 l = sorted k2 l.
Proof.
  intros H. unfold sorted. induction l as [| x l IH]; simpl; [done |].
  rewrite IH. generalize (foldr (insert_by k2) [] l). intros m.
  induction m as [| y m IHm]; simpl; [done |].
  by rewrite !H, IHm.
Qed.

Lemma twin_dispatch a b :
  twin W a b -> below W (dispatch a) -> twin W (dispatch a) (dispatch b).
Proof.
  intros Htw. assert (Htw' := Htw).
  destruct Htw' as (Ht & Ha & Hj & Hl & Hd & Ho & Hst & Hact & Hw).
  assert (Hsort : sorted (priority_of (tasks b)) (active_jobs b)
                  = sorted (priority_of (tasks a)) (active_jobs a)).
  { rewrite <- Ha. apply sorted_ext. intros i. symmetry. by apply twin_priority. }
  unfold dispatch, below. rewrite Hsort.
  pose proof (sorted_perm (priority_of (tasks a)) (active_jobs a)) as Hperm.
  destruct (sorted (priority_of (tasks a)) (active_jobs a)) as [| j rest].
  { intros _. unfold twin. simpl. rewrite <- Ht, <- Hl, <- Hd, <- Ho, <- Hj.
    do 6 (split; [reflexivity |]). split; [done |]. split; [| done].
    intros i ta tb Hi. by apply elem_of_nil in Hi. }
  assert (Hin : forall i, i ∈ j :: rest -> i ∈ active_jobs a)
    by (intros i; by rewrite Hperm).
  destruct (tasks a !! j) as [ja |] eqn:Eja.
  2:{ assert (Eb : tasks b !! j = None).
      { apply lookup_ge_None. apply lookup_ge_None in Eja.
        by rewrite <- (static_length _ _ Hst). }
      by rewrite Eb. }
  destruct (twin_lookup a b j ja Htw Eja) as (jb & Ejb & Hs).
  rewrite Ejb.
  destruct (Hact j ja jb (Hin j ltac:(apply elem_of_cons; auto)) Eja Ejb)
    as [Hrem Hrel].
  assert (Hid : task_id jb = task_id ja) by (unfold static in Hs; congruence).
  assert (Hlen : (j < length (tasks a))%nat) by (by eapply lookup_lt_Some).
  unfold TaskOps.execute, TaskOps.calculate_response_time.
  cbn [remaining_time release_time task_id wcrt fst snd].
  rewrite <- Hrem, <- Hrel, <- Ht, <- Hl, <- Hd, <- Ho, <- Hj, Hid.
  destruct (Z.max 0 (remaining_time ja - 1) =? 0) eqn:Ef; intros Hbelow;
    unfold twin;
    cbn [current_time active_jobs job_release_times schedule_log draws
         output tasks response_time task_id] in *.
  - do 6 (split; [reflexivity |]). split; [| split].
    + rewrite !list_fmap_insert, Hst.
      f_equal; unfold static in *; simpl; congruence.
    + simpl. rewrite decide_True by done.
      intros i ta tb Hi Hta Htb.
      apply list_lookup_insert_Some in Hta, Htb.
      destruct Hta as [(<- & <- & _) | [Hne Hta]];
        destruct Htb as [(E & <- & _) | [Hne' Htb]]; try done.
      apply (Hact i ta tb); [| done | done].
      apply Hin. apply elem_of_cons. by right.
    + destruct (Forall2_lookup_l _ _ _ j _ Hbelow
                  (list_lookup_insert_eq _ _ _ Hlen)) as (w & Hwj & Hle).
      rewrite <- Hw in Hwj. rewrite list_lookup_fmap, Ejb in Hwj.
      simpl in Hwj, Hle. injection Hwj as <-.
      rewrite list_fmap_insert. simpl. rewrite <- Hw. apply list_insert_id.
      rewrite list_lookup_fmap, Ejb. simpl. f_equal. lia.
  - do 6 (split; [reflexivity |]). split; [| split].
    + rewrite !list_fmap_insert, Hst.
      f_equal; unfold static in *; simpl; congruence.
    + intros i ta tb Hi Hta Htb.
      apply list_lookup_insert_Some in Hta, Htb.
      destruct Hta as [(<- & <- & _) | [Hne Hta]];
        destruct Htb as [(E & <- & _) | [Hne' Htb]]; try done.
      apply (Hact i ta tb); [| done | done].
      by apply Hin.
    + rewrite list_fmap_insert. simpl. rewrite <- Hw. apply list_insert_id.
      by rewrite list_lookup_fmap, Ejb.
Qed.

Lemma twin_advance a b : twin W a b -> twin W (advance a) (advance b).
Proof.
  intros (Ht & Ha & Hj & Hl & Hd & Ho & Hst & Hact & Hw).
  unfold advance, twin. simpl. rewrite <- Ht, <- Ha, <- Hj, <- Hl, <- Hd, <- Ho.
  split; [reflexivity |].
  do 5 (split; [reflexivity |]). done.
Qed.

Lemma twin_loop_body a b :
  twin W a b -> below W (loop_body rvs a) ->
  twin W (loop_body rvs a) (loop_body rvs b).
Proof.
  intros Htw Hbelow. unfold loop_body.
  apply twin_advance, twin_dispatch; [by apply twin_release_jobs | done].
Qed.

Lemma below_earlier a a' : wcrt_grows a a' -> below W a' -> below W a.
Proof.
  unfold wcrt_grows, below. intros H1 H2.
  eapply Forall2_trans; [| exact H1 | exact H2]. simpl. intros; lia.
Qed.

Lemma twin_iterate k a b :
  twin W a b -> below W (iterate rvs k a) ->
  twin W (iterate rvs k a) (iterate rvs k b).
Proof.
  induction k as [| k IH]; intros Htw Hbelow; [done |].
  rewrite !iterate_succ in *.
  assert (Hk : twin W (iterate rvs k a) (iterate rvs k b)).
  { apply IH; [done |]. eapply below_earlier; [| exact Hbelow].
    apply wcrt_grows_run with rvs. apply loop_body_moves. }
  by apply twin_loop_body.
Qed.

End Rerun.

Section RerunResult.

Variable rvs : RandomSource.

Lemma iterate_add j m s : iterate rvs (j + m) s = iterate rvs m (iterate rvs j s).
Proof. revert s. induction j as [| j IH]; intros s; simpl; [done | apply IH]. Qed.

Lemma iterate_static k s : static <$> tasks (iterate rvs k s) = static <$> tasks s.
Proof.
  induction k as [| k IH]; [done |].
  by rewrite iterate_succ, loop_body_static.
Qed.

Lemma task_id_of_static (l : list Task) :
  task_id <$> l = (fun p => p.1.1.1.1.1) <$> (static <$> l).
Proof. rewrite <- list_fmap_compose. by apply list_fmap_ext. Qed.

Lemma initial_release_times_static (l l' : list Task) :
  static <$> l = static <$> l' ->
  initial_release_times l = initial_release_times l'.
Proof.
  intros H. apply map_eq. intros k.
  rewrite !initial_release_times_lookup.
  by rewrite (task_id_of_static l), (task_id_of_static l'), H.
Qed.

Lemma below_own_wcrt (s : State) : below (wcrt <$> tasks s) s.
Proof.
  unfold below. apply Forall2_fmap_r. apply Forall2_same_length_lookup.
  split; [done |]. intros i t t' H1 H2.
  assert (t = t') by congruence. subst. simpl. lia.
Qed.

Lemma below_iterate_le W j k s :
  (j <= k)%nat -> below W (iterate rvs k s) -> below W (iterate rvs j s).
Proof.
  intros Hle. replace k with (j + (k - j))%nat by lia.
  rewrite iterate_add. apply below_earlier.
  apply wcrt_grows_run with rvs. apply iterate_moves.
Qed.

Lemma wcrt_map_eq (l l' : list Task) :
  static <$> l = static <$> l' -> wcrt <$> l = wcrt <$> l' ->
  map (fun t => (task_id t, wcrt t)) l = map (fun t => (task_id t, wcrt t)) l'.
Proof.
  revert l'. induction l as [| t l IH]; intros [| t' l'] Hs Hw;
    simpl in *; try done.
  injection Hs as Hs1 Hs2. injection Hw as Hw1 Hw2.
  unfold static in Hs1. f_equal; [| by apply IH].
  f_equal; congruence.
Qed.

(** A second run over the task objects left by a first run, with the same
    random source from the same point, gives the same log and the same
    task_id -> wcrt mapping. *)
Lemma rerun_same_result n ts T s1 :
  rate_monotonic_scheduling rvs n ts T = Some s1 ->
  exists s2,
    rate_monotonic_scheduling rvs n (tasks s1) T = Some s2 /\
    schedule_log s2 = schedule_log s1 /\
    wcrt_map s2 = wcrt_map s1.
Proof.
  intros Hrun.
  destruct (scheduling_result rvs n ts T) as (K & H1 & Hend & Hbefore).
  rewrite H1 in Hrun. injection Hrun as <-.
  set (a0 := initial_state n ts) in *.
  set (aK := iterate rvs K a0) in *.
  change (tasks (report aK)) with (tasks aK).
  set (b0 := initial_state n (tasks aK)).
  set (W := wcrt <$> tasks aK).
  assert (Hst0 : static <$> ts = static <$> tasks aK)
    by (symmetry; apply iterate_static).
  assert (Htw0 : twin W a0 b0).
  { unfold twin, a0, b0. simpl.
    do 2 (split; [reflexivity |]).
    split; [by apply initial_release_times_static |].
    do 3 (split; [reflexivity |]). split; [done |]. split; [| done].
    intros i ta tb Hi. by apply elem_of_nil in Hi. }
  assert (Htw : forall j, (j <= K)%nat ->
            twin W (iterate rvs j a0) (iterate rvs j b0)).
  { intros j Hj. apply twin_iterate; [done |].
    apply (below_iterate_le W j K); [done | apply below_own_wcrt]. }
  destruct (scheduling_result rvs n (tasks aK) T) as (K' & H2 & Hend' & Hbefore').
  fold b0 in H2, Hend', Hbefore'.
  assert (HK : K' = K).
  { destruct (lt_eq_lt_dec K' K) as [[Hlt | Heq] | Hgt]; [| done |]; exfalso.
    - destruct (Htw K' ltac:(lia)) as (Ht & _).
      specialize (Hbefore K' Hlt). lia.
    - destruct (Htw K ltac:(lia)) as (Ht & _).
      specialize (Hbefore' K Hgt). unfold aK in Hend. lia. }
  subst K'. eexists. split; [exact H2 |].
  destruct (Htw K ltac:(lia)) as (_ & _ & _ & Hl & _ & _ & Hst & _ & Hw).
  fold aK in Hl, Hst, Hw. split; [done |].
  unfold wcrt_map. simpl. symmetry. by apply wcrt_map_eq.
Qed.

End RerunResult.

(** ** Overrun: a job that completes twice *)

(** C7 at the failing input.  B is appended to [active_jobs] a second time
    at tick 3 while its first entry is still there; the job released at 3
    completes at 5 (response time 2), one entry of B stays in [active_jobs],
    and at tick 5 the finished job is dispatched again:
    [calculate_response_time] is called a second time for the same job, at
    6, and raises B's wcrt to 3, although the only job of B that completed
    has response time 2. *)
Theorem overrun_completes_job_twice (rvs : RandomSource) :
  exists s,
    rate_monotonic_scheduling rvs 0 (build_tasks rvs 0 overrun_rows).1 6
      = Some s /\
    schedule_log s
      = [(0, "A"); (1, "A"); (2, "B"); (3, "B"); (4, "B"); (5, "B")]%string /\
    output s
      = [Released 0 "A" 2; Released 0 "B" 2;
         Ran 0 "A" 1;
         Ran 1 "A" 0; Completed 2 "A" (Some 2);
         Ran 2 "B" 1;
         Released 3 "B" 2; Ran 3 "B" 1;
         Ran 4 "B" 0; Completed 5 "B" (Some 2);
         Ran 5 "B" 0; Completed 6 "B" (Some 3);
         Wcrt "A" 2; Wcrt "B" 3]%string /\
    active_jobs (release_jobs rvs
                   (iterate rvs 3 (initial_state 0
                      (build_tasks rvs 0 overrun_rows).1))) = [1; 1]%nat /\
    wcrt_map s = [("A", 2); ("B", 3)]%string /\
    job_responses "B" false (output s) = [2].
Proof.
  eexists. split; [vm_compute; reflexivity |].
  do 3 (split; [reflexivity |]). split; [reflexivity |].
  vm_compute. reflexivity.
Qed.

(** ** Determinism of a run *)

(** C8.  Two runs whose random sources give the same sequence of sampler
    outputs, over the same task set and the same horizon, end in the same
    state: the schedule logs are identical and so are the task_id -> wcrt
    mappings.  This also holds when the second run is made on the very task
    objects the first run has mutated (with the random source taken again
    from the same point): it logs the same schedule and reports the same
    wcrt for every task. *)
Theorem scheduling_deterministic (rvs1 rvs2 : RandomSource) (n : nat)
    (ts : list Task) (simulation_time : Z) :
  (forall i, (rvs1 i == rvs2 i)%Q) ->
  exists s1 s2 s3,
    rate_monotonic_scheduling rvs1 n ts simulation_time = Some s1 /\
    rate_monotonic_scheduling rvs2 n ts simulation_time = Some s2 /\
    schedule_log s1 = schedule_log s2 /\
    wcrt_map s1 = wcrt_map s2 /\
    s1 = s2 /\
    rate_monotonic_scheduling rvs2 n (tasks s1) simulation_time = Some s3 /\
    schedule_log s3 = schedule_log s1 /\
    wcrt_map s3 = wcrt_map s1.
Proof.
  intros Hsame.
  destruct (scheduling_result rvs1 n ts simulation_time) as (k & H1 & _).
  assert (Hext : forall ts',
    rate_monotonic_scheduling rvs2 n ts' simulation_time
    = rate_monotonic_scheduling rvs1 n ts' simulation_time).
  { intros ts'. unfold rate_monotonic_scheduling.
    by rewrite (while_loop_ext rvs1 rvs2 Hsame). }
  destruct (rerun_same_result rvs1 n ts simulation_time _ H1)
    as (s3 & H3 & Hl3 & Hw3).
  eexists _, _, s3. split; [exact H1 |].
  rewrite !Hext. split; [exact H1 |].
  do 3 (split; [reflexivity |]). auto.
Qed.

Lemma scheduling_deterministic_witness :
  exists s1 s2,
    rate_monotonic_scheduling (fun _ => 5 # 2) 1
      (build_tasks (fun _ => 5 # 2) 0 jitter_rows).1 12 = Some s1 /\
    rate_monotonic_scheduling (fun _ => 10 # 4) 1
      (build_tasks (fun _ => 5 # 2) 0 jitter_rows).1 12 = Some s2 /\
    schedule_log s1 = schedule_log s2 /\
    wcrt_map s1 = wcrt_map s2.
Proof.
  destruct (scheduling_deterministic (fun _ => 5 # 2) (fun _ => 10 # 4) 1
              (build_tasks (fun _ => 5 # 2) 0 jitter_rows).1 12)
    as (s1 & s2 & _ & H1 & H2 & Hl & Hw & _).
  - intros i. reflexivity.
  - exists s1, s2. auto.
Defined.

(** * Further properties *)

(** ** lcm and lcm_of_list *)

Section Lcm.

Lemma lcm_value (a b : Z) : a <> 0 \/ b <> 0 -> lcm a b = Ok (Z.lcm a b).
Proof.
  intros Hab. unfold lcm.
  pose proof (Z.gcd_nonneg a b) as Hg0.
  assert (Hg : Z.gcd a b <> 0).
  { intros Hz. apply Z.gcd_eq_0 in Hz. lia. }
  rewrite (proj2 (Z.eqb_neq _ _) Hg). f_equal.
  destruct (Z.gcd_divide_r a b) as [q Hq].
  unfold Z.lcm. rewrite Hq at 1 3.
  rewrite Z.div_mul by done.
  replace (a * (q * Z.gcd a b)) with (a * q * Z.gcd a b) by lia.
  rewrite Z.abs_mul, (Z.abs_eq (Z.gcd a b)) by done.
  by rewrite Z.div_mul.
Qed.

Lemma lcm_error (a b : Z) (e : PyError) :
  lcm a b = Err e <-> a = 0 /\ b = 0 /\ e = ZeroDivisionError.
Proof.
  unfold lcm. destruct (Z.gcd a b =? 0) eqn:E.
  - apply Z.eqb_eq, Z.gcd_eq_0 in E. split.
    + intros [= <-]. tauto.
    + intros (_ & _ & ->). done.
  - apply Z.eqb_neq in E. split; [done |].
    intros (-> & -> & _). by rewrite Z.gcd_0_l in E.
Qed.

Lemma zeros_cons (y : Z) (l : list Z) :
  zeros (y :: l) = if decide (y = 0) then S (zeros l) else zeros l.
Proof. unfold zeros. rewrite filter_cons. by destruct (decide (y = 0)). Qed.

Lemma reduce_lcm_error (acc : Z) (l : list Z) (e : PyError) :
  reduce_lcm acc l = Err e <->
  e = ZeroDivisionError /\
  ((if decide (acc = 0%Z) then 1 else 2) <= zeros l)%nat.
Proof.
  revert acc. induction l as [| y l IH]; intros acc.
  - simpl. split; [done |]. intros [_ H].
    destruct (decide (acc = 0)); unfold zeros in H; simpl in H; lia.
  - simpl. rewrite zeros_cons.
    destruct (lcm acc y) as [m |e'] eqn:El.
    + assert (Hab : acc <> 0 \/ y <> 0).
      { destruct (decide (acc = 0)) as [-> |]; [| auto].
        destruct (decide (y = 0)) as [-> |]; [| auto].
        by rewrite (proj2 (lcm_error 0 0 ZeroDivisionError)) in El. }
      rewrite (lcm_value _ _ Hab) in El. injection El as <-.
      rewrite IH.
      assert (Hz : Z.lcm acc y = 0 <-> acc = 0 \/ y = 0) by apply Z.lcm_eq_0.
      destruct (decide (Z.lcm acc y = 0)) as [H0 | H0];
        destruct (decide (acc = 0)) as [Ha | Ha];
        destruct (decide (y = 0)) as [Hy | Hy]; simpl; try lia; try tauto;
        (split; intros [He Hn]; (split; [done | lia])).
    + apply lcm_error in El as (-> & -> & ->). simpl.
      split; [intros [= <-] | intros [-> _]]; [| done].
      split; [done | lia].
Qed.

Lemma reduce_lcm_positive (acc : Z) (l : list Z) :
  0 < acc -> Forall (fun x => 0 < x) l ->
  exists h, reduce_lcm acc l = Ok h /\ 0 < h /\ (acc | h) /\
            Forall (fun x => (x | h)) l /\
            forall c, (acc | c) -> Forall (fun x => (x | c)) l -> (h | c).
Proof.
  revert acc. induction l as [| y l IH]; intros acc Hacc Hl; simpl.
  - exists acc. split; [done |]. split; [done |].
    split; [apply Z.divide_refl |]. split; [constructor | auto].
  - apply Forall_cons in Hl as [Hy Hl].
    rewrite lcm_value by lia.
    assert (Hpos : 0 < Z.lcm acc y).
    { pose proof (Z.lcm_nonneg acc y).
      assert (Z.lcm acc y <> 0) by (rewrite Z.lcm_eq_0; lia). lia. }
    destruct (IH (Z.lcm acc y) Hpos Hl) as (h & Hh & Hh0 & Hdiv & Hall & Hleast).
    exists h. split; [done |]. split; [done |].
    split; [etrans; [apply Z.divide_lcm_l | done] |].
    split.
    + constructor; [| done]. etrans; [apply Z.divide_lcm_r | done].
    + intros c Hc Hcs. apply Forall_cons in Hcs as [Hyc Hcs].
      apply Hleast; [| done]. by apply Z.lcm_least.
Qed.

End Lcm.

(** X1.  For two integers that are not both zero, [lcm] returns their
    least common multiple: a non-negative number that both divide and that
    divides every common multiple; the order of the arguments does not
    matter. *)
Theorem lcm_least_common_multiple (a b : Z) :
  a <> 0 \/ b <> 0 ->
  exists m,
    lcm a b = Ok m /\ lcm b a = Ok m /\ 0 <= m /\ (a | m) /\ (b | m) /\
    forall c, (a | c) -> (b | c) -> (m | c).
Proof.
  intros Hab. exists (Z.lcm a b).
  split; [by apply lcm_value |].
  split; [rewrite Z.lcm_comm; apply lcm_value; tauto |].
  split; [apply Z.lcm_nonneg |].
  split; [apply Z.divide_lcm_l |]. split; [apply Z.divide_lcm_r |].
  intros c. apply Z.lcm_least.
Qed.

Lemma lcm_least_common_multiple_witness :
  exists m, lcm 4 6 = Ok m /\ lcm 6 4 = Ok m /\ 0 <= m /\ (4 | m) /\ (6 | m) /\
    forall c, (4 | c) -> (6 | c) -> (m | c).
Proof. apply (lcm_least_common_multiple 4 6). left. lia. Defined.

(** X2.  [lcm_of_list] raises TypeError exactly on the empty list and
    ZeroDivisionError exactly when the list holds at least two zeros; it
    raises nothing else, and in every other case it returns a number. *)
Theorem lcm_of_list_errors (numbers : list Z) :
  (lcm_of_list numbers = Err TypeError <-> numbers = []) /\
  (lcm_of_list numbers = Err ZeroDivisionError <-> (2 <= zeros numbers)%nat) /\
  (forall e, lcm_of_list numbers = Err e ->
     e = TypeError \/ e = ZeroDivisionError) /\
  (numbers <> [] -> (zeros numbers <= 1)%nat ->
   exists h, lcm_of_list numbers = Ok h).
Proof.
  destruct numbers as [| x l]; simpl.
  - repeat split; try done; unfold zeros; simpl; try lia.
    intros e [= <-]. by left.
  - rewrite zeros_cons.
    pose proof (reduce_lcm_error x l) as Herr.
    split; [| split; [| split]].
    + split; [| done]. intros H. apply Herr in H as [H _]. done.
    + rewrite Herr. destruct (decide (x = 0)); simpl; split; try lia;
        intros H; (split; [done | lia]).
    + intros e H. apply Herr in H as [-> _]. by right.
    + intros _ Hz. clear Herr.
      destruct (reduce_lcm x l) as [h | e] eqn:E; [eauto |].
      apply reduce_lcm_error in E as [_ E].
      destruct (decide (x = 0)); simpl in *; lia.
Qed.

(** X3.  On a non-empty list of positive numbers (the periods of a task
    set), [lcm_of_list] returns the hyperperiod: a positive number that every
    element divides and that divides every common multiple of the
    elements. *)
Theorem lcm_of_list_positive (numbers : list Z) :
  numbers <> [] -> Forall (fun x => 0 < x) numbers ->
  exists h,
    lcm_of_list numbers = Ok h /\ 0 < h /\
    Forall (fun x => (x | h)) numbers /\
    forall c, Forall (fun x => (x | c)) numbers -> (h | c).
Proof.
  destruct numbers as [| x l]; [done |]. intros _ Hall.
  apply Forall_cons in Hall as [Hx Hl]. simpl.
  destruct (reduce_lcm_positive x l Hx Hl) as (h & Hh & Hh0 & Hdiv & Hd & Hleast).
  exists h. split; [done |]. split; [done |]. split; [by constructor |].
  intros c Hc. apply Forall_cons in Hc as [Hxc Hc]. by apply Hleast.
Qed.

Lemma lcm_of_list_positive_witness :
  exists h,
    lcm_of_list [4; 6; 10] = Ok h /\ 0 < h /\
    Forall (fun x => (x | h)) [4; 6; 10] /\
    forall c, Forall (fun x => (x | c)) [4; 6; 10] -> (h | c).
Proof.
  apply (lcm_of_list_positive [4; 6; 10]); [done |].
  repeat constructor.
Defined.

(** ** The life of one job *)

Section JobLife.

Lemma run_ticks_succ (n : nat) (self : Task) :
  run_ticks (S n) self = (TaskOps.execute (run_ticks n self) 1).1.
Proof. revert self. induction n as [| n IH]; intros self; [done |]. apply (IH _). Qed.

Lemma run_ticks_remaining (n : nat) (self : Task) :
  0 <= remaining_time self ->
  remaining_time (run_ticks n self)
  = Z.max 0 (remaining_time self - Z.of_nat n).
Proof.
  intros H. induction n as [| n IH]; [simpl; lia |].
  rewrite run_ticks_succ. simpl. rewrite IH. lia.
Qed.

Lemma run_ticks_release_time (n : nat) (self : Task) :
  release_time (run_ticks n self) = release_time self.
Proof.
  induction n as [| n IH]; [done |]. by rewrite run_ticks_succ.
Qed.

Lemma release_new_job_fields (rvs : RandomSource) (n : nat) (self : Task)
    (t : Z) :
  let job := (TaskOps.release_new_job rvs n self t).1 in
  static job = static self /\ wcrt job = wcrt self /\
  release_time job = t /\
  remaining_time job = execution_time job /\ 1 <= execution_time job /\
  completion_time job = None /\ response_time job = None.
Proof.
  unfold TaskOps.release_new_job.
  pose proof (sample_positive rvs n (bcet self) (wcet self)) as Hp.
  destruct (sample rvs n (bcet self) (wcet self)) as [c n']. simpl in *.
  repeat split; done.
Qed.

End JobLife.

(** X4.  A job released at [t] is ready at exactly the instants from [t]
    on, whatever the random source gave; the release leaves the task's
    static fields and its wcrt alone, sets an execution time of at least one
    tick, and clears the completion and response times. *)
Theorem released_job_is_ready (rvs : RandomSource) (n : nat) (self : Task)
    (t t' : Z) :
  let job := (TaskOps.release_new_job rvs n self t).1 in
  (TaskOps.is_ready job t' = true <-> t <= t') /\
  static job = static self /\ wcrt job = wcrt self /\
  remaining_time job = execution_time job /\ 1 <= execution_time job /\
  completion_time job = None /\ response_time job = None.
Proof.
  intros job.
  destruct (release_new_job_fields rvs n self t)
    as (Hs & Hw & Hr & Hrem & Hex & Hc & Hresp).
  fold job in Hs, Hw, Hr, Hrem, Hex, Hc, Hresp.
  split; [| done].
  unfold TaskOps.is_ready. rewrite Hr, Hrem.
  rewrite andb_true_iff, Z.leb_le, Z.ltb_lt. split; [tauto | lia].
Qed.

(** X5.  A freshly released job with execution time [c] is finished by its
    [c]-th unit tick and not before: the [k+1]-th call of [execute(1)]
    returns True exactly when [c <= k + 1], after [k] ticks the remaining
    time is [max 0 (c - k)], and the job is still ready (at an instant from
    its release on) exactly when [k < c]. *)
Theorem job_finishes_at_its_last_tick (rvs : RandomSource) (n : nat)
    (self : Task) (t t' : Z) (k : nat) :
  let job := (TaskOps.release_new_job rvs n self t).1 in
  remaining_time (run_ticks k job) = Z.max 0 (execution_time job - Z.of_nat k) /\
  ((TaskOps.execute (run_ticks k job) 1).2 = true
     <-> execution_time job <= Z.of_nat k + 1) /\
  (TaskOps.is_ready (run_ticks k job) t' = true
     <-> t <= t' /\ Z.of_nat k < execution_time job).
Proof.
  intros job.
  destruct (release_new_job_fields rvs n self t)
    as (_ & _ & Hr & Hrem & Hex & _).
  fold job in Hr, Hrem, Hex.
  assert (Hk : remaining_time (run_ticks k job)
               = Z.max 0 (execution_time job - Z.of_nat k)).
  { rewrite run_ticks_remaining by lia. by rewrite Hrem. }
  split; [done |]. split.
  - rewrite execute_finished, execute_remaining, Hk. lia.
  - unfold TaskOps.is_ready.
    rewrite run_ticks_release_time, Hr, Hk.
    rewrite andb_true_iff, Z.leb_le, Z.ltb_lt. lia.
Qed.

(** X6.  Executing for [a] units and then for [b >= 0] units is executing
    for [a + b] units at once: same task state, same returned flag. *)
Theorem execute_units_add (self : Task) (a b : Z) :
  0 <= b ->
  TaskOps.execute (TaskOps.execute self a).1 b = TaskOps.execute self (a + b).
Proof.
  intros Hb. unfold TaskOps.execute. simpl.
  assert (E : Z.max 0 (Z.max 0 (remaining_time self - a) - b)
              = Z.max 0 (remaining_time self - (a + b))) by lia.
  by rewrite E.
Qed.

Lemma execute_units_add_witness :
  TaskOps.execute
    (TaskOps.execute (mkTask "A" 4 4 1 4 4 4 0 4 None None 0) 2).1 3
  = TaskOps.execute (mkTask "A" 4 4 1 4 4 4 0 4 None None 0) (2 + 3).
Proof.
  apply (execute_units_add (mkTask "A" 4 4 1 4 4 4 0 4 None None 0) 2 3). lia.
Defined.

(** ** Whole runs *)

Section Runs.

Variable rvs : RandomSource.

(** A property of the initial state that every pass made below the horizon
    keeps holds in the state the loop ends in. *)
Lemma scheduling_invariant (P : State -> Prop) n ts T :
  P (initial_state n ts) ->
  (forall s, P s -> current_time s < T -> P (loop_body rvs s)) ->
  exists k s,
    s = iterate rvs k (initial_state n ts) /\
    rate_monotonic_scheduling rvs n ts T = Some (report s) /\
    P s /\ T <= current_time s.
Proof.
  intros H0 Hstep.
  destruct (scheduling_result rvs n ts T) as (K & Hrun & Hend & Hbefore).
  exists K, (iterate rvs K (initial_state n ts)).
  split; [done |]. split; [done |]. split; [| done].
  assert (Hall : forall j, (j <= K)%nat -> P (iterate rvs j (initial_state n ts))).
  { induction j as [| j IH]; intros Hj; [done |].
    rewrite iterate_succ. apply Hstep; [apply IH; lia | apply Hbefore; lia]. }
  by apply Hall.
Qed.

(** The dispatch writes one log entry, stamped with the clock. *)
Lemma dispatch_log_entry s :
  wf_state s ->
  exists label,
    schedule_log (dispatch s) = schedule_log s ++ [(current_time s, label)] /\
    (label = Idle \/ exists j job, tasks s !! j = Some job /\ label = task_id job).
Proof.
  intros Hwf. destruct (active_jobs s) as [| i l] eqn:Ea.
  - exists Idle. split; [| by left]. unfold dispatch. by rewrite Ea.
  - destruct (dispatch_runs s Hwf) as (j & rest & job & _ & _ & Hjob & Hlog & _).
    { by rewrite Ea. }
    exists (task_id job). split; [done |]. right. eauto.
Qed.

Lemma loop_body_log s :
  wf_state s ->
  exists label,
    schedule_log (loop_body rvs s) = schedule_log s ++ [(current_time s, label)] /\
    (label = Idle \/ label ∈ task_id <$> tasks s).
Proof.
  intros Hwf.
  destruct (dispatch_log_entry (release_jobs rvs s)) as (label & Hlog & Hlab).
  { by apply wf_release_jobs. }
  exists label. unfold loop_body, advance. simpl.
  rewrite Hlog, release_jobs_log, release_jobs_time. split; [done |].
  destruct Hlab as [-> | (j & job & Hjob & ->)]; [by left | right].
  rewrite task_id_of_static, <- (release_jobs_static rvs s), <- task_id_of_static.
  apply list_elem_of_fmap_2. apply list_elem_of_lookup. eauto.
Qed.

(** After [j] passes the log holds one entry per pass, stamped with the
    clock of that pass and labelled Idle or with a task name. *)
Lemma run_log_entries n ts j :
  (schedule_log (iterate rvs j (initial_state n ts))).*1
    = (fun i => current_time (iterate rvs i (initial_state n ts))) <$> seq 0 j /\
  Forall (fun e => e.2 = Idle \/ e.2 ∈ task_id <$> ts)
         (schedule_log (iterate rvs j (initial_state n ts))).
Proof.
  set (s0 := initial_state n ts).
  induction j as [| j [IH1 IH2]]; [split; [done | constructor] |].
  rewrite iterate_succ.
  destruct (loop_body_log (iterate rvs j s0)) as (label & -> & Hlab).
  { apply wf_iterate. }
  split.
  - rewrite fmap_app, IH1, seq_S, fmap_app. done.
  - apply Forall_app. split; [done |]. constructor; [| constructor]. simpl.
    destruct Hlab as [-> | Hin]; [by left | right].
    by rewrite task_id_of_static, iterate_static, <- task_id_of_static in Hin.
Qed.

(** The clock values at the successive loop tests increase strictly. *)
Lemma clock_values_increasing K s0 :
  StronglySorted Z.lt
    ((fun i => current_time (iterate rvs i s0)) <$> seq 0 K).
Proof.
  induction K as [| K IH]; [constructor |].
  rewrite seq_S, fmap_app. simpl.
  apply StronglySorted_app_2; [| done | repeat constructor].
  intros x y Hx Hy. apply list_elem_of_singleton in Hy as ->.
  apply list_elem_of_fmap in Hx as (j & -> & Hj).
  apply elem_of_seq in Hj.
  replace K with (j + (K - j))%nat at 1 by lia.
  rewrite iterate_add.
  pose proof (iterate_time_mono rvs (K - j) (iterate rvs j s0)). lia.
Qed.

End Runs.

(** X7.  The schedule log has exactly one entry per pass of the loop: its
    time stamps are strictly increasing (no tick is logged twice, so no two
    tasks are ever logged as running in the same tick), they lie in
    [0, simulation_time), and every label is either Idle or the name of one
    of the tasks. *)
Theorem log_one_entry_per_pass (rvs : RandomSource) (n : nat)
    (ts : list Task) (simulation_time : Z) :
  exists k s,
    rate_monotonic_scheduling rvs n ts simulation_time = Some s /\
    length (schedule_log s) = k /\
    schedule_log s = schedule_log (iterate rvs k (initial_state n ts)) /\
    (schedule_log s).*1
      = (fun j => current_time (iterate rvs j (initial_state n ts))) <$> seq 0 k /\
    StronglySorted Z.lt (schedule_log s).*1 /\
    Forall (fun e => 0 <= e.1 < simulation_time /\
                     (e.2 = Idle \/ e.2 ∈ task_id <$> ts)) (schedule_log s).
Proof.
  destruct (scheduling_result rvs n ts simulation_time) as (K & Hrun & Hend & Hbefore).
  set (s0 := initial_state n ts) in *.
  destruct (run_log_entries rvs n ts K) as [Htimes Hlabels].
  fold s0 in Htimes, Hlabels.
  exists K, (report (iterate rvs K s0)).
  split; [done |]. simpl.
  assert (Hlen : length (schedule_log (iterate rvs K s0)) = K).
  { rewrite <- (length_fmap fst), Htimes, length_fmap. apply length_seq. }
  split; [done |]. split; [done |]. split; [done |].
  assert (Hbound : forall j, (j < K)%nat ->
            0 <= current_time (iterate rvs j s0) < simulation_time).
  { intros j Hj. split; [| by apply Hbefore].
    pose proof (iterate_time_mono rvs j s0). simpl in *. lia. }
  split.
  - rewrite Htimes. apply clock_values_increasing.
  - apply Forall_forall. intros e He.
    split; [| by apply (proj1 (Forall_forall _ _) Hlabels)].
    assert (Hin : e.1 ∈ (schedule_log (iterate rvs K s0)).*1)
      by (by apply list_elem_of_fmap_2).
    rewrite Htimes in Hin.
    apply list_elem_of_fmap in Hin as (j & -> & Hj).
    apply elem_of_seq in Hj. apply Hbound. lia.
Qed.

(** ** The task records during a run *)

Section Coherence.

Variable rvs : RandomSource.

Lemma coherent_mono (t t' : Z) (task : Task) :
  t <= t' -> coherent t task -> coherent t' task.
Proof.
  unfold coherent. intros Hle (H1 & H2 & H3 & H4 & H5).
  repeat split; try lia.
  destruct (completion_time task), (response_time task); try done.
  destruct H5 as (? & ? & ? & ?). repeat split; lia.
Qed.

Lemma records_ok_initial n m rows :
  records_ok 0 (initial_state m (build_tasks rvs n rows).1).
Proof.
  split; [done |]. split; [| constructor]. simpl.
  pose proof (build_tasks_built_from rvs n rows) as H.
  induction H as [| r t rows' ts Hb _ IH]; constructor; [| done].
  destruct Hb as (_ & Hex & Hrem & Hrel & Hc & Hr & Hw).
  unfold coherent. rewrite Hrem, Hrel, Hc, Hr, Hw. repeat split; lia.
Qed.

Lemma records_ok_release_one s i :
  records_ok 0 s -> records_ok 0 (release_one rvs s i).
Proof.
  intros H. unfold release_one.
  destruct (tasks s !! i) as [task |] eqn:Ei; [| done].
  destruct (job_release_times s !! task_id task) as [r |]; [| done].
  destruct (decide (current_time s = r)) as [_ | _]; [| done].
  destruct (release_new_job_fields rvs (draws s) task (current_time s))
    as (_ & Hw & Hr & Hrem & Hex & Hc & Hresp).
  destruct (TaskOps.release_new_job rvs (draws s) task (current_time s))
    as [task' n'].
  simpl in Hw, Hr, Hrem, Hex, Hc, Hresp.
  destruct H as (Ht & Hts & Hout). unfold records_ok. simpl.
  split; [done |]. split.
  - apply Forall_insert; [done |].
    pose proof (proj1 (Forall_lookup _ _) Hts i task Ei) as (_ & _ & _ & Hwc & _).
    unfold coherent. rewrite Hw, Hr, Hrem, Hc, Hresp. repeat split; lia.
  - apply Forall_app. split; [done |]. repeat constructor; simpl; lia.
Qed.

Lemma records_ok_dispatch s :
  wf_state s -> records_ok 0 s -> records_ok 1 (dispatch s).
Proof.
  intros Hwf (Ht & Hts & Hout).
  assert (Hmono : Forall (coherent (current_time s + 1)) (tasks s)).
  { eapply Forall_impl; [exact Hts |]. intros x. apply coherent_mono. lia. }
  destruct (active_jobs s) as [| i0 l0] eqn:Ea.
  { unfold dispatch. rewrite Ea. simpl. done. }
  destruct (dispatch_runs s Hwf) as (j & rest & job & Hsort & _ & Hjob & _).
  { by rewrite Ea. }
  unfold dispatch. rewrite Hsort, Hjob.
  pose proof (proj1 (Forall_lookup _ _) Hts j job Hjob) as Hcoh.
  rewrite Z.add_0_r in Hcoh.
  destruct Hcoh as (Hex & Hrem & Hrel & Hw & Hcr).
  unfold TaskOps.execute, TaskOps.calculate_response_time.
  cbn [fst snd remaining_time release_time task_id wcrt].
  destruct (Z.max 0 (remaining_time job - 1) =? 0) eqn:Ef;
    unfold records_ok;
    cbn [current_time tasks output response_time task_id remaining_time].
  - apply Z.eqb_eq in Ef. split; [done |]. split.
    + apply Forall_insert; [done |]. unfold coherent. simpl.
      rewrite Ef. repeat split; lia.
    + rewrite !Forall_app. split; [split; [done |] |];
        repeat constructor; simpl; try lia.
      eexists. split; [done |]. lia.
  - apply Z.eqb_neq in Ef. split; [done |]. split.
    + apply Forall_insert; [done |]. unfold coherent. simpl.
      split; [done |]. split; [lia |]. split; [lia |]. split; [lia |].
      destruct (completion_time job), (response_time job); try done.
      destruct Hcr as (_ & _ & H0 & _). rewrite H0 in Ef. simpl in Ef. lia.
    + apply Forall_app. split; [done |]. repeat constructor; simpl; lia.
Qed.

Lemma records_ok_advance s : records_ok 1 s -> records_ok 0 (advance s).
Proof.
  intros (Ht & Hts & Hout). unfold records_ok, advance. simpl.
  pose proof (AdvanceTime_positive (current_time s) (tasks s)
                (job_release_times s) (active_jobs s)).
  split; [lia |]. split; [| done].
  eapply Forall_impl; [exact Hts |]. intros x. apply coherent_mono. lia.
Qed.

Lemma records_ok_loop_body s :
  wf_state s -> records_ok 0 s -> records_ok 0 (loop_body rvs s).
Proof.
  intros Hwf H. unfold loop_body.
  apply records_ok_advance, records_ok_dispatch; [by apply wf_release_jobs |].
  apply (release_jobs_ind rvs (records_ok 0)); [| done].
  intros s' i. apply records_ok_release_one.
Qed.

Lemma records_ok_iterate n m rows k :
  records_ok 0 (iterate rvs k (initial_state m (build_tasks rvs n rows).1)).
Proof.
  induction k as [| k IH]; [apply records_ok_initial |].
  rewrite iterate_succ. apply records_ok_loop_body; [apply wf_iterate | done].
Qed.

End Coherence.

(** X8.  Start a run on freshly constructed tasks.  At every loop test, and
    in the state the run ends in, every task record is coherent: its
    execution time is at least 1, [0 <= remaining_time <= execution_time],
    its release instant lies in [0, current_time], its wcrt in
    [0, current_time]; completion and response times are both unset or both
    set, and when set the response time is completion minus release, the
    completion lies after the release and not after the clock, nothing
    remains to execute, and the wcrt is at least that response time. *)
Theorem task_records_stay_coherent (rvs : RandomSource) (n m : nat)
    (rows : list Row) (simulation_time : Z) :
  (forall k,
     let s := iterate rvs k (initial_state m (build_tasks rvs n rows).1) in
     Forall (coherent (current_time s)) (tasks s)) /\
  exists s,
    rate_monotonic_scheduling rvs m (build_tasks rvs n rows).1 simulation_time
      = Some s /\
    Forall (coherent (current_time s)) (tasks s).
Proof.
  assert (H : forall k,
    Forall (coherent (current_time
              (iterate rvs k (initial_state m (build_tasks rvs n rows).1))))
           (tasks (iterate rvs k (initial_state m (build_tasks rvs n rows).1)))).
  { intros k. destruct (records_ok_iterate rvs n m rows k) as (_ & Hk & _).
    by rewrite Z.add_0_r in Hk. }
  split; [exact H |].
  destruct (scheduling_result rvs m (build_tasks rvs n rows).1 simulation_time)
    as (k & Hrun & _).
  eexists. split; [exact Hrun |]. apply H.
Qed.

(** X9.  In a run on freshly constructed tasks every printed line is
    sound: a release line carries an execution time of at least 1, a run
    line a remaining time that is not negative, a completion line a response
    time [r] with [1 <= r <= completion instant], and the final WCRT lines
    are not negative; all instants are non-negative. *)
Theorem printed_lines_are_sound (rvs : RandomSource) (n m : nat)
    (rows : list Row) (simulation_time : Z) :
  exists s,
    rate_monotonic_scheduling rvs m (build_tasks rvs n rows).1 simulation_time
      = Some s /\
    Forall line_ok (output s).
Proof.
  destruct (scheduling_result rvs m (build_tasks rvs n rows).1 simulation_time)
    as (k & Hrun & _).
  eexists. split; [exact Hrun |].
  destruct (records_ok_iterate rvs n m rows k) as (_ & Hts & Hout).
  simpl. apply Forall_app. split; [done |].
  apply Forall_fmap. eapply Forall_impl; [exact Hts |].
  intros t (_ & _ & _ & Hw & _). simpl. lia.
Qed.

(** ** What a run leaves untouched *)

Section Untouched.

Variable rvs : RandomSource.

Lemma initial_release_times_dom (ts : list Task) :
  dom (initial_release_times ts) = list_to_set (task_id <$> ts).
Proof.
  induction ts as [| t ts IH]; simpl.
  - apply dom_empty_L.
  - by rewrite dom_insert_L, IH.
Qed.

Lemma release_one_dom s i :
  dom (job_release_times (release_one rvs s i)) = dom (job_release_times s).
Proof.
  unfold release_one.
  destruct (tasks s !! i) as [task |]; [| done].
  destruct (job_release_times s !! task_id task) as [r |] eqn:Er; [| done].
  destruct (decide (current_time s = r)); [| done].
  destruct (TaskOps.release_new_job rvs (draws s) task (current_time s)).
  simpl. rewrite dom_insert_L.
  apply subseteq_union_1_L, singleton_subseteq_l, elem_of_dom. eauto.
Qed.

Lemma run_dom s s' :
  rtc (move rvs) s s' ->
  dom (job_release_times s') = dom (job_release_times s).
Proof.
  intros H.
  eapply (moves_invariant rvs
    (fun x => dom (job_release_times x) = dom (job_release_times s)));
    [| | | exact H | done].
  - intros x i Hx. by rewrite release_one_dom.
  - intros x Hx. by rewrite dispatch_release_times.
  - intros x Hx. exact Hx.
Qed.

End Untouched.

(** X10.  A run never touches the static fields of the tasks (name, period,
    deadline, priority, bcet, wcet), never adds or drops a task, leaves no
    job in [active_jobs] that points outside the task list, and keeps the
    keys of [job_release_times] equal to the set of task names. *)
Theorem run_keeps_static (rvs : RandomSource) (n : nat) (ts : list Task)
    (simulation_time : Z) :
  exists s,
    rate_monotonic_scheduling rvs n ts simulation_time = Some s /\
    static <$> tasks s = static <$> ts /\
    length (tasks s) = length ts /\
    dom (job_release_times s) = list_to_set (task_id <$> ts) /\
    Forall (fun i => (i < length ts)%nat) (active_jobs s).
Proof.
  destruct (scheduling_result rvs n ts simulation_time) as (k & Hrun & _).
  eexists. split; [exact Hrun |]. simpl.
  pose proof (iterate_static rvs k (initial_state n ts)) as Hst.
  split; [done |].
  assert (Hlen : length (tasks (iterate rvs k (initial_state n ts))) = length ts)
    by (by apply static_length).
  split; [done |]. split.
  - rewrite (run_dom rvs (initial_state n ts)) by apply iterate_moves.
    apply initial_release_times_dom.
  - destruct (wf_iterate rvs k n ts) as [Hrefs _].
    unfold refs_valid in Hrefs. by rewrite Hlen in Hrefs.
Qed.

(** ** Task sets without jitter *)

Section NoJitter.

Variables rvs1 rvs2 : RandomSource.

Lemma release_one_degenerate s i :
  all_degenerate s ->
  release_one rvs1 s i = release_one rvs2 s i /\
  draws (release_one rvs1 s i) = draws s /\
  all_degenerate (release_one rvs1 s i).
Proof.
  intros H. unfold release_one.
  destruct (tasks s !! i) as [task |] eqn:Ei; [| done].
  destruct (job_release_times s !! task_id task) as [r |]; [| done].
  destruct (decide (current_time s = r)); [| done].
  pose proof (proj1 (Forall_lookup _ _) H i task Ei) as Hd. simpl in Hd.
  unfold TaskOps.release_new_job. rewrite Hd, !sample_degenerate.
  split; [done |]. split; [done |].
  unfold all_degenerate. simpl. apply Forall_insert; [done | done].
Qed.

Lemma release_jobs_degenerate s :
  all_degenerate s ->
  release_jobs rvs1 s = release_jobs rvs2 s /\
  draws (release_jobs rvs1 s) = draws s /\
  all_degenerate (release_jobs rvs1 s).
Proof.
  unfold release_jobs. generalize (seq 0 (length (tasks s))). intros l.
  revert s. induction l as [| i l IH]; intros s H; [done |]. simpl.
  destruct (release_one_degenerate s i H) as (E & Hd & Ha).
  rewrite <- E. destruct (IH _ Ha) as (E' & Hd' & Ha').
  rewrite Hd' , Hd. done.
Qed.

Lemma dispatch_degenerate s : all_degenerate s -> all_degenerate (dispatch s).
Proof.
  unfold all_degenerate. intros H.
  assert (Hs : Forall (fun p => p.1.2 = p.2) (static <$> tasks s)).
  { apply Forall_fmap. eapply Forall_impl; [exact H |]. by intros t. }
  rewrite <- dispatch_static in Hs. apply Forall_fmap in Hs.
  eapply Forall_impl; [exact Hs |]. by intros t.
Qed.

Lemma loop_body_degenerate s :
  all_degenerate s ->
  loop_body rvs1 s = loop_body rvs2 s /\
  draws (loop_body rvs1 s) = draws s /\
  all_degenerate (loop_body rvs1 s).
Proof.
  intros H. destruct (release_jobs_degenerate s H) as (E & Hd & Ha).
  unfold loop_body. rewrite <- E. split; [done |].
  split; [simpl; by rewrite dispatch_draws |].
  unfold all_degenerate, advance. simpl. by apply dispatch_degenerate.
Qed.

Lemma while_loop_degenerate fuel T s :
  all_degenerate s ->
  while_loop rvs1 fuel T s = while_loop rvs2 fuel T s /\
  forall s', while_loop rvs1 fuel T s = Some s' -> draws s' = draws s.
Proof.
  revert s. induction fuel as [| fuel IH]; intros s H; simpl.
  - split; [done |]. intros s'. destruct (decide _); [done |]. by intros [= <-].
  - destruct (decide _); [| split; [done | by intros s' [= <-]]].
    destruct (loop_body_degenerate s H) as (E & Hd & Ha).
    rewrite <- E. destruct (IH _ Ha) as [E' Hd'].
    split; [done |]. intros s' Hs'. rewrite (Hd' s' Hs'). done.
Qed.

End NoJitter.

(** X11.  When every task has [bcet = wcet], a run makes no draw at all: the
    result is the same for any two random sources, whatever they hold, and
    the count of draws at the end is the count at the start. *)
Theorem degenerate_tasks_need_no_randomness (rvs1 rvs2 : RandomSource)
    (n : nat) (ts : list Task) (simulation_time : Z) :
  Forall (fun t => bcet t = wcet t) ts ->
  exists s,
    rate_monotonic_scheduling rvs1 n ts simulation_time = Some s /\
    rate_monotonic_scheduling rvs2 n ts simulation_time = Some s /\
    draws s = n.
Proof.
  intros H.
  destruct (scheduling_result rvs1 n ts simulation_time) as (k & Hrun & _).
  destruct (while_loop_degenerate rvs1 rvs2 (Z.to_nat simulation_time)
              simulation_time (initial_state n ts) H) as [E Hd].
  unfold rate_monotonic_scheduling in *. rewrite <- E.
  destruct (while_loop rvs1 (Z.to_nat simulation_time) simulation_time
              (initial_state n ts)) as [s' |]; [| done].
  exists (report s'). split; [done |]. split; [done |].
  simpl. by rewrite (Hd s' eq_refl).
Qed.

Lemma degenerate_tasks_need_no_randomness_witness :
  exists s,
    rate_monotonic_scheduling (fun _ => 1 # 3) 0
      (scenario_tasks no_draws 4 6) 12 = Some s /\
    rate_monotonic_scheduling (fun _ => 7 # 2) 0
      (scenario_tasks no_draws 4 6) 12 = Some s /\
    draws s = 0%nat.
Proof.
  apply (degenerate_tasks_need_no_randomness (fun _ => 1 # 3) (fun _ => 7 # 2)
           0 (scenario_tasks no_draws 4 6) 12).
  repeat constructor.
Defined.

(** ** The time advance *)

Lemma AdvanceTime_never_skips_release_aux (t : Z) (ts : list Task)
    (m : gmap string Z) (a : list nat) (k : string) (v : Z) :
  m !! k = Some v -> t < v -> t + AdvanceTime t ts m a <= v.
Proof.
  intros Hk Hv. destruct a as [| i l].
  - assert (Hf : future_release m t v) by (split; eauto).
    destruct (AdvanceTime_future t ts m v Hf) as (r & -> & _ & Hmin).
    replace (t + (r - t)) with r by lia. by apply Hmin.
  - rewrite AdvanceTime_active. lia.
Qed.

(** X12.  The time advance never jumps over a release: every release
    instant that lies after [current_time] still does not lie before the
    advanced clock; and the step is either 1 or lands exactly on a release
    instant. *)
Theorem AdvanceTime_never_skips_release (t : Z) (ts : list Task)
    (m : gmap string Z) (a : list nat) (k : string) (v : Z) :
  m !! k = Some v -> t < v ->
  t + AdvanceTime t ts m a <= v /\
  (AdvanceTime t ts m a = 1 \/
   exists k', m !! k' = Some (t + AdvanceTime t ts m a)).
Proof.
  intros Hk Hv. destruct a as [| i l].
  - assert (Hf : future_release m t v) by (split; eauto).
    destruct (AdvanceTime_future t ts m v Hf) as (r & -> & [_ [k' Hk']] & Hmin).
    replace (t + (r - t)) with r by lia.
    split; [by apply Hmin | eauto].
  - rewrite AdvanceTime_active. split; [lia | by left].
Qed.

Lemma AdvanceTime_never_skips_release_witness :
  0 + AdvanceTime 0 [] (<["A" := 4]> (<["B" := 6]> ∅)) [] <= 6 /\
  (AdvanceTime 0 [] (<["A" := 4]> (<["B" := 6]> ∅)) [] = 1 \/
   exists k', (<["A" := 4]> (<["B" := 6]> ∅) : gmap string Z) !! k'
              = Some (0 + AdvanceTime 0 [] (<["A" := 4]> (<["B" := 6]> ∅)) [])).
Proof.
  apply (AdvanceTime_never_skips_release 0 [] (<["A" := 4]> (<["B" := 6]> ∅))
           [] "B" 6); [reflexivity | lia].
Defined.

(** ** Positive periods: releases on the period grid *)

Section Grid.

Variable rvs : RandomSource.
Variable ts : list Task.
Hypothesis periods_pos : Forall (fun t => 0 < period t) ts.

Lemma key_period_static (l l' : list Task) (k : string) :
  static <$> l = static <$> l' -> key_period l k = key_period l' k.
Proof.
  revert l'. induction l as [| t l IH]; intros [| t' l'] H; try done.
  pose proof (f_equal head H) as H1. pose proof (f_equal tail H) as H2.
  simpl in H1, H2 |- *. unfold static in H1.
  assert (task_id t = task_id t') by congruence.
  assert (period t = period t') by congruence.
  rewrite (IH l' H2). destruct (decide (task_id t = k)) as [E | E].
  - rewrite decide_True by congruence. congruence.
  - rewrite decide_False by congruence. done.
Qed.

Lemma key_period_Some (l : list Task) (k : string) (p : Z) :
  key_period l k = Some p ->
  exists i t, l !! i = Some t /\ task_id t = k /\ period t = p.
Proof.
  induction l as [| t l IH]; simpl; [done |].
  destruct (decide (task_id t = k)) as [E | E].
  - intros [= <-]. by exists 0%nat, t.
  - intros H. destruct (IH H) as (i & t' & Hi & Hid & Hp).
    by exists (S i), t'.
Qed.

Lemma key_period_elem (l : list Task) (k : string) :
  k ∈ task_id <$> l -> is_Some (key_period l k).
Proof.
  induction l as [| t l IH]; simpl; [by intros H%elem_of_nil |].
  intros H. destruct (decide (task_id t = k)); [eauto |].
  apply IH. apply elem_of_cons in H as [-> | H]; done.
Qed.

Lemma key_period_first (l : list Task) (i : nat) (task : Task) :
  l !! i = Some task ->
  (forall j t', (j < i)%nat -> l !! j = Some t' -> task_id t' <> task_id task) ->
  key_period l (task_id task) = Some (period task).
Proof.
  revert i. induction l as [| t l IH]; intros i Hi Hfirst; [done |]. simpl.
  destruct i as [| i]; simpl in Hi.
  - injection Hi as ->. by rewrite decide_True.
  - rewrite decide_False by (apply (Hfirst 0%nat t); [lia | done]).
    apply (IH i); [done |]. intros j t' Hj Hl.
    apply (Hfirst (S j) t'); [lia | done].
Qed.

Lemma key_period_positive (k : string) (p : Z) :
  key_period ts k = Some p -> 0 < p.
Proof.
  intros H. destruct (key_period_Some ts k p H) as (i & t & Hi & _ & <-).
  by apply (proj1 (Forall_lookup _ _) periods_pos i t).
Qed.

Lemma grid_head_initial n : grid_head ts (initial_state n ts).
Proof.
  split; [done |]. split; [done |]. split; [| split; [| constructor]].
  - intros k v. simpl. rewrite initial_release_times_lookup.
    destruct (decide (k ∈ task_id <$> ts)) as [Hin |]; [| done].
    intros [= <-]. destruct (key_period_elem ts k Hin) as [p Hp].
    exists p. split; [done |]. split; [apply Z.divide_0_r |].
    pose proof (key_period_positive k p Hp). lia.
  - intros k v. simpl. rewrite initial_release_times_lookup.
    destruct (decide _); [| done]. intros [= <-]. lia.
Qed.

Lemma grid_release_one j s :
  grid_head ts s -> handled (current_time s) j s ->
  grid_head ts (release_one rvs s j) /\
  handled (current_time s) (S j) (release_one rvs s j).
Proof.
  intros Hg Hdone. assert (Hg' := Hg).
  destruct Hg' as (Ht & Hst & Hgrid & Hfrom & Hout).
  unfold release_one.
  destruct (tasks s !! j) as [task |] eqn:Ej.
  2:{ split; [done |]. intros i task Hi Hl.
      assert (i <> j) by congruence. apply (Hdone i task); [lia | done]. }
  destruct (job_release_times s !! task_id task) as [r |] eqn:Er.
  2:{ split; [done |]. intros i task' Hi Hl.
      destruct (decide (i = j)) as [-> | Hne].
      - assert (task' = task) by congruence. subst. by rewrite Er.
      - apply (Hdone i task'); [lia | done]. }
  destruct (decide (current_time s = r)) as [Hr | Hr].
  2:{ split; [done |]. intros i task' Hi Hl.
      destruct (decide (i = j)) as [-> | Hne].
      - assert (task' = task) by congruence. subst. rewrite Er.
        intros [= E]. lia.
      - apply (Hdone i task'); [lia | done]. }
  subst r.
  assert (Hkp : key_period ts (task_id task) = Some (period task)).
  { rewrite <- (key_period_static (tasks s) ts) by done.
    apply (key_period_first _ j); [done |].
    intros i t' Hi Hl Hid. apply (Hdone i t' Hi Hl). by rewrite Hid. }
  pose proof (key_period_positive _ _ Hkp) as Hp.
  destruct (Hgrid _ _ Er) as (p0 & Hp0 & Hdiv & _).
  assert (p0 = period task) by congruence. subst p0.
  unfold TaskOps.release_new_job.
  destruct (sample rvs (draws s) (bcet task) (wcet task)) as [c n'].
  unfold grid_head, on_grid, releases_from, handled.
  cbn [current_time tasks job_release_times output task_id].
  split; [split; [done |]; split; [| split; [| split]] |].
  - by erewrite static_insert.
  - intros k v H.
    apply lookup_insert_Some in H as [[<- <-] | [_ H]]; [| eauto].
    exists (period task). split; [done |].
    split; [by apply Z.divide_add_r, Z.divide_refl | lia].
  - intros k v H.
    apply lookup_insert_Some in H as [[_ <-] | [_ H]]; [lia | eauto].
  - apply Forall_app. split; [done |]. constructor; [| constructor].
    simpl. eauto.
  - intros i task' Hi Hl. apply list_lookup_insert_Some in Hl.
    rewrite (lookup_insert (M:=gmap string)).
    destruct Hl as [(-> & <- & _) | [Hne Hl]]; simpl.
    + rewrite decide_True by done. intros [= E]. lia.
    + destruct (decide (task_id task = task_id task')) as [_ | _].
      * intros [= E]. lia.
      * apply (Hdone i task'); [lia | done].
Qed.

Lemma grid_release_prefix s j :
  grid_head ts s ->
  grid_head ts (release_prefix rvs s j) /\
  handled (current_time s) j (release_prefix rvs s j).
Proof.
  intros Hg. induction j as [| j [IH1 IH2]].
  - split; [done |]. intros i task Hi. lia.
  - rewrite release_prefix_succ.
    rewrite <- (release_prefix_time rvs s j) in IH2 |- *.
    by apply grid_release_one.
Qed.

(** After the release step every release instant lies in the future. *)
Lemma grid_release_jobs s :
  grid_head ts s ->
  grid_head ts (release_jobs rvs s) /\
  forall k v, job_release_times (release_jobs rvs s) !! k = Some v ->
              current_time s < v.
Proof.
  intros Hg.
  destruct (grid_release_prefix s (length (tasks s)) Hg) as [Hg1 Hdone].
  change (release_prefix rvs s (length (tasks s)))
    with (release_jobs rvs s) in Hg1, Hdone.
  split; [done |]. intros k v Hkv.
  destruct Hg1 as (_ & Hst & Hgrid & Hfrom & _).
  rewrite release_jobs_time in Hfrom, Hgrid.
  pose proof (Hfrom k v Hkv) as Hle.
  destruct (decide (v = current_time s)) as [-> |]; [exfalso | lia].
  destruct (Hgrid k _ Hkv) as (p & Hp & _).
  destruct (key_period_Some ts k p Hp) as (i & t0 & Hi & Hid & _).
  destruct (static_lookup (tasks (release_jobs rvs s)) ts i t0 (eq_sym Hst) Hi)
    as (t1 & Hi1 & Heq).
  assert (Hid1 : task_id t1 = k) by (unfold static in Heq; congruence).
  apply (Hdone i t1); [| done | by rewrite Hid1].
  pose proof (static_length _ _ (release_jobs_static rvs s)) as Hlen.
  rewrite <- Hlen. by eapply lookup_lt_Some.
Qed.

Lemma grid_loop_body s : grid_head ts s -> grid_head ts (loop_body rvs s).
Proof.
  intros Hg. destruct (grid_release_jobs s Hg) as [Hg1 Hlater].
  destruct Hg as (Ht & _).
  destruct Hg1 as (_ & Hst & Hgrid & _ & Hout).
  rewrite release_jobs_time in Hgrid.
  pose proof (loop_body_progress rvs s) as Hprog.
  unfold grid_head, on_grid, releases_from.
  rewrite loop_body_static.
  replace (job_release_times (loop_body rvs s))
    with (job_release_times (release_jobs rvs s))
    by (unfold loop_body, advance; simpl; by rewrite dispatch_release_times).
  split; [lia |]. split; [by rewrite <- (release_jobs_static rvs s) |].
  split; [| split].
  - intros k v Hkv. destruct (Hgrid k v Hkv) as (p & Hp & Hdiv & Hle).
    exists p. split; [done |]. split; [done | lia].
  - intros k v Hkv.
    pose proof (Hlater k v Hkv) as Hlt.
    rewrite loop_body_time, dispatch_release_times.
    apply (AdvanceTime_never_skips_release_aux _ _ _ _ k v Hkv Hlt).
  - unfold loop_body, advance. simpl.
    set (s1 := release_jobs rvs s) in *. clearbody s1.
    unfold dispatch.
    destruct (sorted (priority_of (tasks s1)) (active_jobs s1)); [done |].
    destruct (tasks s1 !! n); [| done].
    unfold TaskOps.execute, TaskOps.calculate_response_time. simpl.
    destruct (Z.max 0 (remaining_time t - 1) =? 0); simpl;
      rewrite ?Forall_app; repeat split; try done; repeat constructor.
Qed.

Lemma grid_iterate n k : grid_head ts (iterate rvs k (initial_state n ts)).
Proof.
  induction k as [| k IH]; [apply grid_head_initial |].
  rewrite iterate_succ. by apply grid_loop_body.
Qed.

(** Below a horizon that is a common multiple of the periods, no release
    instant lies beyond the horizon, and a pass does not overshoot it. *)
Lemma grid_within_horizon H s :
  Forall (fun t => (period t | H)) ts ->
  grid_head ts s -> current_time s < H ->
  current_time (loop_body rvs s) <= H.
Proof.
  intros Hdiv Hg Hlt. destruct (grid_release_jobs s Hg) as [Hg1 Hlater].
  destruct Hg1 as (_ & _ & Hgrid & _).
  rewrite release_jobs_time in Hgrid.
  rewrite loop_body_time, dispatch_release_times.
  destruct (active_jobs (dispatch (release_jobs rvs s))) as [| i l].
  2:{ rewrite AdvanceTime_active. lia. }
  destruct (filter (fun r => current_time s < r)
              (dict_values (job_release_times (release_jobs rvs s))))
    as [| x l] eqn:E.
  { unfold AdvanceTime. rewrite E. lia. }
  assert (Hx : future_release (job_release_times (release_jobs rvs s))
                 (current_time s) x).
  { apply elem_of_future. rewrite E. apply elem_of_cons. by left. }
  destruct (AdvanceTime_future (current_time s)
              (tasks (dispatch (release_jobs rvs s)))
              (job_release_times (release_jobs rvs s)) x Hx)
    as (r & -> & [Hr [k Hk]] & _).
  destruct (Hgrid k r Hk) as (p & Hp & [a Ha] & Hle).
  pose proof (key_period_positive k p Hp) as Hpos.
  destruct (key_period_Some ts k p Hp) as (i & t0 & Hi & _ & Hper).
  pose proof (proj1 (Forall_lookup _ _) Hdiv i t0 Hi) as [b Hb].
  simpl in Hb. rewrite Hper in Hb.
  replace (current_time s + (r - current_time s)) with r by lia.
  destruct (Z.le_gt_cases a b) as [Hab | Hab].
  - rewrite Ha, Hb. by apply Z.mul_le_mono_nonneg_r; [lia |].
  - assert ((b + 1) * p <= a * p) by (apply Z.mul_le_mono_nonneg_r; lia).
    lia.
Qed.

End Grid.

(** X13.  With positive periods, tasks are released on the grid of their
    period: every release line is printed at a multiple of the period of the
    first task carrying that name, and at the end of the run every pending
    release instant is such a multiple, not behind the clock and at most one
    period ahead of it. *)
Theorem releases_on_period_grid (rvs : RandomSource) (n : nat)
    (ts : list Task) (simulation_time : Z) :
  Forall (fun t => 0 < period t) ts ->
  exists s,
    rate_monotonic_scheduling rvs n ts simulation_time = Some s /\
    Forall (event_ok ts) (output s) /\
    forall k v, job_release_times s !! k = Some v ->
      exists p, key_period ts k = Some p /\ (p | v) /\
                current_time s <= v <= current_time s + p.
Proof.
  intros Hpos.
  destruct (scheduling_result rvs n ts simulation_time) as (k & Hrun & _).
  destruct (grid_iterate rvs ts Hpos n k) as (_ & _ & Hgrid & Hfrom & Hout).
  eexists. split; [exact Hrun |]. simpl. split.
  - apply Forall_app. split; [done |]. apply Forall_fmap.
    by apply Forall_true.
  - intros key v Hkv. destruct (Hgrid key v Hkv) as (p & Hp & Hdiv & Hle).
    exists p. pose proof (Hfrom key v Hkv). auto.
Qed.

Lemma releases_on_period_grid_witness :
  exists s,
    rate_monotonic_scheduling no_draws 0 (scenario_tasks no_draws 4 6) 12
      = Some s /\
    Forall (event_ok (scenario_tasks no_draws 4 6)) (output s) /\
    forall k v, job_release_times s !! k = Some v ->
      exists p, key_period (scenario_tasks no_draws 4 6) k = Some p /\
                (p | v) /\ current_time s <= v <= current_time s + p.
Proof.
  apply (releases_on_period_grid no_draws 0 (scenario_tasks no_draws 4 6) 12).
  vm_compute. repeat constructor.
Defined.

(** X14.  With positive periods and a horizon that is a non-negative common
    multiple of all periods (what the main program computes), the loop ends
    with [current_time] exactly equal to the horizon: the idle skip never
    carries the clock past the end of the hyperperiod. *)
Theorem horizon_reached_exactly (rvs : RandomSource) (n : nat)
    (ts : list Task) (H : Z) :
  Forall (fun t => 0 < period t) ts ->
  0 <= H ->
  Forall (fun t => (period t | H)) ts ->
  exists s,
    rate_monotonic_scheduling rvs n ts H = Some s /\ current_time s = H.
Proof.
  intros Hpos H0 Hdiv.
  destruct (scheduling_invariant rvs
              (fun s => grid_head ts s /\ current_time s <= H) n ts H)
    as (k & s & _ & Hrun & [_ Hle] & Hge).
  - split; [by apply grid_head_initial | done].
  - intros s [Hg _] Hlt. split; [by apply grid_loop_body |].
    by apply (grid_within_horizon rvs ts Hpos).
  - exists (report s). split; [done |]. simpl. lia.
Qed.

Lemma horizon_reached_exactly_witness :
  exists s,
    rate_monotonic_scheduling no_draws 0 (scenario_tasks no_draws 4 6) 12
      = Some s /\ current_time s = 12.
Proof.
  apply (horizon_reached_exactly no_draws 0 (scenario_tasks no_draws 4 6) 12).
  - vm_compute. repeat constructor.
  - lia.
  - repeat constructor; simpl; [by exists 3 | by exists 2].
Defined.

(** ** The chart *)

Section Chart.

Lemma sorted_strings_perm (X : gset string) : sorted_strings X ≡ₚ elements X.
Proof. apply merge_sort_Permutation. Qed.

Lemma sorted_strings_elem (X : gset string) (x : string) :
  x ∈ sorted_strings X <-> x ∈ X.
Proof. by rewrite sorted_strings_perm, elem_of_elements. Qed.

Lemma sorted_strings_NoDup (X : gset string) : NoDup (sorted_strings X).
Proof. rewrite sorted_strings_perm. apply NoDup_elements. Qed.

Lemma sorted_strings_sorted (X : gset string) :
  StronglySorted String.le (sorted_strings X).
Proof. apply StronglySorted_merge_sort; apply _. Qed.

Lemma assign_rows_notin (i : nat) (names : list string)
    (m : gmap string nat) (x : string) :
  x ∉ names -> assign_rows i names m !! x = m !! x.
Proof.
  revert i m. induction names as [| y names IH]; intros i m Hx; [done |].
  simpl. apply not_elem_of_cons in Hx as [Hne Hx].
  rewrite IH by done. by rewrite lookup_insert_ne.
Qed.

Lemma assign_rows_lookup (i : nat) (names : list string)
    (m : gmap string nat) (j : nat) (x : string) :
  NoDup names -> names !! j = Some x ->
  assign_rows i names m !! x = Some (i + j)%nat.
Proof.
  revert i m j. induction names as [| y names IH]; intros i m j Hnd Hj; [done |].
  apply NoDup_cons in Hnd as [Hy Hnd]. simpl.
  destruct j as [| j]; simpl in Hj.
  - injection Hj as ->. rewrite assign_rows_notin by done.
    rewrite lookup_insert_eq. f_equal. lia.
  - rewrite (IH (S i) _ j) by done. f_equal. lia.
Qed.

Lemma assign_rows_dom (i : nat) (names : list string) (m : gmap string nat) :
  dom (assign_rows i names m) = list_to_set names ∪ dom m.
Proof.
  revert i m. induction names as [| y names IH]; intros i m; simpl.
  - by rewrite (left_id_L ∅ (∪)).
  - rewrite IH, dom_insert_L.
    by rewrite (assoc_L (∪)), (comm_L (∪) (list_to_set names)).
Qed.

Lemma draw_bars_ok (y_pos : gmap string nat) (log : list (Z * string)) :
  (forall e, e ∈ log -> e.2 <> Idle -> is_Some (y_pos !! e.2)) ->
  exists drawn,
    draw_bars y_pos log = Ok drawn /\
    Forall2 (bar_of y_pos) (filter (fun e => e.2 <> Idle) log) drawn.
Proof.
  induction log as [| [t lab] log IH]; intros Hall.
  - exists []. split; [done | constructor].
  - destruct IH as (drawn & Hd & Hf).
    { intros e He. apply Hall. apply elem_of_cons. by right. }
    simpl. rewrite filter_cons. simpl.
    destruct (decide (lab = Idle)) as [-> | Hne].
    + rewrite decide_False by (intros H; by apply H). eauto.
    + rewrite decide_True by done.
      destruct (Hall (t, lab)) as [y Hy]; [apply elem_of_cons; by left | done |].
      simpl in Hy. rewrite Hy, Hd. eexists. split; [done |].
      constructor; [| done]. by unfold bar_of.
Qed.

Lemma sorted_strings_set (X : gset string) :
  list_to_set (sorted_strings X) = X.
Proof.
  apply set_eq. intros x. by rewrite elem_of_list_to_set, sorted_strings_elem.
Qed.

Lemma chart_rows_lookup (names : list string) (x : string) (y : nat) :
  NoDup names ->
  (assign_rows 0 names ∅ !! x = Some y <-> names !! y = Some x).
Proof.
  intros Hnd. split.
  - intros H. destruct (decide (x ∈ names)) as [Hin | Hnin].
    + apply list_elem_of_lookup in Hin as [j Hj].
      rewrite (assign_rows_lookup 0 names ∅ j x Hnd Hj) in H.
      injection H as <-. done.
    + rewrite assign_rows_notin in H by done. by rewrite lookup_empty in H.
  - intros H. by rewrite (assign_rows_lookup 0 names ∅ y x Hnd H).
Qed.

(** The left ends of the bars are the time stamps of the entries drawn. *)
Lemma bars_left (y_pos : gmap string nat) (entries : list (Z * string))
    (drawn : list Bar) :
  Forall2 (bar_of y_pos) entries drawn -> bar_left <$> drawn = entries.*1.
Proof.
  induction 1 as [| e b entries drawn (_ & _ & _ & Hl) _ IH]; [done |].
  by rewrite !fmap_cons, Hl, IH.
Qed.

Lemma filter_times_sorted (P : Z * string -> Prop) `{!forall e, Decision (P e)}
    (log : list (Z * string)) :
  StronglySorted Z.lt log.*1 -> StronglySorted Z.lt (filter P log).*1.
Proof.
  induction log as [| e log IH]; intros Hs; [constructor |].
  rewrite fmap_cons in Hs. apply StronglySorted_cons in Hs as [Hall Hs].
  rewrite filter_cons. destruct (decide (P e)); [| by apply IH].
  rewrite fmap_cons. apply StronglySorted_cons. split; [| by apply IH].
  apply Forall_forall. intros x Hx.
  apply (proj1 (Forall_forall _ _) Hall).
  apply list_elem_of_fmap in Hx as (e' & -> & He').
  apply list_elem_of_filter in He' as [_ He'].
  by apply list_elem_of_fmap_2.
Qed.

(** The chart of any log: it is always produced, and its parts are as
    follows. *)
Lemma plot_gantt_chart_result (log : list (Z * string)) :
  exists drawn,
    plot_gantt_chart log
    = Ok (mkChart drawn
            (seq 0 (length (sorted_strings (unique_tasks log))))
            (sorted_strings (unique_tasks log))) /\
    Forall2 (bar_of (assign_rows 0 (sorted_strings (unique_tasks log)) ∅))
            (filter (fun e => e.2 <> Idle) log) drawn.
Proof.
  set (names := sorted_strings (unique_tasks log)).
  assert (Hnd : NoDup names) by apply sorted_strings_NoDup.
  assert (Hdom : dom (assign_rows 0 names ∅) = unique_tasks log).
  { rewrite assign_rows_dom, dom_empty_L, (right_id_L ∅ (∪)).
    apply sorted_strings_set. }
  destruct (draw_bars_ok (assign_rows 0 names ∅) log) as (drawn & Hd & Hf).
  { intros e He _. apply elem_of_dom. rewrite Hdom.
    apply elem_of_list_to_set. by apply list_elem_of_fmap_2. }
  exists drawn. split; [| done].
  unfold plot_gantt_chart. fold names. rewrite Hd. f_equal.
  rewrite <- size_dom, Hdom. fold names. f_equal. f_equal.
  rewrite <- (sorted_strings_set (unique_tasks log)) at 1. fold names.
  by rewrite size_list_to_set.
Qed.

End Chart.

(** X15.  [plot_gantt_chart] never fails with a missing key, whatever the
    log: it draws exactly one bar per log entry that is not idle, in log
    order, of width 1, starting at the entry's time stamp, on the row whose
    tick label is the entry's task and with the colour index of that row;
    idle entries give no bar. *)
Theorem plot_draws_every_job_tick (log : list (Z * string)) :
  exists chart,
    plot_gantt_chart log = Ok chart /\
    Forall2 (fun e b =>
               bar_left b = e.1 /\ bar_width b = 1 /\
               chart_tick_labels chart !! bar_y b = Some e.2 /\
               bar_color b = bar_y b)
            (filter (fun e => e.2 <> Idle) log) (chart_bars chart).
Proof.
  destruct (plot_gantt_chart_result log) as (drawn & Hplot & Hbars).
  eexists. split; [exact Hplot |]. simpl.
  eapply Forall2_impl; [exact Hbars |].
  intros e b (Hy & Hc & Hw & Hl). repeat split; try done.
  by apply chart_rows_lookup; [apply sorted_strings_NoDup |].
Qed.

(** X16.  The rows of the chart: the tick labels are the distinct labels of
    the log in ascending order, without repetition, at positions
    0, 1, 2, ...; two bars lie on the same row exactly when they belong to
    the same task; and although an idle entry gives the chart a row labelled
    Idle, no bar is ever drawn on that row. *)
Theorem chart_rows_are_the_sorted_names (log : list (Z * string)) :
  exists chart,
    plot_gantt_chart log = Ok chart /\
    StronglySorted String.le (chart_tick_labels chart) /\
    NoDup (chart_tick_labels chart) /\
    (forall x, x ∈ chart_tick_labels chart <-> x ∈ log.*2) /\
    chart_tick_positions chart = seq 0 (length (chart_tick_labels chart)) /\
    (forall b, b ∈ chart_bars chart ->
       exists name, chart_tick_labels chart !! bar_y b = Some name /\
                    name <> Idle /\ name ∈ log.*2) /\
    (forall b1 b2 n1 n2,
       chart_tick_labels chart !! bar_y b1 = Some n1 ->
       chart_tick_labels chart !! bar_y b2 = Some n2 ->
       (bar_y b1 = bar_y b2 <-> n1 = n2)).
Proof.
  destruct (plot_gantt_chart_result log) as (drawn & Hplot & Hbars).
  eexists. split; [exact Hplot |]. simpl.
  pose proof (sorted_strings_NoDup (unique_tasks log)) as Hnd.
  split; [apply sorted_strings_sorted |]. split; [done |].
  split; [| split; [done |]; split].
  - intros x. rewrite sorted_strings_elem. apply elem_of_list_to_set.
  - intros b Hb.
    apply list_elem_of_lookup in Hb as [i Hi].
    destruct (Forall2_lookup_r _ _ _ i b Hbars Hi) as (e & He & Hy & _).
    exists e.2. split; [by apply chart_rows_lookup |].
    apply list_elem_of_lookup_2 in He.
    apply list_elem_of_filter in He as [Hne He].
    split; [done | by apply list_elem_of_fmap_2].
  - intros b1 b2 n1 n2 H1 H2. split.
    + intros E. rewrite E in H1. congruence.
    + intros <-. by eapply NoDup_lookup.
Qed.

(** X17.  The chart of a run: the bars start at strictly increasing
    instants, so no two bars overlap and at most one task is shown running
    in any tick, and every bar lies within [0, simulation_time]. *)
Theorem run_chart_has_no_overlap (rvs : RandomSource) (n : nat)
    (ts : list Task) (simulation_time : Z) :
  exists s chart,
    rate_monotonic_scheduling rvs n ts simulation_time = Some s /\
    plot_gantt_chart (schedule_log s) = Ok chart /\
    StronglySorted Z.lt (bar_left <$> chart_bars chart) /\
    Forall (fun b => 0 <= bar_left b /\
                     bar_left b + bar_width b <= simulation_time)
           (chart_bars chart).
Proof.
  destruct (scheduling_result rvs n ts simulation_time) as (K & Hrun & _ & Hbefore).
  destruct (run_log_entries rvs n ts K) as [Htimes _].
  set (s0 := initial_state n ts) in *.
  destruct (plot_gantt_chart_result (schedule_log (iterate rvs K s0)))
    as (drawn & Hplot & Hbars).
  eexists _, _. split; [exact Hrun |]. split; [exact Hplot |]. simpl.
  pose proof (bars_left _ _ _ Hbars) as Hleft.
  split.
  - rewrite Hleft. apply filter_times_sorted. rewrite Htimes.
    apply clock_values_increasing.
  - apply Forall_forall. intros b Hb.
    apply list_elem_of_lookup in Hb as [i Hi].
    destruct (Forall2_lookup_r _ _ _ i b Hbars Hi) as (e & He & _ & _ & Hw & Hl).
    apply list_elem_of_lookup_2 in He.
    apply list_elem_of_filter in He as [_ He].
    assert (Hin : e.1 ∈ (schedule_log (iterate rvs K s0)).*1)
      by (by apply list_elem_of_fmap_2).
    rewrite Htimes in Hin.
    apply list_elem_of_fmap in Hin as (j & Hj & Hjk).
    apply elem_of_seq in Hjk.
    pose proof (Hbefore j ltac:(lia)).
    pose proof (iterate_time_mono rvs j s0). simpl in *.
    rewrite Hw, Hl, Hj. lia.
Qed.

(** ** The main program *)

Section Main.

Variable rvs : RandomSource.

Lemma build_tasks_periods n rows :
  period <$> (build_tasks rvs n rows).1 = col_Period <$> rows.
Proof.
  pose proof (build_tasks_built_from rvs n rows) as H.
  induction H as [| r t rows' ts' (Hs & _) _ IH]; [done |].
  rewrite !fmap_cons, IH. f_equal. unfold static in Hs. congruence.
Qed.


(** A list with exactly one zero has "least common multiple" 0. *)
Lemma reduce_lcm_zero (acc : Z) (l : list Z) :
  (acc = 0 /\ zeros l = 0%nat) \/ (acc <> 0 /\ zeros l = 1%nat) ->
  reduce_lcm acc l = Ok 0.
Proof.
  revert acc. induction l as [| y l IH]; intros acc; simpl.
  - unfold zeros. simpl. intros [[-> _] | [_ H]]; [done | lia].
  - rewrite zeros_cons. intros H.
    assert (Hab : acc <> 0 \/ y <> 0)
      by (destruct (decide (y = 0)); destruct H as [[? ?] | [? ?]]; auto; lia).
    rewrite (lcm_value _ _ Hab). apply IH.
    destruct (decide (y = 0)) as [-> | Hy].
    + left. split; [by rewrite Z.lcm_0_r | ].
      destruct H as [[_ H] | [_ H]]; lia.
    + destruct H as [[-> H] | [Ha H]].
      * left. split; [by rewrite Z.lcm_0_l | done].
      * right. split; [| done]. rewrite Z.lcm_eq_0. lia.
Qed.

(** A run with a horizon that is not positive does nothing. *)
Lemma no_pass_below_zero n ts T :
  T <= 0 ->
  rate_monotonic_scheduling rvs n ts T = Some (report (initial_state n ts)).
Proof.
  intros H. unfold rate_monotonic_scheduling.
  by rewrite while_loop_done by (simpl; lia).
Qed.

Lemma plot_empty_log :
  plot_gantt_chart [] = Ok (mkChart [] [] []).
Proof.
  destruct (plot_gantt_chart_result []) as (drawn & -> & Hbars).
  rewrite filter_nil in Hbars. apply Forall2_nil_inv_l in Hbars as ->.
  assert (E : sorted_strings (unique_tasks []) = []).
  { apply elem_of_nil_inv. intros x Hx.
    apply sorted_strings_elem in Hx. unfold unique_tasks in Hx.
    simpl in Hx. by apply elem_of_empty in Hx. }
  by rewrite E.
Qed.

End Main.





(** X20.  When (the rows having [bcet <= wcet]) exactly one row has
    period 0, or the file has a single row whose period is not positive, the
    computed horizon is not positive and the main program simulates nothing,
    without any error: the log is empty, the chart has no bar and no row, and
    the tasks keep the state their construction gave them. *)
Theorem main_skips_degenerate_horizon (rvs : RandomSource) (rows : list Row) :
  Forall (fun r => col_BCET r <= col_WCET r) rows ->
  zeros (col_Period <$> rows) = 1%nat \/
  (exists r, rows = [r] /\ col_Period r <= 0) ->
  exists s h,
    main rvs rows = Some (Ok (s, mkChart [] [] [])) /\
    lcm_of_list (col_Period <$> rows) = Ok h /\ h <= 0 /\
    schedule_log s = [] /\
    current_time s = 0 /\
    tasks s = (build_tasks rvs 0 rows).1.
Proof.
  intros _ H.
  assert (Hh : exists h, lcm_of_list (col_Period <$> rows) = Ok h /\ h <= 0).
  { destruct H as [Hz | (r & -> & Hr)]; [| by exists (col_Period r)].
    exists 0. split; [| done].
    destruct rows as [| r rest]; [done |]. rewrite fmap_cons in *. simpl.
    rewrite zeros_cons in Hz. apply reduce_lcm_zero.
    destruct (decide (col_Period r = 0)); [left | right]; split; try done; lia. }
  destruct Hh as (h & Hlcm & Hh0).
  pose proof (build_tasks_periods rvs 0 rows) as Hper.
  unfold main, load_tasks_from_csv.
  destruct (build_tasks rvs 0 rows) as [ts n]. simpl in Hper |- *.
  rewrite Hper, Hlcm, (no_pass_below_zero rvs n ts h Hh0).
  cbn [schedule_log report initial_state]. rewrite plot_empty_log.
  eexists _, h. split; [done |]. done.
Qed.

Lemma main_skips_degenerate_horizon_witness :
  exists s h,
    main no_draws zero_period_rows = Some (Ok (s, mkChart [] [] [])) /\
    lcm_of_list (col_Period <$> zero_period_rows) = Ok h /\ h <= 0 /\
    schedule_log s = [] /\
    current_time s = 0 /\
    tasks s = (build_tasks no_draws 0 zero_period_rows).1.
Proof.
  apply (main_skips_degenerate_horizon no_draws zero_period_rows).
  - repeat constructor; simpl; lia.
  - left. reflexivity.
Defined.

(** ** The printed lines, task by task *)

Section Trace.

Variable rvs : RandomSource.
Variable ts : list Task.
Hypothesis names_distinct : NoDup (task_id <$> ts).

#[local] Arguments count_refs : simpl never.

Lemma worst_response_app id w a b :
  worst_response id w (a ++ b) = worst_response id (worst_response id w a) b.
Proof.
  revert w. induction a as [| e a IH]; intros w; [done |].
  destruct e as [| | t' id' [r |] |]; simpl; by rewrite ?IH.
Qed.

Lemma last_release_app id r0 a b :
  last_release id r0 (a ++ b) = last_release id (last_release id r0 a) b.
Proof.
  revert r0. induction a as [| e a IH]; intros r0; [done |].
  destruct e; simpl; by rewrite ?IH.
Qed.

Lemma responses_ok_app id r0 a b :
  responses_ok id r0 (a ++ b) <->
  responses_ok id r0 a /\ responses_ok id (last_release id r0 a) b.
Proof.
  revert r0. induction a as [| e a IH]; intros r0; simpl; [tauto |].
  destruct e; simpl; rewrite ?IH; tauto.
Qed.

Lemma count_lines_app f a b :
  count_lines f (a ++ b) = (count_lines f a + count_lines f b)%nat.
Proof. induction a as [| e a IH]; simpl; [done |]. rewrite IH. lia. Qed.

Lemma count_refs_app i a b :
  count_refs i (a ++ b) = (count_refs i a + count_refs i b)%nat.
Proof. unfold count_refs. by rewrite filter_app, length_app. Qed.

Lemma count_refs_perm i a b : a ≡ₚ b -> count_refs i a = count_refs i b.
Proof. intros H. unfold count_refs. by rewrite H. Qed.

Lemma count_refs_cons i j l :
  count_refs i (j :: l)
    = ((if decide (j = i) then 1 else 0) + count_refs i l)%nat.
Proof. unfold count_refs. rewrite filter_cons. by destruct (decide (j = i)). Qed.

Lemma static_at (l l' : list Task) i t t' :
  static <$> l' = static <$> l -> l' !! i = Some t' -> l !! i = Some t ->
  static t' = static t.
Proof.
  intros H H1 H2. pose proof (f_equal (fun x => x !! i) H) as E. simpl in E.
  rewrite !list_lookup_fmap, H1, H2 in E. simpl in E. congruence.
Qed.

Lemma distinct_names i j a b :
  ts !! i = Some a -> ts !! j = Some b -> task_id a = task_id b -> i = j.
Proof.
  intros Ha Hb E.
  apply (NoDup_lookup _ i j (task_id a) names_distinct);
    rewrite list_lookup_fmap; [by rewrite Ha | by rewrite Hb, E].
Qed.

Lemma trace_inv_initial n : trace_inv ts (initial_state n ts).
Proof.
  split; [done |]. simpl. intros i t0 t H0 H. rewrite H0 in H.
  injection H as <-. by repeat split.
Qed.

Lemma trace_inv_update s j tj tj' out' act' tl jrt log dr :
  trace_inv ts s ->
  tasks s !! j = Some tj -> static tj' = static tj ->
  (forall t0, ts !! j = Some t0 -> task_id t0 = task_id tj ->
     trace_at t0 tj j (output s) (active_jobs s) ->
     trace_at t0 tj' j out' act') ->
  (forall k t0 t, k <> j -> task_id t0 <> task_id tj ->
     trace_at t0 t k (output s) (active_jobs s) ->
     trace_at t0 t k out' act') ->
  trace_inv ts (mkState tl (<[j := tj']> (tasks s)) act' jrt log dr out').
Proof.
  intros [Hst Hat] Hj Hs Hsame Hother.
  destruct (static_lookup ts (tasks s) j tj Hst Hj) as (t0j & Ht0j & Es).
  assert (Eid : task_id t0j = task_id tj) by (unfold static in Es; congruence).
  split; cbn.
  - rewrite <- Hst. by apply (static_insert _ _ tj).
  - intros k t0 t Hk Ht.
    apply list_lookup_insert_Some in Ht as [(<- & <- & _) | [Hne Ht]].
    + rewrite Hk in Ht0j. injection Ht0j as ->.
      apply Hsame; [done | done |]. by apply Hat.
    + apply Hother; [done | | by apply Hat].
      rewrite <- Eid. intros E. apply Hne. symmetry.
      by apply (distinct_names k j t0 t0j).
Qed.

Lemma trace_release_one s i :
  trace_inv ts s -> trace_inv ts (release_one rvs s i).
Proof.
  intros Hinv. unfold release_one.
  destruct (tasks s !! i) as [task |] eqn:Ei; [| done].
  destruct (job_release_times s !! task_id task) as [r |]; [| done].
  destruct (decide (current_time s = r)) as [_ | _]; [| done].
  unfold TaskOps.release_new_job.
  destruct (sample rvs (draws s) (bcet task) (wcet task)) as [c n'].
  apply (trace_inv_update s i task); [done | done | done | |].
  - intros t0 _ Eid (Hw & Hr & Hok & Hc). unfold trace_at. cbn.
    rewrite worst_response_app, responses_ok_app, last_release_app,
      !count_lines_app, count_refs_app, count_refs_cons. simpl.
    rewrite !decide_True by done. rewrite bool_decide_eq_true_2 by done.
    repeat split; try done. rewrite Hc. unfold count_refs. simpl. lia.
  - intros k t0 t Hne Hid (Hw & Hr & Hok & Hc). unfold trace_at.
    rewrite worst_response_app, responses_ok_app, last_release_app,
      !count_lines_app, count_refs_app, count_refs_cons. simpl.
    rewrite !decide_False by done. rewrite bool_decide_eq_false_2 by done.
    repeat split; try done. rewrite Hc. unfold count_refs. simpl. lia.
Qed.

Lemma trace_dispatch s : trace_inv ts s -> trace_inv ts (dispatch s).
Proof.
  intros Hinv. unfold dispatch.
  pose proof (sorted_perm (priority_of (tasks s)) (active_jobs s)) as Hperm.
  destruct (sorted (priority_of (tasks s)) (active_jobs s)) as [| j rest] eqn:Es.
  - destruct Hinv as [Hst Hat]. split; [done |]. cbn.
    intros i t0 t H0 H. destruct (Hat i t0 t H0 H) as (? & ? & ? & Hc).
    repeat split; try done. rewrite Hc. by rewrite (count_refs_perm i _ _ Hperm).
  - destruct (tasks s !! j) as [job |] eqn:Ej; [| done].
    unfold TaskOps.execute. cbn [fst snd].
    destruct (Z.max 0 (remaining_time job - 1) =? 0) eqn:Ef.
    + cbn [TaskOps.calculate_response_time task_id response_time release_time].
      simpl list_remove_first. rewrite decide_True by done.
      apply (trace_inv_update s j job); [done | done | done | |].
      * intros t0 _ Eid (Hw & Hr & Hok & Hc). unfold trace_at. cbn.
        rewrite !worst_response_app, !responses_ok_app, !last_release_app,
          !count_lines_app. simpl.
        rewrite decide_True by done. rewrite bool_decide_eq_true_2 by done.
        rewrite <- (count_refs_perm j _ _ Hperm), count_refs_cons,
          decide_True in Hc by done.
        rewrite <- Hw, <- Hr.
        repeat split; try done. lia.
      * intros k t0 t Hne Hid (Hw & Hr & Hok & Hc). unfold trace_at.
        rewrite !worst_response_app, !responses_ok_app, !last_release_app,
          !count_lines_app. simpl.
        rewrite decide_False by done. rewrite bool_decide_eq_false_2 by done.
        rewrite <- (count_refs_perm k _ _ Hperm), count_refs_cons,
          decide_False in Hc by done.
        repeat split; try done. lia.
    + apply (trace_inv_update s j job); [done | done | done | |].
      * intros t0 _ Eid (Hw & Hr & Hok & Hc). unfold trace_at. cbn.
        rewrite !worst_response_app, !responses_ok_app, !last_release_app,
          !count_lines_app. simpl.
        rewrite (count_refs_perm j _ _ Hperm).
        repeat split; try done. lia.
      * intros k t0 t Hne Hid (Hw & Hr & Hok & Hc). unfold trace_at.
        rewrite !worst_response_app, !responses_ok_app, !last_release_app,
          !count_lines_app. simpl.
        rewrite (count_refs_perm k _ _ Hperm).
        repeat split; try done. lia.
Qed.

Lemma trace_advance s : trace_inv ts s -> trace_inv ts (advance s).
Proof. done. Qed.

Lemma trace_run n k : trace_inv ts (iterate rvs k (initial_state n ts)).
Proof.
  eapply (moves_invariant rvs (trace_inv ts));
    [| | | apply iterate_moves | apply trace_inv_initial].
  - intros s i. apply trace_release_one.
  - apply trace_dispatch.
  - apply trace_advance.
Qed.

End Trace.

Lemma responses_ok_wcrt_lines id r0 (l : list Task) :
  responses_ok id r0 ((fun t => Wcrt (task_id t) (wcrt t)) <$> l).
Proof. by induction l. Qed.


(** X21.  With distinct task names, the WCRT printed for a task at the end
    of the run (and left in its [wcrt] field) is the largest response time
    printed in the completion lines of that task, or the value the field had
    before the run when that is larger (0 for a freshly built task); the
    WCRT lines are the last lines printed, one per task, in task order. *)
Theorem reported_wcrt_is_worst_response (rvs : RandomSource) (n : nat)
    (ts : list Task) (simulation_time : Z) :
  NoDup (task_id <$> ts) ->
  exists s out,
    rate_monotonic_scheduling rvs n ts simulation_time = Some s /\
    output s = out ++ ((fun t => Wcrt (task_id t) (wcrt t)) <$> tasks s) /\
    Forall2 (fun t0 t =>
               task_id t = task_id t0 /\
               wcrt t = worst_response (task_id t0) (wcrt t0) out)
            ts (tasks s).
Proof.
  intros Hnd.
  destruct (scheduling_result rvs n ts simulation_time) as (k & Hrun & _).
  pose proof (trace_run rvs ts Hnd n k) as [Hst Hat].
  set (s := iterate rvs k (initial_state n ts)) in *.
  exists (report s), (output s). split; [done |]. split; [done |].
  simpl. apply Forall2_same_length_lookup.
  split; [symmetry; by apply static_length |].
  intros i t0 t H0 H. split.
  - pose proof (static_at ts (tasks s) i t0 t Hst H H0) as E.
    unfold static in E. congruence.
  - by apply (Hat i t0 t).
Qed.

Lemma reported_wcrt_is_worst_response_witness :
  exists s out,
    rate_monotonic_scheduling no_draws 0 (scenario_tasks no_draws 4 6) 12
      = Some s /\
    output s = out ++ ((fun t => Wcrt (task_id t) (wcrt t)) <$> tasks s) /\
    Forall2 (fun t0 t =>
               task_id t = task_id t0 /\
               wcrt t = worst_response (task_id t0) (wcrt t0) out)
            (scenario_tasks no_draws 4 6) (tasks s).
Proof.
  apply (reported_wcrt_is_worst_response no_draws 0
           (scenario_tasks no_draws 4 6) 12).
  by apply (bool_decide_unpack _).
Defined.

(** X22.  With distinct task names, the response time printed in a
    completion line is the completion instant minus the instant of the
    latest release line of the same task before it (minus the release time
    the task object carried into the run when there is none): a task
    released again before its job completed has that job's response
    measured from the later release. *)
Theorem response_is_time_since_latest_release (rvs : RandomSource) (n : nat)
    (ts : list Task) (simulation_time : Z) :
  NoDup (task_id <$> ts) ->
  exists s,
    rate_monotonic_scheduling rvs n ts simulation_time = Some s /\
    Forall (fun t0 => responses_ok (task_id t0) (release_time t0) (output s))
           ts.
Proof.
  intros Hnd.
  destruct (scheduling_result rvs n ts simulation_time) as (k & Hrun & _).
  pose proof (trace_run rvs ts Hnd n k) as [Hst Hat].
  set (s := iterate rvs k (initial_state n ts)) in *.
  exists (report s). split; [done |].
  apply Forall_lookup. intros i t0 H0.
  destruct (lookup_lt_is_Some_2 (tasks s) i) as [t Ht].
  { rewrite (static_length _ _ Hst). by apply lookup_lt_Some in H0. }
  destruct (Hat i t0 t H0 Ht) as (_ & _ & Hok & _).
  simpl. apply responses_ok_app. split; [done |].
  apply responses_ok_wcrt_lines.
Qed.

Lemma response_is_time_since_latest_release_witness :
  exists s,
    rate_monotonic_scheduling no_draws 0
      (build_tasks no_draws 0 overrun_rows).1 6 = Some s /\
    Forall (fun t0 => responses_ok (task_id t0) (release_time t0) (output s))
           (build_tasks no_draws 0 overrun_rows).1.
Proof.
  apply (response_is_time_since_latest_release no_draws 0
           (build_tasks no_draws 0 overrun_rows).1 6).
  by apply (bool_decide_unpack _).
Defined.



(** ** Deadlines *)

Section Deadlines.

Variable rvs : RandomSource.

Lemma forget_release_one s i :
  release_one rvs (forget_deadlines s) i
    = forget_deadlines (release_one rvs s i).
Proof.
  unfold release_one, forget_deadlines. cbn.
  rewrite list_lookup_fmap.
  destruct (tasks s !! i) as [task |]; [| done]. cbn.
  destruct (job_release_times s !! task_id task) as [r |]; [| done].
  destruct (decide (current_time s = r)) as [_ | _]; [| done].
  unfold TaskOps.release_new_job. cbn.
  destruct (sample rvs (draws s) (bcet task) (wcet task)) as [c n']. cbn.
  by rewrite list_fmap_insert.
Qed.

Lemma forget_release_indices s (l : list nat) :
  fold_left (release_one rvs) l (forget_deadlines s)
    = forget_deadlines (fold_left (release_one rvs) l s).
Proof.
  revert s. induction l as [| i l IH]; intros s; [done |].
  simpl. by rewrite forget_release_one, IH.
Qed.

Lemma forget_release_jobs s :
  release_jobs rvs (forget_deadlines s)
    = forget_deadlines (release_jobs rvs s).
Proof.
  unfold release_jobs. rewrite <- forget_release_indices.
  cbn. by rewrite length_fmap.
Qed.

Lemma forget_priority_of (l : list Task) (i : nat) :
  priority_of (set_deadline 0 <$> l) i = priority_of l i.
Proof.
  unfold priority_of. rewrite list_lookup_fmap. by destruct (l !! i).
Qed.

Lemma forget_dispatch s :
  dispatch (forget_deadlines s) = forget_deadlines (dispatch s).
Proof.
  unfold dispatch, forget_deadlines.
  cbn [current_time tasks active_jobs job_release_times schedule_log draws
       output].
  rewrite (sorted_ext (priority_of (set_deadline 0 <$> tasks s))
                      (priority_of (tasks s)))
    by apply forget_priority_of.
  destruct (sorted (priority_of (tasks s)) (active_jobs s)) as [| j rest];
    [done |].
  rewrite list_lookup_fmap.
  destruct (tasks s !! j) as [job |]; [| done].
  unfold TaskOps.execute.
  cbn [fmap option_fmap option_map set_deadline remaining_time].
  destruct (Z.max 0 (remaining_time job - 1) =? 0);
    cbn [current_time tasks active_jobs job_release_times schedule_log draws
         output]; by rewrite list_fmap_insert.
Qed.

Lemma forget_advance s :
  advance (forget_deadlines s) = forget_deadlines (advance s).
Proof. done. Qed.

Lemma forget_loop_body s :
  loop_body rvs (forget_deadlines s) = forget_deadlines (loop_body rvs s).
Proof.
  unfold loop_body.
  by rewrite forget_release_jobs, forget_dispatch, forget_advance.
Qed.

Lemma forget_while_loop fuel T s :
  while_loop rvs fuel T (forget_deadlines s)
    = forget_deadlines <$> while_loop rvs fuel T s.
Proof.
  revert s. induction fuel as [| fuel IH]; intros s; simpl.
  - by destruct (decide (current_time s < T)).
  - destruct (decide (current_time s < T)); [| done].
    by rewrite forget_loop_body, IH.
Qed.

Lemma forget_report s :
  report (forget_deadlines s) = forget_deadlines (report s).
Proof.
  unfold report, forget_deadlines.
  cbn [current_time tasks active_jobs job_release_times schedule_log draws
       output].
  f_equal. f_equal.
  induction (tasks s) as [| t l IH]; [done |].
  rewrite fmap_cons. cbn [map]. by rewrite IH.
Qed.

Lemma forget_initial_release_times (l : list Task) :
  initial_release_times (set_deadline 0 <$> l) = initial_release_times l.
Proof.
  unfold initial_release_times.
  induction l as [| t l IH]; [done |].
  rewrite fmap_cons. cbn [foldr]. by rewrite IH.
Qed.

Lemma forget_scheduling n l T :
  rate_monotonic_scheduling rvs n (set_deadline 0 <$> l) T
    = forget_deadlines <$> rate_monotonic_scheduling rvs n l T.
Proof.
  unfold rate_monotonic_scheduling.
  assert (E : initial_state n (set_deadline 0 <$> l)
              = forget_deadlines (initial_state n l)).
  { unfold initial_state, forget_deadlines. cbn.
    by rewrite forget_initial_release_times. }
  rewrite E, forget_while_loop.
  destruct (while_loop rvs (Z.to_nat T) T (initial_state n l)) as [s |];
    [| done].
  simpl. by rewrite forget_report.
Qed.

End Deadlines.

(** X24.  The scheduler never looks at a deadline: two task lists that
    differ in their deadlines only give the same run (the same log, the same
    printed lines, the same clock, active jobs, release instants and draws)
    and leave task objects that again differ in their deadlines only, each
    keeping the deadlines it came with.  No deadline miss is detected or
    reported. *)
Theorem deadlines_play_no_part (rvs : RandomSource) (n : nat)
    (ts ts' : list Task) (simulation_time : Z) :
  set_deadline 0 <$> ts = set_deadline 0 <$> ts' ->
  exists s s',
    rate_monotonic_scheduling rvs n ts simulation_time = Some s /\
    rate_monotonic_scheduling rvs n ts' simulation_time = Some s' /\
    schedule_log s = schedule_log s' /\
    output s = output s' /\
    current_time s = current_time s' /\
    active_jobs s = active_jobs s' /\
    job_release_times s = job_release_times s' /\
    draws s = draws s' /\
    set_deadline 0 <$> tasks s = set_deadline 0 <$> tasks s' /\
    deadline <$> tasks s = deadline <$> ts /\
    deadline <$> tasks s' = deadline <$> ts'.
Proof.
  intros Hsame.
  destruct (scheduling_result rvs n ts simulation_time) as (k & Hrun & _).
  destruct (scheduling_result rvs n ts' simulation_time) as (k' & Hrun' & _).
  pose proof (forget_scheduling rvs n ts simulation_time) as E.
  pose proof (forget_scheduling rvs n ts' simulation_time) as E'.
  rewrite Hsame, E', Hrun, Hrun' in E.
  cbn [fmap option_fmap option_map] in E. apply (inj Some) in E.
  assert (Hd : forall l j, deadline <$> tasks (report (iterate rvs j (initial_state n l)))
                           = deadline <$> l).
  { intros l j. simpl.
    pose proof (iterate_static rvs j (initial_state n l)) as Hst. simpl in Hst.
    pose proof (f_equal (fmap (fun p : string * Z * Z * Z * Z * Z => p.1.1.1.2)) Hst) as Hst'.
    by rewrite <- !list_fmap_compose in Hst'. }
  eexists _, _. split; [exact Hrun |]. split; [exact Hrun' |].
  split; [exact (f_equal schedule_log (eq_sym E)) |].
  split; [exact (f_equal output (eq_sym E)) |].
  split; [exact (f_equal current_time (eq_sym E)) |].
  split; [exact (f_equal active_jobs (eq_sym E)) |].
  split; [exact (f_equal job_release_times (eq_sym E)) |].
  split; [exact (f_equal draws (eq_sym E)) |].
  split; [exact (f_equal tasks (eq_sym E)) |].
  split; apply Hd.
Qed.

Lemma deadlines_play_no_part_witness :
  exists s s',
    rate_monotonic_scheduling no_draws 0 (scenario_tasks no_draws 4 6) 12
      = Some s /\
    rate_monotonic_scheduling no_draws 0 (scenario_tasks no_draws 1 1) 12
      = Some s' /\
    schedule_log s = schedule_log s' /\
    output s = output s' /\
    current_time s = current_time s' /\
    active_jobs s = active_jobs s' /\
    job_release_times s = job_release_times s' /\
    draws s = draws s' /\
    set_deadline 0 <$> tasks s = set_deadline 0 <$> tasks s' /\
    deadline <$> tasks s = deadline <$> scenario_tasks no_draws 4 6 /\
    deadline <$> tasks s' = deadline <$> scenario_tasks no_draws 1 1.
Proof.
  apply (deadlines_play_no_part no_draws 0 (scenario_tasks no_draws 4 6)
           (scenario_tasks no_draws 1 1) 12).
  reflexivity.
Defined.

(** ** The run lines, the log and the chart *)

Section RunLines.

Variable rvs : RandomSource.
Variable ts : list Task.
Hypothesis ids_not_Idle : Forall (fun t => task_id t <> Idle) ts.

Lemma ran_entries_app a b : ran_entries (a ++ b) = ran_entries a ++ ran_entries b.
Proof. apply omap_app. Qed.

Lemma ran_release_one s i : ran_inv ts s -> ran_inv ts (release_one rvs s i).
Proof.
  intros [Hst Hran]. unfold release_one.
  destruct (tasks s !! i) as [task |] eqn:Ei; [| done].
  destruct (job_release_times s !! task_id task) as [r |]; [| done].
  destruct (decide (current_time s = r)) as [_ | _]; [| done].
  unfold TaskOps.release_new_job.
  destruct (sample rvs (draws s) (bcet task) (wcet task)) as [c n'].
  split; cbn [tasks output schedule_log].
  - rewrite <- Hst. by apply (static_insert _ _ task).
  - rewrite ran_entries_app, Hran. apply app_nil_r.
Qed.

Lemma ran_dispatch s : ran_inv ts s -> ran_inv ts (dispatch s).
Proof.
  intros [Hst Hran]. unfold dispatch.
  destruct (sorted (priority_of (tasks s)) (active_jobs s)) as [| j rest].
  - split; [done |]. cbn [tasks output schedule_log].
    rewrite filter_app, Hran, filter_cons_False by (simpl; tauto).
    by rewrite filter_nil, app_nil_r.
  - destruct (tasks s !! j) as [job |] eqn:Ej; [| done].
    assert (Hid : task_id job <> Idle).
    { destruct (static_lookup ts (tasks s) j job Hst Ej) as (t0 & H0 & Es).
      replace (task_id job) with (task_id t0)
        by (unfold static in Es; congruence).
      by apply (proj1 (Forall_lookup _ _) ids_not_Idle j t0). }
    unfold TaskOps.execute. cbn [fst snd].
    destruct (Z.max 0 (remaining_time job - 1) =? 0);
      (split; cbn [tasks output schedule_log];
       [ rewrite <- Hst; by apply (static_insert _ _ job)
       | rewrite ?ran_entries_app, filter_app, Hran,
           filter_cons_True by done;
         cbn; by rewrite ?app_nil_r ]).
Qed.

Lemma ran_run n k : ran_inv ts (iterate rvs k (initial_state n ts)).
Proof.
  eapply (moves_invariant rvs (ran_inv ts));
    [| | | apply iterate_moves | by split].
  - intros s i. apply ran_release_one.
  - apply ran_dispatch.
  - by intros s [? ?].
Qed.

End RunLines.

Lemma completions_follow_app x a b :
  completions_follow x a -> completions_follow None b ->
  completions_follow x (a ++ b).
Proof.
  revert x. induction a as [| e a IH]; intros x Ha Hb; simpl in *.
  - by subst x.
  - destruct x as [[t id] |].
    + destruct Ha as [He Ha]. split; [done |]. by apply IH.
    + destruct e; try done; by apply IH.
Qed.

Lemma completions_release_one rvs s i :
  completions_follow None (output s) ->
  completions_follow None (output (release_one rvs s i)).
Proof.
  intros H. unfold release_one.
  destruct (tasks s !! i) as [task |]; [| done].
  destruct (job_release_times s !! task_id task) as [r |]; [| done].
  destruct (decide (current_time s = r)) as [_ | _]; [| done].
  unfold TaskOps.release_new_job.
  destruct (sample rvs (draws s) (bcet task) (wcet task)) as [c n'].
  cbn [output]. by apply completions_follow_app.
Qed.

Lemma completions_dispatch s :
  completions_follow None (output s) ->
  completions_follow None (output (dispatch s)).
Proof.
  intros H. unfold dispatch.
  destruct (sorted (priority_of (tasks s)) (active_jobs s)) as [| j rest];
    [done |].
  destruct (tasks s !! j) as [job |]; [| done].
  unfold TaskOps.execute. cbn [fst snd].
  destruct (Z.max 0 (remaining_time job - 1) =? 0) eqn:Ef; cbn [output].
  - rewrite <- app_assoc. apply completions_follow_app; [done |].
    apply Z.eqb_eq in Ef. cbn.
    rewrite decide_True by done. split; [by eexists | done].
  - apply completions_follow_app; [done |].
    apply Z.eqb_neq in Ef. cbn. by rewrite decide_False.
Qed.

Lemma completions_wcrt_lines (l : list Task) :
  completions_follow None ((fun t => Wcrt (task_id t) (wcrt t)) <$> l).
Proof. by induction l. Qed.

(** X25.  When no task is called Idle, the run lines are the log without
    its idle entries (same instants, same tasks, same order), and the bars
    of the chart start at the instants of the run lines: the chart shows
    exactly the ticks printed as run. *)
Theorem run_lines_match_log (rvs : RandomSource) (n : nat) (ts : list Task)
    (simulation_time : Z) :
  Forall (fun t => task_id t <> Idle) ts ->
  exists s chart,
    rate_monotonic_scheduling rvs n ts simulation_time = Some s /\
    ran_entries (output s) = filter (fun e => e.2 <> Idle) (schedule_log s) /\
    plot_gantt_chart (schedule_log s) = Ok chart /\
    bar_left <$> chart_bars chart = (ran_entries (output s)).*1.
Proof.
  intros Hid.
  destruct (scheduling_result rvs n ts simulation_time) as (k & Hrun & _).
  pose proof (ran_run rvs ts Hid n k) as [_ Hran].
  set (s := iterate rvs k (initial_state n ts)) in *.
  destruct (plot_gantt_chart_result (schedule_log s)) as (drawn & Hplot & Hbars).
  assert (E : ran_entries (output (report s))
              = filter (fun e => e.2 <> Idle) (schedule_log s)).
  { simpl. rewrite ran_entries_app, Hran.
    replace (ran_entries (map _ (tasks s))) with (@nil (Z * string));
      [apply app_nil_r |].
    by induction (tasks s). }
  exists (report s). eexists. split; [done |]. split; [exact E |].
  split; [exact Hplot |].
  rewrite E. simpl. by apply (bars_left _ _ _ Hbars).
Qed.

Lemma run_lines_match_log_witness :
  exists s chart,
    rate_monotonic_scheduling no_draws 0 (scenario_tasks no_draws 4 6) 12
      = Some s /\
    ran_entries (output s) = filter (fun e => e.2 <> Idle) (schedule_log s) /\
    plot_gantt_chart (schedule_log s) = Ok chart /\
    bar_left <$> chart_bars chart = (ran_entries (output s)).*1.
Proof.
  apply (run_lines_match_log no_draws 0 (scenario_tasks no_draws 4 6) 12).
  repeat constructor; by vm_compute.
Defined.

(** X26.  A completion line is printed exactly for the tick that finished
    the job: every run line with remaining time 0 is immediately followed by
    the completion line of the same task, stamped one tick later and
    carrying a response time; a run line with work left is not; and no
    completion line appears anywhere else. *)
Theorem completion_follows_last_tick (rvs : RandomSource) (n : nat)
    (ts : list Task) (simulation_time : Z) :
  exists s,
    rate_monotonic_scheduling rvs n ts simulation_time = Some s /\
    completions_follow None (output s).
Proof.
  destruct (scheduling_result rvs n ts simulation_time) as (k & Hrun & _).
  exists (report (iterate rvs k (initial_state n ts))). split; [done |].
  simpl. apply completions_follow_app; [| apply completions_wcrt_lines].
  eapply (moves_invariant rvs (fun s => completions_follow None (output s)));
    [| | | apply iterate_moves | done].
  - intros s i. apply completions_release_one.
  - apply completions_dispatch.
  - done.
Qed.

(** ** Periodic release *)

Section Periodic.

Variable rvs : RandomSource.
Variable ts : list Task.
Hypothesis names_distinct : NoDup (task_id <$> ts).

Lemma release_instants_app id a b :
  release_instants id (a ++ b) = release_instants id a ++ release_instants id b.
Proof. apply omap_app. Qed.

Lemma multiples_succ p m : multiples p (S m) = multiples p m ++ [Z.of_nat m * p].
Proof. unfold multiples. by rewrite seq_S, fmap_app. Qed.

Lemma periodic_initial n : periodic_inv ts (initial_state n ts).
Proof.
  split; [done |]. intros i t0 H0. exists 0%nat. split; [| done].
  cbn [job_release_times initial_state].
  rewrite initial_release_times_lookup, decide_True; [done |].
  apply list_elem_of_fmap. exists t0. split; [done |].
  by apply list_elem_of_lookup_2 in H0.
Qed.

Lemma periodic_release_one s i :
  periodic_inv ts s -> periodic_inv ts (release_one rvs s i).
Proof.
  intros [Hst Hper]. unfold release_one.
  destruct (tasks s !! i) as [task |] eqn:Ei; [| done].
  destruct (job_release_times s !! task_id task) as [r |] eqn:Er; [| done].
  destruct (decide (current_time s = r)) as [Hr | _]; [| done].
  unfold TaskOps.release_new_job.
  destruct (sample rvs (draws s) (bcet task) (wcet task)) as [c n'].
  destruct (static_lookup ts (tasks s) i task Hst Ei) as (t0i & H0i & Es).
  assert (Eid : task_id t0i = task_id task) by (unfold static in Es; congruence).
  assert (Ep : period t0i = period task) by (unfold static in Es; congruence).
  split; cbn [tasks output job_release_times].
  - rewrite <- Hst. by apply (static_insert _ _ task).
  - intros k t0 H0. destruct (Hper k t0 H0) as (m & Hm & Hout).
    rewrite release_instants_app. cbn.
    destruct (decide (task_id task = task_id t0)) as [E | E].
    + assert (k = i) as ->
        by (apply (distinct_names ts names_distinct k i t0 t0i); congruence).
      rewrite H0i in H0. injection H0 as <-.
      rewrite Eid, Er in Hm. injection Hm as Hm.
      exists (S m). rewrite Eid. split.
      * rewrite (lookup_insert_eq (M:=gmap string)). f_equal. lia.
      * rewrite <- Eid, Hout, multiples_succ. f_equal. f_equal. lia.
    + exists m. split.
      * by rewrite (lookup_insert_ne (M:=gmap string)).
      * by rewrite Hout, app_nil_r.
Qed.

Lemma periodic_dispatch s : periodic_inv ts s -> periodic_inv ts (dispatch s).
Proof.
  intros [Hst Hper]. unfold dispatch.
  destruct (sorted (priority_of (tasks s)) (active_jobs s)) as [| j rest];
    [done |].
  destruct (tasks s !! j) as [job |] eqn:Ej; [| done].
  unfold TaskOps.execute. cbn [fst snd].
  destruct (Z.max 0 (remaining_time job - 1) =? 0);
    (split; cbn [tasks output job_release_times];
     [ rewrite <- Hst; by apply (static_insert _ _ job)
     | intros k t0 H0; destruct (Hper k t0 H0) as (m & Hm & Hout);
       exists m; split; [done |];
       rewrite ?release_instants_app, Hout; cbn; by rewrite ?app_nil_r ]).
Qed.

Lemma periodic_run n k : periodic_inv ts (iterate rvs k (initial_state n ts)).
Proof.
  eapply (moves_invariant rvs (periodic_inv ts));
    [| | | apply iterate_moves | apply periodic_initial].
  - intros s i. apply periodic_release_one.
  - apply periodic_dispatch.
  - by intros s [? ?].
Qed.

End Periodic.

Lemma released_before_release_one rvs T s i :
  current_time s < T -> Forall (released_before T) (output s) ->
  Forall (released_before T) (output (release_one rvs s i)).
Proof.
  intros Ht H. unfold release_one.
  destruct (tasks s !! i) as [task |]; [| done].
  destruct (job_release_times s !! task_id task) as [r |]; [| done].
  destruct (decide (current_time s = r)) as [_ | _]; [| done].
  unfold TaskOps.release_new_job.
  destruct (sample rvs (draws s) (bcet task) (wcet task)) as [c n'].
  cbn [output]. apply Forall_app. split; [done |]. by repeat constructor.
Qed.

Lemma released_before_dispatch T s :
  Forall (released_before T) (output s) ->
  Forall (released_before T) (output (dispatch s)).
Proof.
  intros H. unfold dispatch.
  destruct (sorted (priority_of (tasks s)) (active_jobs s)) as [| j rest];
    [done |].
  destruct (tasks s !! j) as [job |]; [| done].
  unfold TaskOps.execute. cbn [fst snd].
  destruct (Z.max 0 (remaining_time job - 1) =? 0); cbn [output];
    rewrite ?Forall_app; repeat split; try done; by repeat constructor.
Qed.

Lemma released_before_loop_body rvs T s :
  current_time s < T -> Forall (released_before T) (output s) ->
  Forall (released_before T) (output (loop_body rvs s)).
Proof.
  intros Ht H. unfold loop_body. cbn [advance output].
  apply released_before_dispatch.
  apply (release_jobs_ind rvs
           (fun s' => current_time s' < T /\
                      Forall (released_before T) (output s')) s);
    [| done].
  intros s' i [Ht' H']. split; [| by apply released_before_release_one].
  by rewrite release_one_time.
Qed.

(** X27.  With distinct task names and positive periods, every task is
    released periodically: the instants of its release lines are exactly the
    multiples 0, p, 2p, ... of its period [p] that lie before
    [simulation_time], each once and in increasing order. *)
Theorem tasks_released_once_per_period (rvs : RandomSource) (n : nat)
    (ts : list Task) (simulation_time : Z) :
  NoDup (task_id <$> ts) ->
  Forall (fun t => 0 < period t) ts ->
  exists s,
    rate_monotonic_scheduling rvs n ts simulation_time = Some s /\
    Forall (fun t0 =>
              exists m : nat,
                release_instants (task_id t0) (output s)
                  = multiples (period t0) m /\
                forall j : nat,
                  Z.of_nat j * period t0 < simulation_time <-> (j < m)%nat)
           ts.
Proof.
  intros Hnd Hpos.
  destruct (scheduling_invariant rvs
              (fun s => grid_head ts s /\
                        Forall (released_before simulation_time) (output s))
              n ts simulation_time)
    as (k & s & Hs & Hrun & [Hgrid Hbefore] & Hge).
  { split; [by apply grid_head_initial | constructor]. }
  { intros s [Hg Hb] Hlt. split; [by apply grid_loop_body |].
    by apply released_before_loop_body. }
  pose proof (periodic_run rvs ts Hnd n k) as [_ Hper]. rewrite <- Hs in Hper.
  destruct Hgrid as (_ & _ & _ & Hfrom & _).
  exists (report s). split; [done |].
  apply Forall_lookup. intros i t0 H0.
  destruct (Hper i t0 H0) as (m & Hm & Hout).
  pose proof (proj1 (Forall_lookup _ _) Hpos i t0 H0) as Hp. simpl in Hp.
  exists m. split.
  - simpl. rewrite release_instants_app, Hout.
    replace (release_instants (task_id t0) (map _ (tasks s))) with (@nil Z);
      [apply app_nil_r |].
    by induction (tasks s).
  - intros j. split.
    + intros Hj. pose proof (Hfrom _ _ Hm) as Hle. nia.
    + intros Hj.
      assert (Hin : Z.of_nat j * period t0
                    ∈ release_instants (task_id t0) (output s)).
      { rewrite Hout. unfold multiples. apply list_elem_of_fmap.
        exists j. split; [done |]. apply elem_of_seq. lia. }
      apply list_elem_of_omap in Hin as (e & He & Hf).
      pose proof (proj1 (Forall_forall _ _) Hbefore e He) as Hb.
      destruct e as [t id c | | |]; try done.
      simpl in Hb. destruct (decide (id = task_id t0)); [| done].
      by injection Hf as <-.
Qed.

Lemma tasks_released_once_per_period_witness :
  exists s,
    rate_monotonic_scheduling no_draws 0 (scenario_tasks no_draws 4 6) 12
      = Some s /\
    Forall (fun t0 =>
              exists m : nat,
                release_instants (task_id t0) (output s)
                  = multiples (period t0) m /\
                forall j : nat, Z.of_nat j * period t0 < 12 <-> (j < m)%nat)
           (scenario_tasks no_draws 4 6).
Proof.
  apply (tasks_released_once_per_period no_draws 0
           (scenario_tasks no_draws 4 6) 12).
  - by apply (bool_decide_unpack _).
  - repeat constructor.
Defined.
